(** * Concurrent containers: a shallow embedding and its verification

    The development embeds the containers of the repository
    (coarse, Treiber, elimination, flat-combining stacks; coarse,
    Michael-Scott, flat-combining queues), the hazard-pointer registry
    and the condition-variable wrapper.

    Every member function is written as a program over the atomic
    actions it performs on shared memory, in source order.  A program
    can be run by one thread to completion ([run]), its completed
    actions can be listed ([trace]), and several programs can be
    interleaved action by action under a schedule ([interleave]).
    Memory is sequentially consistent: the C++ memory orders are not
    modelled.  What the environment decides is read from oracles kept
    in the state: the addresses the allocator proposes, whether a weak
    CAS fails spuriously, what the random generator draws.

    Part I is the model, one module per header.  Part II is the
    vocabulary of the specifications: representation invariants,
    clients, schedules.  Part III holds the lemmas, the claims and
    further properties of the code. *)

From stdpp Require Import base numbers list option gmap.
From Stdlib Require Import ZArith Lia.

Local Open Scope Z_scope.

(** * Part I: the model *)

(** ** Programs over atomic actions *)

(** Pointers are addresses in [N], [0] is [nullptr].  Thread ids are
    numbers in [nat]; a default-constructed [std::thread::id] (no
    thread) is [None]. *)

(** What undefined behaviour a step ran into. *)
Inductive ub : Type :=
| BadDeref (p : N)      (* read or write through a pointer that is null or not allocated *)
| BadDelete (p : N)     (* delete of a non-null pointer that is not allocated *)
| BadOptional (p : N).  (* operator* on an empty std::optional *)

Inductive outcome (A : Type) : Type :=
| Done (a : A)          (* the call returned *)
| Aborted                 (* std::abort() *)
| Fault (u : ub)        (* undefined behaviour *)
| OutOfFuel.              (* the fuel of a retry loop ran out *)
Arguments Done {A} a.
Arguments Aborted {A}.
Arguments Fault {A} u.
Arguments OutOfFuel {A}.

Inductive prog (E : Type → Type) (A : Type) : Type :=
| Ret (a : A)
| Vis {X : Type} (e : E X) (k : X → prog E A)
| Spin.
Arguments Ret {E A} a.
Arguments Vis {E A X} e k.
Arguments Spin {E A}.

Fixpoint prog_bind {E A B} (f : A → prog E B) (p : prog E A) : prog E B :=
  match p with
  | Ret a => f a
  | Vis e k => Vis e (λ x, prog_bind f (k x))
  | Spin => Spin
  end.

#[global] Instance prog_mret {E} : MRet (prog E) := λ A a, Ret a.
#[global] Instance prog_mbind {E} : MBind (prog E) := λ A B f p, prog_bind f p.

(** One atomic action. *)
Definition call {E X} (e : E X) : prog E X := Vis e Ret.

(** A completed action and its result, for traces. *)
Inductive event (E : Type → Type) : Type :=
| Ev {X : Type} (e : E X) (x : X).
Arguments Ev {E X} e x.

Section Semantics.
Context {E : Type → Type} {S : Type}.
Variable handle : nat → ∀ X, E X → S → outcome (X * S).

(** Thread [t] runs [p] alone, from state [s]. *)
Fixpoint run {A} (t : nat) (p : prog E A) (s : S) : outcome (A * S) :=
  match p with
  | Ret a => Done (a, s)
  | Spin => OutOfFuel
  | Vis e k =>
      match handle t _ e s with
      | Done (x, s') => run t (k x) s'
      | Aborted => Aborted
      | Fault u => Fault u
      | OutOfFuel => OutOfFuel
      end
  end.

(** The actions completed in that run and their results, in order. *)
Fixpoint trace {A} (t : nat) (p : prog E A) (s : S) : list (event E) :=
  match p with
  | Vis e k =>
      match handle t _ e s with
      | Done (x, s') => Ev e x :: trace t (k x) s'
      | _ => []
      end
  | _ => []
  end.

(** Threads are numbered by their position in the pool.  Each entry of
    the schedule lets one thread perform its next action; a thread
    that has returned does nothing. *)
Fixpoint interleave {A} (sched : list nat) (pool : list (prog E A)) (s : S)
  : outcome (list (prog E A) * S) :=
  match sched with
  | [] => Done (pool, s)
  | t :: sched' =>
      match pool !! t with
      | Some (Vis e k) =>
          match handle t _ e s with
          | Done (x, s') => interleave sched' (<[t := k x]> pool) s'
          | Aborted => Aborted
          | Fault u => Fault u
          | OutOfFuel => OutOfFuel
          end
      | Some Spin => OutOfFuel
      | _ => interleave sched' pool s
      end
  end.
End Semantics.

(** ** The heap *)

Section Heap.
Context {V : Type}.

Definition max_key (h : gmap N V) : N :=
  foldr N.max 0%N (fst <$> map_to_list h).

(** An address [new] may return: non-null and not allocated. *)
Definition next_free (h : gmap N V) : N := N.succ (max_key h).

(** [new] returns the candidate address of the allocator when it is
    free, and a free address of its own otherwise. *)
Definition pick_addr (cand : N) (h : gmap N V) : N :=
  if decide (cand ≠ 0%N ∧ h !! cand = None) then cand else next_free h.

(** [delete p]: a no-op on [nullptr], undefined on an address that is
    not allocated. *)
Definition delete_node (p : N) (h : gmap N V) : outcome (gmap N V) :=
  if decide (p = 0%N) then Done h
  else match h !! p with
       | Some _ => Done (delete p h)
       | None => Fault (BadDelete p)
       end.

Fixpoint delete_nodes (ps : list N) (h : gmap N V) : outcome (gmap N V) :=
  match ps with
  | [] => Done h
  | p :: ps' =>
      match delete_node p h with
      | Done h' => delete_nodes ps' h'
      | Aborted => Aborted
      | Fault u => Fault u
      | OutOfFuel => OutOfFuel
      end
  end.
End Heap.

(** ** hazard_pointers.h *)

Module hp.

Definition MAX_THREADS : nat := 64.
Definition HAZARD_SLOTS_PER_THREAD : nat := 2.
Definition MAX_HAZARD_POINTERS : nat := MAX_THREADS * HAZARD_SLOTS_PER_THREAD.

Record HazardRecord : Type := mkRecord {
  owner : option nat;
  ptr : N
}.

(** [g_hazard_records] when the process starts. *)
Definition g_hazard_records : list HazardRecord :=
  replicate MAX_HAZARD_POINTERS (mkRecord None 0%N).

(** Index of the first record that satisfies [f]. *)
Fixpoint find_record (f : HazardRecord → bool) (recs : list HazardRecord)
  : option nat :=
  match recs with
  | [] => None
  | r :: recs' => if f r then Some 0%nat else S <$> find_record f recs'
  end.

Definition owned_by (me : nat) (r : HazardRecord) : bool :=
  bool_decide (owner r = Some me).
Definition is_free (r : HazardRecord) : bool :=
  bool_decide (owner r = None).

(** [acquire_hazard_record]: the record this thread owns, else the
    first free one, which it claims; [None] stands for the abort. *)
Definition acquire_hazard_record (me : nat) (recs : list HazardRecord)
  : option (nat * list HazardRecord) :=
  match find_record (owned_by me) recs with
  | Some i => Some (i, recs)
  | None =>
      match find_record is_free recs with
      | Some i => Some (i, alter (λ r, mkRecord (Some me) (ptr r)) i recs)
      | None => None
      end
  end.

(** [HazardPointerOwner::set] and [clear] on record [i]. *)
Definition set (i : nat) (p : N) (recs : list HazardRecord) : list HazardRecord :=
  alter (λ r, mkRecord (owner r) p) i recs.
Definition clear (i : nat) (recs : list HazardRecord) : list HazardRecord :=
  set i 0%N recs.

Definition collect_hazard_pointers (recs : list HazardRecord) : list N :=
  filter (λ p, p ≠ 0%N) (ptr <$> recs).

Definition threshold_ : nat := 64.

Definition is_hazard (hp_values : list N) (p : N) : bool :=
  bool_decide (p ∈ hp_values).

(** [RetiredList::scan]: the nodes kept and the nodes handed to the
    deleter, both in list order. *)
Definition scan (force_all : bool) (recs : list HazardRecord) (retired_ : list N)
  : list N * list N :=
  let hp_values := collect_hazard_pointers recs in
  let keep := λ p, negb force_all && is_hazard hp_values p in
  (filter (λ p, keep p = true) retired_, filter (λ p, keep p = false) retired_).

(** [RetiredList::retire]: the new retired list, whether [scan] ran,
    and the nodes handed to the deleter. *)
Definition retire (node : N) (recs : list HazardRecord) (retired_ : list N)
  : list N * bool * list N :=
  let retired' := retired_ ++ [node] in
  if decide (threshold_ ≤ length retired')%nat
  then let '(kept, deleted) := scan false recs retired' in (kept, true, deleted)
  else (retired', false, []).

Definition force_reclaim (recs : list HazardRecord) (retired_ : list N)
  : list N * list N :=
  scan true recs retired_.

End hp.

(** ** treiber_stack.h *)

Module TreiberStack.

Record Node : Type := mkNode { value : Z; next : N }.

Record state : Type := mkState {
  heap : gmap N Node;
  head_ : N;
  recs : list hp.HazardRecord;       (* hp::g_hazard_records *)
  retired : gmap nat (list N);       (* hp::retired_list<Node>() of each thread *)
  allocs : list N;                   (* addresses the allocator proposes *)
  spur : list bool                   (* whether the next weak CAS fails spuriously *)
}.

Definition init (allocs : list N) (spur : list bool) : state :=
  mkState ∅ 0%N hp.g_hazard_records ∅ allocs spur.

Inductive Act : Type → Type :=
| New (v : Z) : Act N                          (* new Node(value) *)
| SetNext (n p : N) : Act unit                 (* n->next = p *)
| LoadHead : Act N                             (* head_.load() *)
| CasHeadWeak (expected desired : N) : Act (bool * N)
                                               (* head_.compare_exchange_weak *)
| HpAcquire : Act nat                          (* HazardPointerOwner() *)
| HpSet (i : nat) (p : N) : Act unit           (* hpo.set(p) *)
| HpClear (i : nat) : Act unit                 (* hpo.clear() *)
| ReadNext (p : N) : Act N                     (* p->next *)
| ReadValue (p : N) : Act Z                    (* p->value *)
| Retire (p : N) : Act unit.                   (* retired_list<Node>().retire(p) *)

Definition handle (t : nat) (X : Type) (e : Act X) (s : state) : outcome (X * state) :=
  match e in Act X return outcome (X * state) with
  | New v =>
      let n := pick_addr (hd 0%N (allocs s)) (heap s) in
      Done (n, mkState (<[n := mkNode v 0%N]> (heap s)) (head_ s) (recs s)
                       (retired s) (tl (allocs s)) (spur s))
  | SetNext n p =>
      match heap s !! n with
      | Some nd =>
          Done (tt, mkState (<[n := mkNode (value nd) p]> (heap s)) (head_ s)
                            (recs s) (retired s) (allocs s) (spur s))
      | None => Fault (BadDeref n)
      end
  | LoadHead => Done (head_ s, s)
  | CasHeadWeak expected desired =>
      if decide (head_ s = expected) then
        match spur s with
        | true :: sp =>
            Done ((false, head_ s),
                  mkState (heap s) (head_ s) (recs s) (retired s) (allocs s) sp)
        | _ =>
            Done ((true, expected),
                  mkState (heap s) desired (recs s) (retired s) (allocs s)
                          (tl (spur s)))
        end
      else Done ((false, head_ s), s)
  | HpAcquire =>
      match hp.acquire_hazard_record t (recs s) with
      | Some (i, recs') =>
          Done (i, mkState (heap s) (head_ s) recs' (retired s) (allocs s) (spur s))
      | None => Aborted
      end
  | HpSet i p =>
      Done (tt, mkState (heap s) (head_ s) (hp.set i p (recs s)) (retired s)
                        (allocs s) (spur s))
  | HpClear i =>
      Done (tt, mkState (heap s) (head_ s) (hp.clear i (recs s)) (retired s)
                        (allocs s) (spur s))
  | ReadNext p =>
      match heap s !! p with
      | Some nd => Done (next nd, s)
      | None => Fault (BadDeref p)
      end
  | ReadValue p =>
      match heap s !! p with
      | Some nd => Done (value nd, s)
      | None => Fault (BadDeref p)
      end
  | Retire p =>
      let '(kept, _, deleted) :=
        hp.retire p (recs s) (default [] (retired s !! t)) in
      match delete_nodes deleted (heap s) with
      | Done h' =>
          Done (tt, mkState h' (head_ s) (recs s) (<[t := kept]> (retired s))
                            (allocs s) (spur s))
      | Aborted => Aborted
      | Fault u => Fault u
      | OutOfFuel => OutOfFuel
      end
  end.

(** The [do ... while] loop of [push]; [old_head] is refreshed by the
    failed CAS. *)
Fixpoint push_loop (fuel : nat) (new_node old_head : N) : prog Act unit :=
  match fuel with
  | O => Spin
  | S fuel' =>
      _ ← call (SetNext new_node old_head);
      '(ok, cur) ← call (CasHeadWeak old_head new_node);
      if ok : bool then Ret tt else push_loop fuel' new_node cur
  end.

Definition push (fuel : nat) (v : Z) : prog Act unit :=
  new_node ← call (New v);
  _ ← call (SetNext new_node 0%N);
  old_head ← call LoadHead;
  push_loop fuel new_node old_head.

(** [pop] returns the result and the out-parameter; the destructor of
    the [HazardPointerOwner] clears the record once more on return. *)
Fixpoint pop_loop (fuel : nat) (hpo : nat) (out : Z) : prog Act (bool * Z) :=
  match fuel with
  | O => Spin
  | S fuel' =>
      old_head ← call LoadHead;
      if decide (old_head = 0%N) then
        _ ← call (HpClear hpo);
        _ ← call (HpClear hpo);
        Ret (false, out)
      else
        _ ← call (HpSet hpo old_head);
        h ← call LoadHead;
        if decide (old_head ≠ h) then pop_loop fuel' hpo out
        else
          nxt ← call (ReadNext old_head);
          '(ok, _) ← call (CasHeadWeak old_head nxt);
          if ok : bool then
            v ← call (ReadValue old_head);
            _ ← call (HpClear hpo);
            _ ← call (Retire old_head);
            _ ← call (HpClear hpo);
            Ret (true, v)
          else pop_loop fuel' hpo out
  end.

Definition pop (fuel : nat) (out : Z) : prog Act (bool * Z) :=
  hpo ← call HpAcquire;
  pop_loop fuel hpo out.

Definition empty : prog Act bool :=
  h ← call LoadHead;
  Ret (bool_decide (h = 0%N)).

End TreiberStack.

(** ** ms_queue.h *)

Module MSQueue.

Record Node : Type := mkNode { next : N; value : option Z }.

Record state : Type := mkState {
  heap : gmap N Node;
  head_ : N;
  tail_ : N;
  recs : list hp.HazardRecord;
  retired : gmap nat (list N);
  allocs : list N;
  spur : list bool
}.

Inductive Act : Type → Type :=
| NewDummy : Act N                             (* new Node() *)
| New (v : Z) : Act N                          (* new Node(value) *)
| StoreHead (p : N) : Act unit                 (* head_.store(p) *)
| StoreTail (p : N) : Act unit                 (* tail_.store(p) *)
| LoadHead : Act N                             (* head_.load() *)
| LoadTail : Act N                             (* tail_.load() *)
| LoadNext (p : N) : Act N                     (* p->next.load() *)
| CasNextWeak (p expected desired : N) : Act (bool * N)
                                               (* p->next.compare_exchange_weak *)
| CasTail (expected desired : N) : Act (bool * N)
                                               (* tail_.compare_exchange_strong *)
| CasHead (expected desired : N) : Act (bool * N)
                                               (* head_.compare_exchange_strong *)
| HpAcquire : Act nat                          (* HazardPointerOwner() *)
| HpSet (i : nat) (p : N) : Act unit           (* hp_head.set(p) *)
| HpClear (i : nat) : Act unit                 (* hp_head.clear() *)
| ReadValue (p : N) : Act Z                    (* *(p->value) *)
| Retire (p : N) : Act unit.                   (* retired_list<Node>().retire(p) *)

Definition set_heap (h : gmap N Node) (s : state) : state :=
  mkState h (head_ s) (tail_ s) (recs s) (retired s) (allocs s) (spur s).
Definition set_head (p : N) (s : state) : state :=
  mkState (heap s) p (tail_ s) (recs s) (retired s) (allocs s) (spur s).
Definition set_tail (p : N) (s : state) : state :=
  mkState (heap s) (head_ s) p (recs s) (retired s) (allocs s) (spur s).
Definition set_recs (r : list hp.HazardRecord) (s : state) : state :=
  mkState (heap s) (head_ s) (tail_ s) r (retired s) (allocs s) (spur s).
Definition set_spur (sp : list bool) (s : state) : state :=
  mkState (heap s) (head_ s) (tail_ s) (recs s) (retired s) (allocs s) sp.

Definition alloc (nd : Node) (s : state) : N * state :=
  let n := pick_addr (hd 0%N (allocs s)) (heap s) in
  (n, mkState (<[n := nd]> (heap s)) (head_ s) (tail_ s) (recs s) (retired s)
              (tl (allocs s)) (spur s)).

Definition handle (t : nat) (X : Type) (e : Act X) (s : state) : outcome (X * state) :=
  match e in Act X return outcome (X * state) with
  | NewDummy => Done (alloc (mkNode 0%N None) s)
  | New v => Done (alloc (mkNode 0%N (Some v)) s)
  | StoreHead p => Done (tt, set_head p s)
  | StoreTail p => Done (tt, set_tail p s)
  | LoadHead => Done (head_ s, s)
  | LoadTail => Done (tail_ s, s)
  | LoadNext p =>
      match heap s !! p with
      | Some nd => Done (next nd, s)
      | None => Fault (BadDeref p)
      end
  | CasNextWeak p expected desired =>
      match heap s !! p with
      | Some nd =>
          if decide (next nd = expected) then
            match spur s with
            | true :: sp => Done ((false, next nd), set_spur sp s)
            | _ =>
                Done ((true, expected),
                      set_spur (tl (spur s))
                        (set_heap (<[p := mkNode desired (value nd)]> (heap s)) s))
            end
          else Done ((false, next nd), s)
      | None => Fault (BadDeref p)
      end
  | CasTail expected desired =>
      if decide (tail_ s = expected) then Done ((true, expected), set_tail desired s)
      else Done ((false, tail_ s), s)
  | CasHead expected desired =>
      if decide (head_ s = expected) then Done ((true, expected), set_head desired s)
      else Done ((false, head_ s), s)
  | HpAcquire =>
      match hp.acquire_hazard_record t (recs s) with
      | Some (i, recs') => Done (i, set_recs recs' s)
      | None => Aborted
      end
  | HpSet i p => Done (tt, set_recs (hp.set i p (recs s)) s)
  | HpClear i => Done (tt, set_recs (hp.clear i (recs s)) s)
  | ReadValue p =>
      match heap s !! p with
      | Some nd =>
          match value nd with
          | Some v => Done (v, s)
          | None => Fault (BadOptional p)
          end
      | None => Fault (BadDeref p)
      end
  | Retire p =>
      let '(kept, _, deleted) :=
        hp.retire p (recs s) (default [] (retired s !! t)) in
      match delete_nodes deleted (heap s) with
      | Done h' =>
          Done (tt, mkState h' (head_ s) (tail_ s) (recs s)
                            (<[t := kept]> (retired s)) (allocs s) (spur s))
      | Aborted => Aborted
      | Fault u => Fault u
      | OutOfFuel => OutOfFuel
      end
  end.

(** The constructor: one dummy node, [head_] and [tail_] on it. *)
Definition ctor : prog Act unit :=
  dummy ← call NewDummy;
  _ ← call (StoreHead dummy);
  call (StoreTail dummy).

(** Memory before the constructor runs. *)
Definition raw (allocs : list N) (spur : list bool) : state :=
  mkState ∅ 0%N 0%N hp.g_hazard_records ∅ allocs spur.

(** A freshly constructed queue. *)
Definition init (allocs : list N) (spur : list bool) : state :=
  match run handle 0%nat ctor (raw allocs spur) with
  | Done (_, s) => s
  | _ => raw allocs spur
  end.

Fixpoint enqueue_loop (fuel : nat) (new_node : N) : prog Act unit :=
  match fuel with
  | O => Spin
  | S fuel' =>
      tail ← call LoadTail;
      nxt ← call (LoadNext tail);
      tail' ← call LoadTail;
      if decide (tail = tail') then
        if decide (nxt = 0%N) then
          '(ok, _) ← call (CasNextWeak tail nxt new_node);
          if ok : bool then
            _ ← call (CasTail tail new_node);
            Ret tt
          else enqueue_loop fuel' new_node
        else
          _ ← call (CasTail tail nxt);
          enqueue_loop fuel' new_node
      else enqueue_loop fuel' new_node
  end.

Definition enqueue (fuel : nat) (v : Z) : prog Act unit :=
  new_node ← call (New v);
  enqueue_loop fuel new_node.

(** [dequeue] returns the result and the out-parameter; the
    destructor of [hp_head] clears the record on every return. *)
Fixpoint dequeue_loop (fuel : nat) (hp_head : nat) (out : Z) : prog Act (bool * Z) :=
  match fuel with
  | O => Spin
  | S fuel' =>
      head ← call LoadHead;
      _ ← call (HpSet hp_head head);
      tail ← call LoadTail;
      nxt ← call (LoadNext head);
      head' ← call LoadHead;
      if decide (head ≠ head') then dequeue_loop fuel' hp_head out
      else if decide (nxt = 0%N) then
        _ ← call (HpClear hp_head);
        Ret (false, out)
      else if decide (head = tail) then
        _ ← call (CasTail tail nxt);
        dequeue_loop fuel' hp_head out
      else
        '(ok, _) ← call (CasHead head nxt);
        if ok : bool then
          v ← call (ReadValue nxt);
          _ ← call (HpClear hp_head);
          _ ← call (Retire head);
          _ ← call (HpClear hp_head);
          Ret (true, v)
        else dequeue_loop fuel' hp_head out
  end.

Definition dequeue (fuel : nat) (out : Z) : prog Act (bool * Z) :=
  hp_head ← call HpAcquire;
  dequeue_loop fuel hp_head out.

Definition empty : prog Act bool :=
  head ← call LoadHead;
  nxt ← call (LoadNext head);
  Ret (bool_decide (nxt = 0%N)).

End MSQueue.

(** ** elimination_stack.h *)

Module EliminationStack.

Record Node : Type := mkNode { value : Z; next : N }.

Definition ELIM_ARRAY_SIZE : nat := 16.
Definition ELIM_TRIES : nat := 4.
Definition CAS_THRESHOLD : nat := 4.
Definition SPIN_ITERS : nat := 10.

Record state : Type := mkState {
  heap : gmap N Node;
  head_ : N;
  arena_ : list N;
  allocs : list N;
  spur : list bool;
  rng_ : list nat                    (* what the generator will draw *)
}.

(** A freshly constructed stack: every arena slot holds [nullptr]. *)
Definition init (allocs : list N) (spur : list bool) (rng : list nat) : state :=
  mkState ∅ 0%N (replicate ELIM_ARRAY_SIZE 0%N) allocs spur rng.

Inductive Act : Type → Type :=
| New (v : Z) : Act N                          (* new Node(v) *)
| SetNext (n p : N) : Act unit                 (* n->next = p *)
| LoadHead : Act N                             (* head_.load() *)
| CasHeadWeak (expected desired : N) : Act (bool * N)
                                               (* head_.compare_exchange_weak *)
| ReadNext (p : N) : Act N                     (* p->next *)
| ReadValue (p : N) : Act Z                    (* p->value *)
| Delete (p : N) : Act unit                    (* delete p *)
| RandomSlot : Act nat                         (* random_slot() *)
| ArenaCas (idx : nat) (expected desired : N) : Act (bool * N)
                                               (* arena_[idx].compare_exchange_strong *)
| ArenaLoad (idx : nat) : Act N                (* arena_[idx].load() *)
| ArenaExchange (idx : nat) (desired : N) : Act N
                                               (* arena_[idx].exchange(desired) *)
| Yield : Act unit.                            (* std::this_thread::yield() *)

Definition set_heap (h : gmap N Node) (s : state) : state :=
  mkState h (head_ s) (arena_ s) (allocs s) (spur s) (rng_ s).
Definition set_arena (a : list N) (s : state) : state :=
  mkState (heap s) (head_ s) a (allocs s) (spur s) (rng_ s).

Definition handle (t : nat) (X : Type) (e : Act X) (s : state) : outcome (X * state) :=
  match e in Act X return outcome (X * state) with
  | New v =>
      let n := pick_addr (hd 0%N (allocs s)) (heap s) in
      Done (n, mkState (<[n := mkNode v 0%N]> (heap s)) (head_ s) (arena_ s)
                       (tl (allocs s)) (spur s) (rng_ s))
  | SetNext n p =>
      match heap s !! n with
      | Some nd => Done (tt, set_heap (<[n := mkNode (value nd) p]> (heap s)) s)
      | None => Fault (BadDeref n)
      end
  | LoadHead => Done (head_ s, s)
  | CasHeadWeak expected desired =>
      if decide (head_ s = expected) then
        match spur s with
        | true :: sp =>
            Done ((false, head_ s),
                  mkState (heap s) (head_ s) (arena_ s) (allocs s) sp (rng_ s))
        | _ =>
            Done ((true, expected),
                  mkState (heap s) desired (arena_ s) (allocs s) (tl (spur s))
                          (rng_ s))
        end
      else Done ((false, head_ s), s)
  | ReadNext p =>
      match heap s !! p with
      | Some nd => Done (next nd, s)
      | None => Fault (BadDeref p)
      end
  | ReadValue p =>
      match heap s !! p with
      | Some nd => Done (value nd, s)
      | None => Fault (BadDeref p)
      end
  | Delete p =>
      match delete_node p (heap s) with
      | Done h' => Done (tt, set_heap h' s)
      | Aborted => Aborted
      | Fault u => Fault u
      | OutOfFuel => OutOfFuel
      end
  | RandomSlot =>
      Done ((hd 0%nat (rng_ s) `mod` ELIM_ARRAY_SIZE)%nat,
            mkState (heap s) (head_ s) (arena_ s) (allocs s) (spur s) (tl (rng_ s)))
  | ArenaCas idx expected desired =>
      match arena_ s !! idx with
      | Some cur =>
          if decide (cur = expected)
          then Done ((true, expected), set_arena (<[idx := desired]> (arena_ s)) s)
          else Done ((false, cur), s)
      | None => Fault (BadDeref 0%N)
      end
  | ArenaLoad idx =>
      match arena_ s !! idx with
      | Some cur => Done (cur, s)
      | None => Fault (BadDeref 0%N)
      end
  | ArenaExchange idx desired =>
      match arena_ s !! idx with
      | Some cur => Done (cur, set_arena (<[idx := desired]> (arena_ s)) s)
      | None => Fault (BadDeref 0%N)
      end
  | Yield => Done (tt, s)
  end.

(** The wait loop of [try_elim_push]: [true] when the slot no longer
    holds [n]. *)
Fixpoint spin_wait (iters : nat) (idx : nat) (n : N) : prog Act bool :=
  match iters with
  | O => Ret false
  | S iters' =>
      cur ← call (ArenaLoad idx);
      if decide (cur ≠ n) then Ret true
      else _ ← call Yield; spin_wait iters' idx n
  end.

(** [try_elim_push(n)]: the result and the new value of [n]. *)
Fixpoint try_elim_push_from (attempts : nat) (n : N) : prog Act (bool * N) :=
  match attempts with
  | O => Ret (false, n)
  | S attempts' =>
      idx ← call RandomSlot;
      '(offered, _) ← call (ArenaCas idx 0%N n);
      if offered : bool then
        taken ← spin_wait SPIN_ITERS idx n;
        if taken : bool then Ret (true, 0%N)
        else
          '(reclaimed, _) ← call (ArenaCas idx n 0%N);
          if reclaimed : bool then Ret (false, n) else Ret (true, 0%N)
      else try_elim_push_from attempts' n
  end.

Definition try_elim_push (n : N) : prog Act (bool * N) :=
  try_elim_push_from ELIM_TRIES n.

(** [try_elim_pop(out)]: the result and the out-parameter. *)
Fixpoint try_elim_pop_from (attempts : nat) (out : Z) : prog Act (bool * Z) :=
  match attempts with
  | O => Ret (false, out)
  | S attempts' =>
      idx ← call RandomSlot;
      n ← call (ArenaExchange idx 0%N);
      if decide (n ≠ 0%N) then
        v ← call (ReadValue n);
        _ ← call (Delete n);
        Ret (true, v)
      else try_elim_pop_from attempts' out
  end.

Definition try_elim_pop (out : Z) : prog Act (bool * Z) :=
  try_elim_pop_from ELIM_TRIES out.

(** The loop of [empty] over the arena slots. *)
Fixpoint empty_slots (idxs : list nat) : prog Act bool :=
  match idxs with
  | [] => Ret true
  | idx :: idxs' =>
      p ← call (ArenaLoad idx);
      if decide (p ≠ 0%N) then Ret false else empty_slots idxs'
  end.

Definition empty : prog Act bool :=
  h ← call LoadHead;
  if decide (h ≠ 0%N) then Ret false
  else empty_slots (seq 0 ELIM_ARRAY_SIZE).

Fixpoint push_loop (fuel : nat) (n : N) (cas_failures : nat) : prog Act unit :=
  match fuel with
  | O => Spin
  | S fuel' =>
      old_head ← call LoadHead;
      _ ← call (SetNext n old_head);
      '(ok, _) ← call (CasHeadWeak old_head n);
      if ok : bool then Ret tt
      else if decide (CAS_THRESHOLD ≤ S cas_failures)%nat then
        '(eliminated, n') ← try_elim_push n;
        if eliminated : bool then Ret tt else push_loop fuel' n' 0%nat
      else push_loop fuel' n (S cas_failures)
  end.

Definition push (fuel : nat) (v : Z) : prog Act unit :=
  n ← call (New v);
  push_loop fuel n 0%nat.

Fixpoint pop_loop (fuel : nat) (out : Z) (cas_failures : nat) : prog Act (bool * Z) :=
  match fuel with
  | O => Spin
  | S fuel' =>
      old_head ← call LoadHead;
      if decide (old_head = 0%N) then
        '(ok, out') ← try_elim_pop out;
        if ok : bool then Ret (true, out') else Ret (false, out')
      else
        nxt ← call (ReadNext old_head);
        '(ok, _) ← call (CasHeadWeak old_head nxt);
        if ok : bool then
          v ← call (ReadValue old_head);
          _ ← call (Delete old_head);
          Ret (true, v)
        else if decide (CAS_THRESHOLD ≤ S cas_failures)%nat then
          '(ok', out') ← try_elim_pop out;
          if ok' : bool then Ret (true, out') else pop_loop fuel' out' 0%nat
        else pop_loop fuel' out (S cas_failures)
  end.

Definition pop (fuel : nat) (out : Z) : prog Act (bool * Z) :=
  pop_loop fuel out 0%nat.

End EliminationStack.

(** ** sgl_stack.h and sgl_queue.h

    Every member function holds the mutex for its whole body, so each
    call is one atomic step on [data_]. *)

Module SGLStack.

(** [data_]: a [std::vector], back of the vector at the end of the list. *)
Definition state : Type := list Z.

Definition init : state := [].

Definition push (value : Z) (data_ : state) : state := data_ ++ [value].

(** [pop(out)]: result, out-parameter, [data_]. *)
Definition pop (out : Z) (data_ : state) : bool * Z * state :=
  match last data_ with
  | None => (false, out, data_)
  | Some back => (true, back, removelast data_)
  end.

Definition empty (data_ : state) : bool := bool_decide (data_ = []).
Definition size (data_ : state) : nat := length data_.

End SGLStack.

Module SGLQueue.

(** [data_]: a [std::deque], front at the head of the list. *)
Definition state : Type := list Z.

Definition init : state := [].

Definition enqueue (value : Z) (data_ : state) : state := data_ ++ [value].

(** [dequeue(out)]: result, out-parameter, [data_]. *)
Definition dequeue (out : Z) (data_ : state) : bool * Z * state :=
  match data_ with
  | [] => (false, out, data_)
  | front :: rest => (true, front, rest)
  end.

Definition empty (data_ : state) : bool := bool_decide (data_ = []).
Definition size (data_ : state) : nat := length data_.

End SGLQueue.

(** ** flat_combining_stack.h

    [tls_req_] is a static thread-local member: each thread has one
    pointer for the class, whichever object it calls.  A state holds
    every [FlatCombiningStack<T>] object of the process. *)

Module FlatCombiningStack.

Inductive Op : Type := NONE | PUSH | POP.

Record Request : Type := mkRequest { op : Op; value : Z; success : bool }.

(** One [FlatCombiningStack] object. *)
Record object : Type := mkObject {
  data_ : list Z;                    (* std::vector, back at the end *)
  requests_ : list N                 (* std::list<Request*> *)
}.

Record state : Type := mkState {
  objs : gmap nat object;            (* the objects, by identity *)
  reqs : gmap N Request;             (* the heap of Request records *)
  tls_req_ : gmap nat N;             (* per thread; absent is nullptr *)
  allocs : list N
}.

Definition init (allocs : list N) : state := mkState ∅ ∅ ∅ allocs.

Inductive Act : Type → Type :=
| Construct : Act nat                          (* FlatCombiningStack() *)
| LoadTls : Act N                              (* tls_req_ *)
| NewRequest : Act N                           (* new Request() *)
| Register (this : nat) (r : N) : Act unit     (* lock; requests_.push_back(r) *)
| StoreTls (r : N) : Act unit                  (* tls_req_ = r *)
| WriteValue (r : N) (v : Z) : Act unit        (* r.value = v *)
| WriteSuccess (r : N) (b : bool) : Act unit   (* r.success = b *)
| StoreOp (r : N) (o : Op) : Act unit          (* r.op.store(o) *)
| Combine (this : nat) : Act unit              (* combine(), under the mutex *)
| ReadSuccess (r : N) : Act bool               (* r.success *)
| ReadValue (r : N) : Act Z                    (* r.value *)
| Empty (this : nat) : Act bool.               (* lock; data_.empty() *)

Definition set_reqs (rq : gmap N Request) (s : state) : state :=
  mkState (objs s) rq (tls_req_ s) (allocs s).
Definition set_objs (o : gmap nat object) (s : state) : state :=
  mkState o (reqs s) (tls_req_ s) (allocs s).

(** The body of the [for] loop of [combine] on one record. *)
Definition combine_one (r : N) (acc : outcome (list Z * gmap N Request))
  : outcome (list Z * gmap N Request) :=
  match acc with
  | Done (data, rq) =>
      match rq !! r with
      | None => Fault (BadDeref r)
      | Some rec =>
          match op rec with
          | PUSH =>
              Done (data ++ [value rec],
                    <[r := mkRequest NONE (value rec) (success rec)]> rq)
          | POP =>
              match last data with
              | Some back =>
                  Done (removelast data, <[r := mkRequest NONE back true]> rq)
              | None =>
                  Done (data, <[r := mkRequest NONE (value rec) false]> rq)
              end
          | NONE => Done (data, rq)
          end
      end
  | Aborted => Aborted
  | Fault u => Fault u
  | OutOfFuel => OutOfFuel
  end.

(** [combine]: the records of [requests_] in list order. *)
Definition combine (requests : list N) (data : list Z) (rq : gmap N Request)
  : outcome (list Z * gmap N Request) :=
  foldl (λ acc r, combine_one r acc) (Done (data, rq)) requests.

Definition fresh_obj (o : gmap nat object) : nat :=
  S (foldr max 0%nat (fst <$> map_to_list o)).

Definition handle (t : nat) (X : Type) (e : Act X) (s : state) : outcome (X * state) :=
  match e in Act X return outcome (X * state) with
  | Construct =>
      let this := fresh_obj (objs s) in
      Done (this, set_objs (<[this := mkObject [] []]> (objs s)) s)
  | LoadTls => Done (default 0%N (tls_req_ s !! t), s)
  | NewRequest =>
      let r := pick_addr (hd 0%N (allocs s)) (reqs s) in
      Done (r, mkState (objs s) (<[r := mkRequest NONE 0 false]> (reqs s))
                       (tls_req_ s) (tl (allocs s)))
  | Register this r =>
      match objs s !! this with
      | Some o =>
          Done (tt, set_objs (<[this := mkObject (data_ o) (requests_ o ++ [r])]>
                                (objs s)) s)
      | None => Fault (BadDeref 0%N)
      end
  | StoreTls r =>
      Done (tt, mkState (objs s) (reqs s) (<[t := r]> (tls_req_ s)) (allocs s))
  | WriteValue r v =>
      match reqs s !! r with
      | Some rec =>
          Done (tt, set_reqs (<[r := mkRequest (op rec) v (success rec)]> (reqs s)) s)
      | None => Fault (BadDeref r)
      end
  | WriteSuccess r b =>
      match reqs s !! r with
      | Some rec =>
          Done (tt, set_reqs (<[r := mkRequest (op rec) (value rec) b]> (reqs s)) s)
      | None => Fault (BadDeref r)
      end
  | StoreOp r o =>
      match reqs s !! r with
      | Some rec =>
          Done (tt, set_reqs (<[r := mkRequest o (value rec) (success rec)]> (reqs s)) s)
      | None => Fault (BadDeref r)
      end
  | Combine this =>
      match objs s !! this with
      | Some o =>
          match combine (requests_ o) (data_ o) (reqs s) with
          | Done (data, rq) =>
              Done (tt, mkState (<[this := mkObject data (requests_ o)]> (objs s))
                                rq (tls_req_ s) (allocs s))
          | Aborted => Aborted
          | Fault u => Fault u
          | OutOfFuel => OutOfFuel
          end
      | None => Fault (BadDeref 0%N)
      end
  | ReadSuccess r =>
      match reqs s !! r with
      | Some rec => Done (success rec, s)
      | None => Fault (BadDeref r)
      end
  | ReadValue r =>
      match reqs s !! r with
      | Some rec => Done (value rec, s)
      | None => Fault (BadDeref r)
      end
  | Empty this =>
      match objs s !! this with
      | Some o => Done (bool_decide (data_ o = []), s)
      | None => Fault (BadDeref 0%N)
      end
  end.

Definition get_request (this : nat) : prog Act N :=
  cur ← call LoadTls;
  _ ← (if decide (cur = 0%N) then
         r ← call NewRequest;
         _ ← call (Register this r);
         call (StoreTls r)
       else Ret tt);
  call LoadTls.

Definition push (this : nat) (v : Z) : prog Act unit :=
  r ← get_request this;
  _ ← call (WriteValue r v);
  _ ← call (WriteSuccess r true);
  _ ← call (StoreOp r PUSH);
  call (Combine this).

(** [pop(out)]: the result and the out-parameter. *)
Definition pop (this : nat) (out : Z) : prog Act (bool * Z) :=
  r ← get_request this;
  _ ← call (WriteSuccess r false);
  _ ← call (StoreOp r POP);
  _ ← call (Combine this);
  ok ← call (ReadSuccess r);
  if ok : bool then
    v ← call (ReadValue r);
    ok' ← call (ReadSuccess r);
    Ret (ok', v)
  else
    ok' ← call (ReadSuccess r);
    Ret (ok', out).

Definition empty (this : nat) : prog Act bool := call (Empty this).

End FlatCombiningStack.

(** ** flat_combining_queue.h

    [tls_req_] is a static thread-local member: each thread has one
    pointer for the class, whichever object it calls.  A state holds
    every [FlatCombiningQueue<T>] object of the process. *)

Module FlatCombiningQueue.

Inductive Op : Type := NONE | ENQ | DEQ.

Record Request : Type := mkRequest { op : Op; value : Z; success : bool }.

(** One [FlatCombiningQueue] object. *)
Record object : Type := mkObject {
  data_ : list Z;                    (* std::deque, front at the head *)
  requests_ : list N                 (* std::list<Request*> *)
}.

Record state : Type := mkState {
  objs : gmap nat object;            (* the objects, by identity *)
  reqs : gmap N Request;             (* the heap of Request records *)
  tls_req_ : gmap nat N;             (* per thread; absent is nullptr *)
  allocs : list N
}.

Definition init (allocs : list N) : state := mkState ∅ ∅ ∅ allocs.

Inductive Act : Type → Type :=
| Construct : Act nat                          (* FlatCombiningQueue() *)
| LoadTls : Act N                              (* tls_req_ *)
| NewRequest : Act N                           (* new Request() *)
| Register (this : nat) (r : N) : Act unit     (* lock; requests_.push_back(r) *)
| StoreTls (r : N) : Act unit                  (* tls_req_ = r *)
| WriteValue (r : N) (v : Z) : Act unit        (* r.value = v *)
| WriteSuccess (r : N) (b : bool) : Act unit   (* r.success = b *)
| StoreOp (r : N) (o : Op) : Act unit          (* r.op.store(o) *)
| Combine (this : nat) : Act unit              (* combine(), under the mutex *)
| ReadSuccess (r : N) : Act bool               (* r.success *)
| ReadValue (r : N) : Act Z                    (* r.value *)
| Empty (this : nat) : Act bool.               (* lock; data_.empty() *)

Definition set_reqs (rq : gmap N Request) (s : state) : state :=
  mkState (objs s) rq (tls_req_ s) (allocs s).
Definition set_objs (o : gmap nat object) (s : state) : state :=
  mkState o (reqs s) (tls_req_ s) (allocs s).

(** The body of the [for] loop of [combine] on one record. *)
Definition combine_one (r : N) (acc : outcome (list Z * gmap N Request))
  : outcome (list Z * gmap N Request) :=
  match acc with
  | Done (data, rq) =>
      match rq !! r with
      | None => Fault (BadDeref r)
      | Some rec =>
          match op rec with
          | ENQ =>
              Done (data ++ [value rec],
                    <[r := mkRequest NONE (value rec) (success rec)]> rq)
          | DEQ =>
              match data with
              | front :: rest =>
                  Done (rest, <[r := mkRequest NONE front true]> rq)
              | [] =>
                  Done (data, <[r := mkRequest NONE (value rec) false]> rq)
              end
          | NONE => Done (data, rq)
          end
      end
  | Aborted => Aborted
  | Fault u => Fault u
  | OutOfFuel => OutOfFuel
  end.

(** [combine]: the records of [requests_] in list order. *)
Definition combine (requests : list N) (data : list Z) (rq : gmap N Request)
  : outcome (list Z * gmap N Request) :=
  foldl (λ acc r, combine_one r acc) (Done (data, rq)) requests.

Definition fresh_obj (o : gmap nat object) : nat :=
  S (foldr max 0%nat (fst <$> map_to_list o)).

Definition handle (t : nat) (X : Type) (e : Act X) (s : state) : outcome (X * state) :=
  match e in Act X return outcome (X * state) with
  | Construct =>
      let this := fresh_obj (objs s) in
      Done (this, set_objs (<[this := mkObject [] []]> (objs s)) s)
  | LoadTls => Done (default 0%N (tls_req_ s !! t), s)
  | NewRequest =>
      let r := pick_addr (hd 0%N (allocs s)) (reqs s) in
      Done (r, mkState (objs s) (<[r := mkRequest NONE 0 false]> (reqs s))
                       (tls_req_ s) (tl (allocs s)))
  | Register this r =>
      match objs s !! this with
      | Some o =>
          Done (tt, set_objs (<[this := mkObject (data_ o) (requests_ o ++ [r])]>
                                (objs s)) s)
      | None => Fault (BadDeref 0%N)
      end
  | StoreTls r =>
      Done (tt, mkState (objs s) (reqs s) (<[t := r]> (tls_req_ s)) (allocs s))
  | WriteValue r v =>
      match reqs s !! r with
      | Some rec =>
          Done (tt, set_reqs (<[r := mkRequest (op rec) v (success rec)]> (reqs s)) s)
      | None => Fault (BadDeref r)
      end
  | WriteSuccess r b =>
      match reqs s !! r with
      | Some rec =>
          Done (tt, set_reqs (<[r := mkRequest (op rec) (value rec) b]> (reqs s)) s)
      | None => Fault (BadDeref r)
      end
  | StoreOp r o =>
      match reqs s !! r with
      | Some rec =>
          Done (tt, set_reqs (<[r := mkRequest o (value rec) (success rec)]> (reqs s)) s)
      | None => Fault (BadDeref r)
      end
  | Combine this =>
      match objs s !! this with
      | Some o =>
          match combine (requests_ o) (data_ o) (reqs s) with
          | Done (data, rq) =>
              Done (tt, mkState (<[this := mkObject data (requests_ o)]> (objs s))
                                rq (tls_req_ s) (allocs s))
          | Aborted => Aborted
          | Fault u => Fault u
          | OutOfFuel => OutOfFuel
          end
      | None => Fault (BadDeref 0%N)
      end
  | ReadSuccess r =>
      match reqs s !! r with
      | Some rec => Done (success rec, s)
      | None => Fault (BadDeref r)
      end
  | ReadValue r =>
      match reqs s !! r with
      | Some rec => Done (value rec, s)
      | None => Fault (BadDeref r)
      end
  | Empty this =>
      match objs s !! this with
      | Some o => Done (bool_decide (data_ o = []), s)
      | None => Fault (BadDeref 0%N)
      end
  end.

Definition get_request (this : nat) : prog Act N :=
  cur ← call LoadTls;
  _ ← (if decide (cur = 0%N) then
         r ← call NewRequest;
         _ ← call (Register this r);
         call (StoreTls r)
       else Ret tt);
  call LoadTls.

Definition enqueue (this : nat) (v : Z) : prog Act unit :=
  r ← get_request this;
  _ ← call (WriteValue r v);
  _ ← call (WriteSuccess r true);
  _ ← call (StoreOp r ENQ);
  call (Combine this).

(** [dequeue(out)]: the result and the out-parameter. *)
Definition dequeue (this : nat) (out : Z) : prog Act (bool * Z) :=
  r ← get_request this;
  _ ← call (WriteSuccess r false);
  _ ← call (StoreOp r DEQ);
  _ ← call (Combine this);
  ok ← call (ReadSuccess r);
  if ok : bool then
    v ← call (ReadValue r);
    ok' ← call (ReadSuccess r);
    Ret (ok', v)
  else
    ok' ← call (ReadSuccess r);
    Ret (ok', out).

Definition empty (this : nat) : prog Act bool := call (Empty this).

End FlatCombiningQueue.

(** ** cv_nospurious.h *)

Module CVNoSpurious.

(** [std::size_t] is 64 bits wide. *)
Definition SIZE_MAX : Z := 2 ^ 64 - 1.

Record state : Type := mkState {
  seq_ : Z;                          (* std::atomic<std::size_t> *)
  env : list nat                     (* notifications other threads issue
                                        before each action of this thread *)
}.

Definition ctor (env : list nat) : state := mkState 0 env.

Inductive Act : Type → Type :=
| FetchAddSeq (d : Z) : Act Z                  (* seq_.fetch_add(d) *)
| LoadSeq : Act Z                              (* seq_.load() *)
| CvNotifyOne : Act unit                       (* cv_.notify_one() *)
| CvNotifyAll : Act unit                       (* cv_.notify_all() *)
| CvWait : Act unit.                           (* cv_.wait(lock): returns on a
                                                  notification or spuriously *)

(** Unsigned addition on [std::size_t]. *)
Definition add_size_t (a b : Z) : Z := (a + b) `mod` (SIZE_MAX + 1).

(** The other threads move first: [k] notifications bump [seq_] [k] times. *)
Definition others (s : state) : state :=
  match env s with
  | [] => s
  | k :: env' => mkState (add_size_t (seq_ s) (Z.of_nat k)) env'
  end.

Definition handle (t : nat) (X : Type) (e : Act X) (s : state) : outcome (X * state) :=
  let s := others s in
  match e in Act X return outcome (X * state) with
  | FetchAddSeq d => Done (seq_ s, mkState (add_size_t (seq_ s) d) (env s))
  | LoadSeq => Done (seq_ s, s)
  | CvNotifyOne => Done (tt, s)
  | CvNotifyAll => Done (tt, s)
  | CvWait => Done (tt, s)
  end.

Definition notify_one : prog Act unit :=
  _ ← call (FetchAddSeq 1);
  call CvNotifyOne.

Definition notify_all : prog Act unit :=
  _ ← call (FetchAddSeq 1);
  call CvNotifyAll.

(** [cv_.wait(lock, pred)] is [while (!pred()) cv_.wait(lock);]. *)
Fixpoint wait_loop (fuel : nat) (my_seq : Z) : prog Act unit :=
  match fuel with
  | O => Spin
  | S fuel' =>
      cur ← call LoadSeq;
      if decide (cur ≠ my_seq) then Ret tt
      else _ ← call CvWait; wait_loop fuel' my_seq
  end.

Definition wait (fuel : nat) : prog Act unit :=
  my_seq ← call LoadSeq;
  wait_loop fuel my_seq.

(** [wait(lock, pred)] forwards to [cv_.wait(lock, pred)]. *)
Fixpoint wait_pred (fuel : nat) (pred : prog Act bool) : prog Act unit :=
  match fuel with
  | O => Spin
  | S fuel' =>
      ok ← pred;
      if ok : bool then Ret tt
      else _ ← call CvWait; wait_pred fuel' pred
  end.

End CVNoSpurious.

(** * Part II: specification vocabulary *)

Section HpSpec.
Import hp.

(** Record [i] is the first record that thread [me] owns. *)
Definition owns (me i : nat) (recs : list HazardRecord) : Prop :=
  find_record (owned_by me) recs = Some i.

(** A record is available to [me]: it owns one, or one is free. *)
Definition available (me : nat) (recs : list HazardRecord) : Prop :=
  is_Some (find_record (owned_by me) recs) ∨ is_Some (find_record is_free recs).

End HpSpec.

(** The spurious-failure oracle once a retry loop has got its CAS through. *)
Fixpoint settle (sp : list bool) : list bool :=
  match sp with
  | true :: sp' => settle sp'
  | _ => tl sp
  end.

Section ListSegmentSpec.
Context {Node : Type} (val : Node → Z) (nxt : Node → N).
Implicit Types (h : gmap N Node).

(** The nodes [cells], linked from [p] to [nullptr], hold [xs]. *)
Fixpoint lseg h (p : N) (cells : list N) (xs : list Z) : Prop :=
  match cells, xs with
  | [], [] => p = 0%N
  | c :: cells', x :: xs' =>
      p = c ∧ c ≠ 0%N ∧
      ∃ nd, h !! c = Some nd ∧ val nd = x ∧ lseg h (nxt nd) cells' xs'
  | _, _ => False
  end.

End ListSegmentSpec.

Section TreiberSpec.
Import TreiberStack.
Local Abbreviation lseg := (lseg value next).

(** The representation invariant of a quiescent stack as thread [t]
    sees it: the list from [head_] holds [xs], top first; the nodes
    this thread retired are allocated and are not in that list. *)
Definition stack_inv (t : nat) (s : state) (xs : list Z) : Prop :=
  ∃ cells,
    lseg (heap s) (head_ s) cells xs ∧
    NoDup (cells ++ default [] (retired s !! t)) ∧
    (∀ r, r ∈ default [] (retired s !! t) → r ≠ 0%N ∧ is_Some (heap s !! r)) ∧
    available t (recs s).

(** What a removal returns on a container whose contents are [xs],
    next to be removed first: the result and the out-parameter. *)
Definition removed (out : Z) (xs : list Z) : bool * Z :=
  match xs with
  | [] => (false, out)
  | x :: _ => (true, x)
  end.

End TreiberSpec.

Section EliminationSpec.
Import EliminationStack.
Local Abbreviation lseg := (lseg value next).

Definition arena_idle (s : state) : Prop :=
  arena_ s = replicate ELIM_ARRAY_SIZE 0%N.

(** The representation invariant of a quiescent stack: the list from
    [head_] holds [xs], top first, and no node waits in the arena. *)
Definition elim_inv (s : state) (xs : list Z) : Prop :=
  ∃ cells, lseg (heap s) (head_ s) cells xs ∧ NoDup cells ∧ arena_idle s.

End EliminationSpec.

Section MSQueueSpec.
Import MSQueue.
Implicit Types (h : gmap N Node).

(** From node [p], the nodes [cells] follow and hold [xs]; the chain
    ends in [last], whose [next] is [nullptr]. *)
Fixpoint qchain h (p : N) (cells : list N) (xs : list Z) (last : N) : Prop :=
  match cells, xs with
  | [], [] => last = p ∧ ∃ nd, h !! p = Some nd ∧ next nd = 0%N
  | c :: cells', x :: xs' =>
      c ≠ 0%N ∧ (∃ nd, h !! p = Some nd ∧ next nd = c) ∧
      (∃ nc, h !! c = Some nc ∧ value nc = Some x) ∧
      qchain h c cells' xs' last
  | _, _ => False
  end.

(** The representation invariant of a quiescent queue as thread [t]
    sees it: [head_] is the dummy, the nodes after it hold [xs], oldest
    first, [tail_] is the last node; the nodes this thread retired are
    allocated and are not in the queue. *)
Definition queue_inv (t : nat) (s : state) (xs : list Z) : Prop :=
  ∃ cells,
    head_ s ≠ 0%N ∧
    qchain (heap s) (head_ s) cells xs (tail_ s) ∧
    NoDup ((head_ s :: cells) ++ default [] (retired s !! t)) ∧
    (∀ r, r ∈ default [] (retired s !! t) → r ≠ 0%N ∧ is_Some (heap s !! r)) ∧
    available t (recs s).

End MSQueueSpec.

Section FlatCombiningStackSpec.
Import FlatCombiningStack.
Implicit Types (rq : gmap N Request).

(** A record with no pending operation. *)
Definition fcs_idle rq (r : N) : Prop :=
  ∃ rec, rq !! r = Some rec ∧ op rec = NONE.

(** Object [this] holds [data]; all its records are idle; thread [t]
    has no record yet, or its record is linked in [this]. *)
Definition fcs_inv (this t : nat) (s : state) (data : list Z) : Prop :=
  ∃ requests,
    objs s !! this = Some (mkObject data requests) ∧ NoDup requests ∧
    (∀ r, r ∈ requests → fcs_idle (reqs s) r) ∧
    (default 0%N (tls_req_ s !! t) = 0%N ∨ default 0%N (tls_req_ s !! t) ∈ requests).

(** As [fcs_inv], with the record [r] of thread [t] linked in [this]. *)
Definition fcs_linked (this t : nat) (s : state) (data : list Z) (r : N) : Prop :=
  ∃ requests,
    objs s !! this = Some (mkObject data requests) ∧ NoDup requests ∧
    (∀ r', r' ∈ requests → fcs_idle (reqs s) r') ∧
    r ∈ requests ∧ default 0%N (tls_req_ s !! t) = r.

Definition fcs_pop_result (out : Z) (data : list Z) : bool * Z :=
  match last data with
  | None => (false, out)
  | Some back => (true, back)
  end.

End FlatCombiningStackSpec.

Section FlatCombiningQueueSpec.
Import FlatCombiningQueue.
Implicit Types (rq : gmap N Request).

(** A record with no pending operation. *)
Definition fcq_idle rq (r : N) : Prop :=
  ∃ rec, rq !! r = Some rec ∧ op rec = NONE.

(** Object [this] holds [data]; all its records are idle; thread [t]
    has no record yet, or its record is linked in [this]. *)
Definition fcq_inv (this t : nat) (s : state) (data : list Z) : Prop :=
  ∃ requests,
    objs s !! this = Some (mkObject data requests) ∧ NoDup requests ∧
    (∀ r, r ∈ requests → fcq_idle (reqs s) r) ∧
    (default 0%N (tls_req_ s !! t) = 0%N ∨ default 0%N (tls_req_ s !! t) ∈ requests).

(** As [fcq_inv], with the record [r] of thread [t] linked in [this]. *)
Definition fcq_linked (this t : nat) (s : state) (data : list Z) (r : N) : Prop :=
  ∃ requests,
    objs s !! this = Some (mkObject data requests) ∧ NoDup requests ∧
    (∀ r', r' ∈ requests → fcq_idle (reqs s) r') ∧
    r ∈ requests ∧ default 0%N (tls_req_ s !! t) = r.

Definition fcq_dequeue_result (out : Z) (data : list Z) : bool * Z :=
  match data with
  | [] => (false, out)
  | front :: _ => (true, front)
  end.

End FlatCombiningQueueSpec.

Section ClientsSpec.
Context {E : Type → Type}.

(** Insert the values of [xs], first to last. *)
Fixpoint insert_all (ins : Z → prog E unit) (xs : list Z) : prog E unit :=
  match xs with
  | [] => Ret tt
  | x :: xs' => _ ← ins x; insert_all ins xs'
  end.

(** [n] removals in a row; each is handed the out-parameter as the
    previous one left it.  The results, in order. *)
Fixpoint remove_n (rem : Z → prog E (bool * Z)) (n : nat) (out : Z)
  : prog E (list (bool * Z)) :=
  match n with
  | O => Ret []
  | S n' =>
      r ← rem out;
      rs ← remove_n rem n' r.2;
      Ret (r :: rs)
  end.

End ClientsSpec.

(** What [n] removals return on a container whose contents are [ys],
    next to be removed first. *)
Fixpoint removals (n : nat) (out : Z) (ys : list Z) : list (bool * Z) :=
  match n with
  | O => []
  | S n' => removed out ys :: removals n' (removed out ys).2 (tl ys)
  end.

(** LIFO order of what a drain returns after inserting [xs]. *)
Definition lifo_results (out : Z) (xs : list Z) : list (bool * Z) :=
  ((λ y, (true, y)) <$> rev xs) ++ [(false, default out (head xs))].

(** FIFO order of what a drain returns after inserting [xs]. *)
Definition fifo_results (out : Z) (xs : list Z) : list (bool * Z) :=
  ((λ y, (true, y)) <$> xs) ++ [(false, default out (last xs))].

Section PureClientsSpec.
Context {D : Type}.

Definition insert_all_atomic (ins : Z → D → D) (xs : list Z) (d : D) : D :=
  foldl (λ acc v, ins v acc) d xs.

Fixpoint remove_n_atomic (rem : Z → D → bool * Z * D) (n : nat) (out : Z) (d : D)
  : list (bool * Z) * D :=
  match n with
  | O => ([], d)
  | S n' =>
      let '(ok, out', d') := rem out d in
      let '(rs, d'') := remove_n_atomic rem n' out' d' in
      ((ok, out') :: rs, d'')
  end.

End PureClientsSpec.

Section EliminationEmptySpec.
Import EliminationStack.

(** No node waits in the arena. *)
Definition arena_clear (s : state) : Prop :=
  length (arena_ s) = ELIM_ARRAY_SIZE ∧ Forall (λ p, p = 0%N) (arena_ s).

End EliminationEmptySpec.

Section FlatCombiningStackVisitSpec.
Import FlatCombiningStack.

(** Object [this] holds [data] and none of its records has an
    operation pending. *)
Definition fcs_quiet (this : nat) (s : state) (data : list Z) : Prop :=
  ∃ requests,
    objs s !! this = Some (mkObject data requests) ∧ NoDup requests ∧
    (∀ r, r ∈ requests → fcs_idle (reqs s) r).

(** The record of thread [t], when it has one, is allocated. *)
Definition fcs_tls_ok (t : nat) (s : state) : Prop :=
  default 0%N (tls_req_ s !! t) = 0%N ∨ is_Some (reqs s !! default 0%N (tls_req_ s !! t)).

End FlatCombiningStackVisitSpec.

Section FlatCombiningQueueVisitSpec.
Import FlatCombiningQueue.

Definition fcq_quiet (this : nat) (s : state) (data : list Z) : Prop :=
  ∃ requests,
    objs s !! this = Some (mkObject data requests) ∧ NoDup requests ∧
    (∀ r, r ∈ requests → fcq_idle (reqs s) r).

Definition fcq_tls_ok (t : nat) (s : state) : Prop :=
  default 0%N (tls_req_ s !! t) = 0%N ∨ is_Some (reqs s !! default 0%N (tls_req_ s !! t)).

End FlatCombiningQueueVisitSpec.

Section CVSpec.
Import CVNoSpurious.

(** What a [LoadSeq] event returned. *)
Definition load_of (ev : event Act) : list Z :=
  match ev with
  | Ev e x =>
      match e in Act X return X → list Z with
      | LoadSeq => λ v, [v]
      | _ => λ _, []
      end x
  end.

(** The values the [LoadSeq] actions of a trace returned, in order. *)
Definition loads (tr : list (event Act)) : list Z := tr ≫= load_of.

End CVSpec.

(** The action a thread of the pool is about to perform. *)
Definition next_action {E : Type → Type} {A} (pool : list (prog E A)) (t : nat)
  : option {X : Type & E X} :=
  match pool !! t with
  | Some (Vis e _) => Some (existT _ e)
  | _ => None
  end.

(** ** Michael-Scott queue: thread 1 fills the queue with 1..65 and
    dequeues 64 times; thread 0 dequeues once. *)

Definition msq_filler : prog MSQueue.Act (list (bool * Z)) :=
  _ ← insert_all (MSQueue.enqueue 1) (Z.of_nat <$> seq 1 65);
  remove_n (MSQueue.dequeue 1) 64 0.

Definition msq_reader : prog MSQueue.Act (list (bool * Z)) :=
  remove_n (MSQueue.dequeue 1) 1 0.

(** Thread 1 enqueues 65 values and dequeues 63 of them; thread 0 runs
    its dequeue up to and including its head CAS; thread 1 runs its
    64th dequeue, whose [retire] scans; thread 0 takes its next step. *)
Definition msq_race : list nat :=
  replicate (65 * 6 + 63 * 11) 1%nat ++ replicate 7 0%nat ++
  replicate 11 1%nat ++ [0%nat].

(** The same schedule without the last step of thread 0. *)
Definition msq_before_read : list nat :=
  replicate (65 * 6 + 63 * 11) 1%nat ++ replicate 7 0%nat ++ replicate 11 1%nat.

(** ** Elimination stack: thread 0 pushes 7 and pops; thread 1 pops. *)

Definition elim_first : prog EliminationStack.Act (bool * Z) :=
  _ ← EliminationStack.push 1 7;
  EliminationStack.pop 1 0.

Definition elim_second : prog EliminationStack.Act (bool * Z) :=
  EliminationStack.pop 1 0.

(** Thread 0 pushes and loads [head_]; thread 1 pops the node and
    deletes it; thread 0 takes its next step. *)
Definition elim_race : list nat :=
  replicate 5 0%nat ++ replicate 5 1%nat ++ [0%nat].

(** The same two clients on the Treiber stack. *)
Definition treiber_first : prog TreiberStack.Act (bool * Z) :=
  _ ← TreiberStack.push 1 7;
  TreiberStack.pop 2 0.

Definition treiber_second : prog TreiberStack.Act (bool * Z) :=
  TreiberStack.pop 2 0.

(** ** Elimination stack: an offer in flight while another thread asks
    [empty].  Four spurious CAS failures send the pusher to the arena. *)

Definition elim_pusher : prog EliminationStack.Act bool :=
  _ ← EliminationStack.push 5 7;
  Ret true.

(** ** Flat-combining stack: the main thread of tests/test_stacks.cpp
    uses one object, then drains a second one that a worker filled. *)

Definition fcs_main : prog FlatCombiningStack.Act (list (bool * Z)) :=
  st1 ← call FlatCombiningStack.Construct;
  _ ← FlatCombiningStack.push st1 1;
  r1 ← FlatCombiningStack.pop st1 0;
  st2 ← call FlatCombiningStack.Construct;
  r2 ← FlatCombiningStack.pop st2 0;
  Ret [r1; r2].

(** The worker pushes 20 on the second object, whose identity is 2. *)
Definition fcs_worker : prog FlatCombiningStack.Act (list (bool * Z)) :=
  _ ← FlatCombiningStack.push 2 20;
  Ret [].

(** The main thread uses object 1 and constructs object 2 (19
    actions); the worker pushes on object 2 (9 actions); the main
    thread pops from object 2 (7 actions). *)
Definition fcs_test_schedule : list nat :=
  replicate 19 0%nat ++ replicate 9 1%nat ++ replicate 7 0%nat.

(** ** Flat-combining queue: the same two clients, on queues. *)

Definition fcq_main : prog FlatCombiningQueue.Act (list (bool * Z)) :=
  st1 ← call FlatCombiningQueue.Construct;
  _ ← FlatCombiningQueue.enqueue st1 1;
  r1 ← FlatCombiningQueue.dequeue st1 0;
  st2 ← call FlatCombiningQueue.Construct;
  r2 ← FlatCombiningQueue.dequeue st2 0;
  Ret [r1; r2].

(** The worker enqueues 20 on the second object, whose identity is 2. *)
Definition fcq_worker : prog FlatCombiningQueue.Act (list (bool * Z)) :=
  _ ← FlatCombiningQueue.enqueue 2 20;
  Ret [].

(** ** Hazard records run out: threads 0..n-1 each pop once from the
    empty stack, and each keeps the record it claimed. *)

Definition treiber_crowd (n : nat) : TreiberStack.state :=
  foldl (λ s t, match run TreiberStack.handle t (TreiberStack.pop 1 0) s with
                | Done (_, s') => s'
                | _ => s
                end)
        (TreiberStack.init [] []) (seq 0 n).

(** The same on the Michael-Scott queue: threads 0..n-1 each dequeue
    once from the empty queue. *)
Definition msq_crowd (n : nat) : MSQueue.state :=
  foldl (λ s t, match run MSQueue.handle t (MSQueue.dequeue 1 0) s with
                | Done (_, s') => s'
                | _ => s
                end)
        (MSQueue.init [] []) (seq 0 n).

Section MSQueueOrderSpec.
Import MSQueue.

(** Whether an event is a read of a node's value. *)
Definition is_value_read (ev : event Act) : bool :=
  match ev with
  | Ev e _ => match e with ReadValue _ => true | _ => false end
  end.

(** In the trace, the value of [x] is read right after the CAS that
    moved [head_] from [h] to [x], and not before. *)
Definition read_follows_cas (tr : list (event Act)) (v : Z) : Prop :=
  ∃ pre h x post,
    tr = pre ++ [Ev (CasHead h x) (true, h); Ev (ReadValue x) v] ++ post ∧
    Forall (λ ev, is_value_read ev = false) pre.

End MSQueueOrderSpec.

(** Insert [xs], then remove once more than was inserted. *)
Definition fill_then_drain {E : Type → Type} (ins : Z → prog E unit)
    (rem : Z → prog E (bool * Z)) (xs : list Z) (out : Z) : prog E (list (bool * Z)) :=
  _ ← insert_all ins xs;
  remove_n rem (S (length xs)) out.

(** Insert [xs], then remove [n] times. *)
Definition fill_then_remove {E : Type → Type} (ins : Z → prog E unit)
    (rem : Z → prog E (bool * Z)) (xs : list Z) (n : nat) (out : Z)
  : prog E (list (bool * Z)) :=
  _ ← insert_all ins xs;
  remove_n rem n out.

(** ** One thread, two flat-combining objects in a row: the scenario
    push 1, 2, 3 and four pops on each. *)

Definition fcs_twice : prog FlatCombiningStack.Act (list (bool * Z) * list (bool * Z)) :=
  st1 ← call FlatCombiningStack.Construct;
  r1 ← fill_then_drain (FlatCombiningStack.push st1) (FlatCombiningStack.pop st1) [1; 2; 3] 0;
  st2 ← call FlatCombiningStack.Construct;
  r2 ← fill_then_drain (FlatCombiningStack.push st2) (FlatCombiningStack.pop st2) [1; 2; 3] 0;
  Ret (r1, r2).

Definition fcq_twice : prog FlatCombiningQueue.Act (list (bool * Z) * list (bool * Z)) :=
  st1 ← call FlatCombiningQueue.Construct;
  r1 ← fill_then_drain (FlatCombiningQueue.enqueue st1) (FlatCombiningQueue.dequeue st1)
         [10; 20; 30] 0;
  st2 ← call FlatCombiningQueue.Construct;
  r2 ← fill_then_drain (FlatCombiningQueue.enqueue st2) (FlatCombiningQueue.dequeue st2)
         [10; 20; 30] 0;
  Ret (r1, r2).

(** ** Containers in use *)

(** The Treiber stack after pushing 1, 2, 3 and popping once. *)
Definition treiber_sample : TreiberStack.state :=
  match run TreiberStack.handle 0
          (_ ← TreiberStack.push 1 1; _ ← TreiberStack.push 1 2; _ ← TreiberStack.push 1 3;
           TreiberStack.pop 1 0) (TreiberStack.init [] []) with
  | Done (_, s) => s
  | _ => TreiberStack.init [] []
  end.

(** The Michael-Scott queue after enqueuing 1, 2, 3 and dequeuing once. *)
Definition msq_sample : MSQueue.state :=
  match run MSQueue.handle 0
          (_ ← MSQueue.enqueue 1 1; _ ← MSQueue.enqueue 1 2; _ ← MSQueue.enqueue 1 3;
           MSQueue.dequeue 1 0) (MSQueue.init [] []) with
  | Done (_, s) => s
  | _ => MSQueue.init [] []
  end.

(** Thread 1 has used a flat-combining stack of its own (object 1);
    thread 0 then constructs object 2, pushes 1, 2, 3 on it and pops
    once. *)
Definition fcs_sample : FlatCombiningStack.state :=
  match run FlatCombiningStack.handle 1
          (this ← call FlatCombiningStack.Construct; FlatCombiningStack.push this 9)
          (FlatCombiningStack.init []) with
  | Done (_, s1) =>
      match run FlatCombiningStack.handle 0
              (this ← call FlatCombiningStack.Construct;
               _ ← FlatCombiningStack.push this 1; _ ← FlatCombiningStack.push this 2;
               _ ← FlatCombiningStack.push this 3; FlatCombiningStack.pop this 0) s1 with
      | Done (_, s) => s
      | _ => FlatCombiningStack.init []
      end
  | _ => FlatCombiningStack.init []
  end.

(** The same on flat-combining queues. *)
Definition fcq_sample : FlatCombiningQueue.state :=
  match run FlatCombiningQueue.handle 1
          (this ← call FlatCombiningQueue.Construct; FlatCombiningQueue.enqueue this 9)
          (FlatCombiningQueue.init []) with
  | Done (_, s1) =>
      match run FlatCombiningQueue.handle 0
              (this ← call FlatCombiningQueue.Construct;
               _ ← FlatCombiningQueue.enqueue this 1; _ ← FlatCombiningQueue.enqueue this 2;
               _ ← FlatCombiningQueue.enqueue this 3; FlatCombiningQueue.dequeue this 0) s1 with
      | Done (_, s) => s
      | _ => FlatCombiningQueue.init []
      end
  | _ => FlatCombiningQueue.init []
  end.

(** ** Vocabulary of the further properties *)

Section HpCapacitySpec.
Import hp.

(** The threads [ts] construct a [HazardPointerOwner] one after the
    other: the records they get, in order, and the registry. *)
Fixpoint acquire_each (ts : list nat) (recs : list HazardRecord)
  : option (list nat * list HazardRecord) :=
  match ts with
  | [] => Some ([], recs)
  | t :: ts' =>
      match acquire_hazard_record t recs with
      | Some (i, recs') =>
          match acquire_each ts' recs' with
          | Some (idxs, recs'') => Some (i :: idxs, recs'')
          | None => None
          end
      | None => None
      end
  end.

End HpCapacitySpec.

Section HpClaimSpec.
Import hp.

(** The registry after the threads [done] have each claimed a record
    and [k] records are still free. *)
Definition claimed_by (done : list nat) (k : nat) : list HazardRecord :=
  ((λ t, mkRecord (Some t) 0%N) <$> done) ++ replicate k (mkRecord None 0%N).

End HpClaimSpec.

(** Seventy nodes at addresses 1 to 70; thread 0 protects node 5 with
    record 0; nodes 1 to 63 are on the retired list of thread 3. *)
Definition protected_state : TreiberStack.state :=
  TreiberStack.mkState
    (list_to_map ((λ a, (a, TreiberStack.mkNode 0 0%N)) <$> (N.of_nat <$> seq 1 70)))
    0%N (<[0%nat := hp.mkRecord (Some 0%nat) 5%N]> hp.g_hazard_records)
    {[ 3%nat := N.of_nat <$> seq 1 63 ]} [] [].

Section HeapDrainSpec.
Context {V : Type}.

(** The drain loop of the destructors:
    [while (n) { Node* next = n->next; delete n; n = next; }]. *)
Fixpoint drain (nxt : V → N) (fuel : nat) (n : N) (h : gmap N V) : outcome (gmap N V) :=
  match fuel with
  | O => OutOfFuel
  | S fuel' =>
      if decide (n = 0%N) then Done h
      else match h !! n with
           | None => Fault (BadDeref n)
           | Some nd =>
               match delete_node n h with
               | Done h' => drain nxt fuel' (nxt nd) h'
               | Aborted => Aborted
               | Fault u => Fault u
               | OutOfFuel => OutOfFuel
               end
           end
  end.

End HeapDrainSpec.

(** [~TreiberStack()]: run by one thread when no other uses the stack. *)
Definition TreiberStack_dtor (fuel : nat) (s : TreiberStack.state) : outcome TreiberStack.state :=
  match drain TreiberStack.next fuel (TreiberStack.head_ s) (TreiberStack.heap s) with
  | Done h' =>
      Done (TreiberStack.mkState h' (TreiberStack.head_ s) (TreiberStack.recs s)
              (TreiberStack.retired s) (TreiberStack.allocs s) (TreiberStack.spur s))
  | Aborted => Aborted
  | Fault u => Fault u
  | OutOfFuel => OutOfFuel
  end.

(** [~MSQueue()]: the dummy node and every node after it. *)
Definition MSQueue_dtor (fuel : nat) (s : MSQueue.state) : outcome MSQueue.state :=
  match drain MSQueue.next fuel (MSQueue.head_ s) (MSQueue.heap s) with
  | Done h' => Done (MSQueue.set_heap h' s)
  | Aborted => Aborted
  | Fault u => Fault u
  | OutOfFuel => OutOfFuel
  end.

(** The second loop of [~EliminationStack()]: each slot is exchanged
    with [nullptr] and the chain from what it held is drained. *)
Fixpoint EliminationStack_drain_slots (fuel : nat) (idxs : list nat) (arena : list N)
    (h : gmap N EliminationStack.Node)
  : outcome (list N * gmap N EliminationStack.Node) :=
  match idxs with
  | [] => Done (arena, h)
  | idx :: idxs' =>
      match arena !! idx with
      | None => Fault (BadDeref 0%N)
      | Some p =>
          match drain EliminationStack.next fuel p h with
          | Done h' => EliminationStack_drain_slots fuel idxs' (<[idx := 0%N]> arena) h'
          | Aborted => Aborted
          | Fault u => Fault u
          | OutOfFuel => OutOfFuel
          end
      end
  end.

(** [~EliminationStack()]: the central list, then the arena. *)
Definition EliminationStack_dtor (fuel : nat) (s : EliminationStack.state)
  : outcome EliminationStack.state :=
  match drain EliminationStack.next fuel (EliminationStack.head_ s)
          (EliminationStack.heap s) with
  | Done h1 =>
      match EliminationStack_drain_slots fuel (seq 0 EliminationStack.ELIM_ARRAY_SIZE)
              (EliminationStack.arena_ s) h1 with
      | Done (arena, h2) =>
          Done (EliminationStack.set_arena arena (EliminationStack.set_heap h2 s))
      | Aborted => Aborted
      | Fault u => Fault u
      | OutOfFuel => OutOfFuel
      end
  | Aborted => Aborted
  | Fault u => Fault u
  | OutOfFuel => OutOfFuel
  end.

(** The heap without the nodes [cells]. *)
Definition without {V} (cells : list N) (h : gmap N V) : gmap N V :=
  foldl (λ acc c, delete c acc) h cells.

(** The elimination stack after pushing 1, 2, 3 and popping once. *)
Definition elim_sample : EliminationStack.state :=
  match run EliminationStack.handle 0
          (_ ← EliminationStack.push 1 1; _ ← EliminationStack.push 1 2;
           _ ← EliminationStack.push 1 3; EliminationStack.pop 1 0)
          (EliminationStack.init [] [] []) with
  | Done (_, s) => s
  | _ => EliminationStack.init [] [] []
  end.

(** Thread 0 constructs a stack, pushes 5 and publishes a push of 7
    without combining yet; thread 1 pops twice. *)
Definition fcs_publisher : prog FlatCombiningStack.Act (list (bool * Z)) :=
  this ← call FlatCombiningStack.Construct;
  _ ← FlatCombiningStack.push this 5;
  _ ← FlatCombiningStack.push this 7;
  Ret [].

Definition fcs_taker : prog FlatCombiningStack.Act (list (bool * Z)) :=
  remove_n (FlatCombiningStack.pop 1) 2 0.

(** Thread 0 has pushed 5; thread 1 has popped it; thread 0 has stored
    [PUSH] and 7 in its record and is about to call [combine]. *)
Definition fcs_pending_push : FlatCombiningStack.state :=
  match interleave FlatCombiningStack.handle
          (replicate 10 0%nat ++ replicate 11 1%nat ++ replicate 5 0%nat)
          [fcs_publisher; fcs_taker] (FlatCombiningStack.init []) with
  | Done (_, s) => s
  | _ => FlatCombiningStack.init []
  end.

(** Thread 0 constructs a queue, enqueues 5 and publishes an enqueue
    of 7 without combining yet; thread 1 dequeues twice. *)
Definition fcq_publisher : prog FlatCombiningQueue.Act (list (bool * Z)) :=
  this ← call FlatCombiningQueue.Construct;
  _ ← FlatCombiningQueue.enqueue this 5;
  _ ← FlatCombiningQueue.enqueue this 7;
  Ret [].

Definition fcq_taker : prog FlatCombiningQueue.Act (list (bool * Z)) :=
  remove_n (FlatCombiningQueue.dequeue 1) 2 0.

(** Thread 0 has enqueued 5; thread 1 has dequeued it; thread 0 has stored
    [ENQ] and 7 in its record and is about to call [combine]. *)
Definition fcq_pending_enqueue : FlatCombiningQueue.state :=
  match interleave FlatCombiningQueue.handle
          (replicate 10 0%nat ++ replicate 11 1%nat ++ replicate 5 0%nat)
          [fcq_publisher; fcq_taker] (FlatCombiningQueue.init []) with
  | Done (_, s) => s
  | _ => FlatCombiningQueue.init []
  end.

Section EliminationOfferSpec.
Import EliminationStack.

(** What [try_elim_push] does once its offer is in slot [idx]: wait
    for a pop to take the node, then try to take it back. *)
Definition elim_offer_wait (idx : nat) (n : N) : prog Act (bool * N) :=
  taken ← spin_wait SPIN_ITERS idx n;
  if taken : bool then Ret (true, 0%N)
  else
    '(reclaimed, _) ← call (ArenaCas idx n 0%N);
    if reclaimed : bool then Ret (false, n) else Ret (true, 0%N).

(** The rounds of the wait loop in which the slot still held the node. *)
Definition elim_wait_rounds (idx : nat) (n : N) (k : nat) : list (event Act) :=
  concat (replicate k [Ev (ArenaLoad idx) n; Ev Yield tt]).

End EliminationOfferSpec.

(** Thread 0 pushes 7 while four weak CAS fail spuriously, so that it
    places an offer in the arena; thread 1 pops. *)
Definition elim_taker : prog EliminationStack.Act bool :=
  r ← EliminationStack.pop 1 0;
  Ret (bool_decide (r = (true, 7))).

(** The state once the offer of thread 0 is in slot 3. *)
Definition elim_offered : EliminationStack.state :=
  match interleave EliminationStack.handle (replicate 15 0%nat) [elim_pusher; elim_taker]
          (EliminationStack.init [] [true; true; true; true] [3%nat; 3%nat]) with
  | Done (_, s) => s
  | _ => EliminationStack.init [] [] []
  end.

(** A predicate on the generation counter: it has moved past 5. *)
Definition cv_sample_pred : prog CVNoSpurious.Act bool :=
  cur ← call CVNoSpurious.LoadSeq;
  Ret (bool_decide (5 < cur)).

(** The stack after 64 pushes and 63 pops. *)
Definition treiber_before_scan : TreiberStack.state :=
  match run TreiberStack.handle 0
          (_ ← insert_all (TreiberStack.push 1) (Z.of_nat <$> seq 1 64);
           remove_n (TreiberStack.pop 1) 63 0) (TreiberStack.init [] []) with
  | Done (_, s) => s
  | _ => TreiberStack.init [] []
  end.

Section MSQueueLagSpec.
Import MSQueue.

(** The queue holds [xs], but [tail_] is one node behind: an enqueuer
    has linked the last node and has not yet swung [tail_] to it. *)
Definition queue_lagging (t : nat) (s : state) (xs : list Z) (last : N) : Prop :=
  ∃ nd,
    tail_ s ≠ last ∧ heap s !! tail_ s = Some nd ∧ next nd = last ∧
    queue_inv t (set_tail last s) xs.

End MSQueueLagSpec.

(** Thread 0 enqueues 7 and thread 1 enqueues 8 on a fresh queue. *)
Definition msq_pair : list (prog MSQueue.Act unit) :=
  [MSQueue.enqueue 2 7; MSQueue.enqueue 2 8].

(** Thread 0 has linked its node after the dummy and has not yet swung
    [tail_]. *)
Definition msq_lagging_sample : MSQueue.state :=
  match interleave MSQueue.handle (replicate 5 0%nat) msq_pair (MSQueue.init [] []) with
  | Done (_, s) => s
  | _ => MSQueue.init [] []
  end.

Section TreiberSafetySpec.
Import TreiberStack.

(** The tail of [pop] once the CAS has unlinked [old]. *)
Definition pop_owned (i : nat) (old : N) : prog Act (bool * Z) :=
  v ← call (ReadValue old);
  _ ← call (HpClear i);
  _ ← call (Retire old);
  _ ← call (HpClear i);
  Ret (true, v).

(** The tail of an iteration of [pop] from its CAS on. *)
Definition pop_cas (fuel' i : nat) (out : Z) (old nxt : N) : prog Act (bool * Z) :=
  '(ok, _) ← call (CasHeadWeak old nxt);
  if ok : bool then pop_owned i old else pop_loop fuel' i out.

(** From the read of [old->next] on. *)
Definition pop_validated (fuel' i : nat) (out : Z) (old : N) : prog Act (bool * Z) :=
  nxt ← call (ReadNext old);
  pop_cas fuel' i out old nxt.

(** From the re-read of [head_] on. *)
Definition pop_reread (fuel' i : nat) (out : Z) (old : N) : prog Act (bool * Z) :=
  h ← call LoadHead;
  if decide (old ≠ h) then pop_loop fuel' i out else pop_validated fuel' i out old.

(** From [hpo.set(old)] on. *)
Definition pop_protect (fuel' i : nat) (out : Z) (old : N) : prog Act (bool * Z) :=
  _ ← call (HpSet i old);
  pop_reread fuel' i out old.

(** The return from [pop] on the empty stack. *)
Definition pop_empty (i : nat) (out : Z) : prog Act (bool * Z) :=
  _ ← call (HpClear i);
  _ ← call (HpClear i);
  Ret (false, out).

Definition pop_empty' (i : nat) (out : Z) : prog Act (bool * Z) :=
  _ ← call (HpClear i);
  Ret (false, out).

(** The tails of [pop_owned]. *)
Definition pop_owned1 (i : nat) (old : N) (v : Z) : prog Act (bool * Z) :=
  _ ← call (HpClear i);
  _ ← call (Retire old);
  _ ← call (HpClear i);
  Ret (true, v).

Definition pop_owned2 (i : nat) (old : N) (v : Z) : prog Act (bool * Z) :=
  _ ← call (Retire old);
  _ ← call (HpClear i);
  Ret (true, v).

Definition pop_owned3 (i : nat) (v : Z) : prog Act (bool * Z) :=
  _ ← call (HpClear i);
  Ret (true, v).

(** The tails of [push]. *)
Definition push_init (fuel : nat) (n : N) : prog Act unit :=
  _ ← call (SetNext n 0%N);
  old_head ← call LoadHead;
  push_loop fuel n old_head.

Definition push_load (fuel : nat) (n : N) : prog Act unit :=
  old_head ← call LoadHead;
  push_loop fuel n old_head.

Definition push_cas (fuel' : nat) (n old : N) : prog Act unit :=
  '(ok, cur) ← call (CasHeadWeak old n);
  if ok : bool then Ret tt else push_loop fuel' n cur.

(** Who holds an allocated node. *)
Inductive tag : Type :=
| Cell                     (* linked in the stack *)
| Retired (t : nat)        (* on the retired list of thread [t] *)
| PushPriv (t : nat)       (* allocated by a push of [t], not linked yet *)
| PopPriv (t : nat).       (* unlinked by a pop of [t], not retired yet *)

Definition was_linked (g : tag) : Prop :=
  match g with PushPriv _ => False | _ => True end.

(** What a thread relies on at a point of its program. *)
Inductive tstate : Type :=
| TIdle
| TPush (n : N)
| TPushCas (n old : N)
| TPop (i : nat)
| TPopHaz (i : nat) (old : N)
| TPopVal (i : nat) (old : N)
| TPopCas (i : nat) (old nxt : N)
| TPopOwn (i : nat) (old : N).

Definition thread_inv (t : nat) (h : gmap N Node) (rc : list hp.HazardRecord)
    (γ : gmap N tag) (ts : tstate) : Prop :=
  match ts with
  | TIdle => True
  | TPush n => γ !! n = Some (PushPriv t)
  | TPushCas n old =>
      γ !! n = Some (PushPriv t) ∧ ∃ nd, h !! n = Some nd ∧ next nd = old
  | TPop i => ∃ r, rc !! i = Some r ∧ hp.owner r = Some t
  | TPopHaz i old => rc !! i = Some (hp.mkRecord (Some t) old) ∧ old ≠ 0%N
  | TPopVal i old =>
      rc !! i = Some (hp.mkRecord (Some t) old) ∧ old ≠ 0%N ∧
      ∃ g, γ !! old = Some g ∧ was_linked g
  | TPopCas i old nxt =>
      rc !! i = Some (hp.mkRecord (Some t) old) ∧ old ≠ 0%N ∧
      (∃ g, γ !! old = Some g ∧ was_linked g) ∧
      ∃ nd, h !! old = Some nd ∧ next nd = nxt
  | TPopOwn i old =>
      (∃ r, rc !! i = Some r ∧ hp.owner r = Some t) ∧ γ !! old = Some (PopPriv t)
  end.

Definition global_inv (h : gmap N Node) (hd : N) (rt : gmap nat (list N))
    (γ : gmap N tag) : Prop :=
  (∃ cells xs, lseg value next h hd cells xs ∧ NoDup cells ∧
               ∀ c, c ∈ cells → γ !! c = Some Cell) ∧
  (∀ u, NoDup (default [] (rt !! u)) ∧
        ∀ x, x ∈ default [] (rt !! u) → γ !! x = Some (Retired u)) ∧
  (∀ x g, γ !! x = Some g → x ≠ 0%N ∧ is_Some (h !! x)).

(** The invariant of the stack and of the threads that use it. *)
Definition safe_inv (σ : list tstate) (s : state) : Prop :=
  ∃ γ, global_inv (heap s) (head_ s) (retired s) γ ∧
       ∀ t ts, σ !! t = Some ts → thread_inv t (heap s) (recs s) γ ts.

(** The nodes reachable from [head_] form a list without repetition;
    the nodes on the retired lists are allocated and outside it. *)
Definition stack_well_formed (s : state) : Prop :=
  ∃ cells xs,
    lseg value next (heap s) (head_ s) cells xs ∧ NoDup cells ∧
    ∀ u x, x ∈ default [] (retired s !! u) → (x ∉ cells) ∧ is_Some (heap s !! x).

(** An outcome without undefined behaviour; when the threads could
    take all their steps, the stack they leave is well formed. *)
Definition memory_safe {R : Type} (o : outcome (R * state)) : Prop :=
  match o with
  | Done (_, s') => stack_well_formed s'
  | Fault _ => False
  | _ => True
  end.

Context {A : Type}.

(** A client of the stack: a program that works on it through [push],
    [pop] and [empty] only; what it does next may depend on what they
    returned. *)
Inductive api_client : prog Act A → Prop :=
| client_ret a : api_client (Ret a)
| client_push fuel v K : (∀ u, api_client (K u)) → api_client (push fuel v ≫= K)
| client_pop fuel out K : (∀ r, api_client (K r)) → api_client (pop fuel out ≫= K)
| client_empty K : (∀ b, api_client (K b)) → api_client (empty ≫= K).

(** Where a thread is in its program, and what it relies on there. *)
Inductive thread_at : prog Act A → tstate → Prop :=
| at_api p : api_client p → thread_at p TIdle
| at_spin ts : thread_at Spin ts
| at_push_init K fuel n :
    (∀ u, api_client (K u)) → thread_at (push_init fuel n ≫= K) (TPush n)
| at_push_load K fuel n :
    (∀ u, api_client (K u)) → thread_at (push_load fuel n ≫= K) (TPush n)
| at_push_loop K fuel n old :
    (∀ u, api_client (K u)) → thread_at (push_loop fuel n old ≫= K) (TPush n)
| at_push_cas K fuel' n old :
    (∀ u, api_client (K u)) → thread_at (push_cas fuel' n old ≫= K) (TPushCas n old)
| at_pop_loop K fuel i out :
    (∀ r, api_client (K r)) → thread_at (pop_loop fuel i out ≫= K) (TPop i)
| at_pop_empty K i out :
    (∀ r, api_client (K r)) → thread_at (pop_empty i out ≫= K) (TPop i)
| at_pop_empty' K i out :
    (∀ r, api_client (K r)) → thread_at (pop_empty' i out ≫= K) (TPop i)
| at_pop_protect K fuel' i out old :
    (∀ r, api_client (K r)) → old ≠ 0%N →
    thread_at (pop_protect fuel' i out old ≫= K) (TPop i)
| at_pop_reread K fuel' i out old :
    (∀ r, api_client (K r)) → thread_at (pop_reread fuel' i out old ≫= K) (TPopHaz i old)
| at_pop_validated K fuel' i out old :
    (∀ r, api_client (K r)) → thread_at (pop_validated fuel' i out old ≫= K) (TPopVal i old)
| at_pop_cas K fuel' i out old nxt :
    (∀ r, api_client (K r)) →
    thread_at (pop_cas fuel' i out old nxt ≫= K) (TPopCas i old nxt)
| at_pop_owned K i old :
    (∀ r, api_client (K r)) → thread_at (pop_owned i old ≫= K) (TPopOwn i old)
| at_pop_owned1 K i old v :
    (∀ r, api_client (K r)) → thread_at (pop_owned1 i old v ≫= K) (TPopOwn i old)
| at_pop_owned2 K i old v :
    (∀ r, api_client (K r)) → thread_at (pop_owned2 i old v ≫= K) (TPopOwn i old)
| at_pop_owned3 K i v :
    (∀ r, api_client (K r)) → thread_at (pop_owned3 i v ≫= K) (TPop i).

End TreiberSafetySpec.

Definition treiber_client_first : prog TreiberStack.Act (bool * Z) :=
  _ ← TreiberStack.push 4 7;
  r ← TreiberStack.pop 4 0;
  Ret r.

Definition treiber_client_second : prog TreiberStack.Act (bool * Z) :=
  TreiberStack.pop 4 0 ≫= λ r : bool * Z,
  TreiberStack.push 4 (if fst r then snd r + 1 else 9) ≫= λ _,
  Ret r.

Definition treiber_clients_schedule : list nat :=
  [0; 0; 1; 0; 1; 1; 0; 1; 0; 1; 1; 0; 0; 1; 0; 1; 1; 0; 0; 1; 1; 1; 0; 0]%nat.

Section HpOwnersSpec.
Import hp.

(** The threads that own a record, in the order of the records. *)
Definition owners (recs : list HazardRecord) : list nat := omap owner recs.

(** The registry has its 128 records; no thread owns two of them; the
    owners are among the threads [0 .. n-1]. *)
Definition owners_inv (n : nat) (recs : list HazardRecord) : Prop :=
  length recs = MAX_HAZARD_POINTERS ∧ NoDup (owners recs) ∧
  ∀ u, u ∈ owners recs → (u < n)%nat.

End HpOwnersSpec.

(** * Part III: lemmas *)

(** * Running programs *)

Section RunFacts.
Context {E : Type → Type} {S : Type}.
Variable handle : nat → ∀ X, E X → S → outcome (X * S).

Lemma run_bind {A B} t (p : prog E A) (f : A → prog E B) s :
  run handle t (p ≫= f) s =
  match run handle t p s with
  | Done (a, s') => run handle t (f a) s'
  | Aborted => Aborted
  | Fault u => Fault u
  | OutOfFuel => OutOfFuel
  end.
Proof.
  revert s. induction p as [a|X e k IH|]; intros s; simpl; try done.
  destruct (handle t X e s) as [[x s']| | |]; try done. apply IH.
Qed.

End RunFacts.

(** * Facts about the heap *)

Section HeapFacts.
Context {V : Type}.
Implicit Types (h : gmap N V) (p : N).

Lemma foldr_max_ge (l : list N) (k : N) : k ∈ l → (k ≤ foldr N.max 0 l)%N.
Proof.
  induction l as [|a l IH]; intros Hk.
  - by apply elem_of_nil in Hk.
  - apply elem_of_cons in Hk as [->|Hk]; simpl; [lia|].
    specialize (IH Hk). lia.
Qed.

Lemma max_key_ge h p v : h !! p = Some v → (p ≤ max_key h)%N.
Proof.
  intros Hp. apply foldr_max_ge.
  apply list_elem_of_fmap. exists (p, v). split; [done|].
  by apply elem_of_map_to_list.
Qed.

Lemma next_free_fresh h : h !! next_free h = None.
Proof.
  destruct (h !! next_free h) as [v|] eqn:Hv; [|done].
  apply max_key_ge in Hv. unfold next_free in Hv. lia.
Qed.

Lemma next_free_nonnull h : next_free h ≠ 0%N.
Proof. unfold next_free. lia. Qed.

Lemma pick_addr_fresh cand h : h !! pick_addr cand h = None.
Proof.
  unfold pick_addr. case_decide as Hc; [by destruct Hc|apply next_free_fresh].
Qed.

Lemma pick_addr_nonnull cand h : pick_addr cand h ≠ 0%N.
Proof.
  unfold pick_addr. case_decide as Hc; [by destruct Hc|apply next_free_nonnull].
Qed.

(** Deleting distinct allocated nodes succeeds and removes exactly them. *)
Lemma delete_nodes_ok (ps : list N) h :
  NoDup ps → (∀ p, p ∈ ps → p ≠ 0%N ∧ is_Some (h !! p)) →
  ∃ h', delete_nodes ps h = Done h' ∧
        ∀ q, h' !! q = if decide (q ∈ ps) then None else h !! q.
Proof.
  revert h. induction ps as [|p ps IH]; intros h Hnd Hall.
  - exists h. split; [done|]. intros q. case_decide as Hq; [|done].
    by apply elem_of_nil in Hq.
  - apply NoDup_cons in Hnd as [Hp Hnd].
    destruct (Hall p) as [Hp0 [v Hv]]; [apply elem_of_cons; by left|].
    simpl. unfold delete_node. rewrite decide_False by done. rewrite Hv.
    destruct (IH (delete p h) Hnd) as (h' & Hh' & Hlk).
    { intros q Hq. destruct (Hall q) as [Hq0 Hqs]; [apply elem_of_cons; by right|].
      split; [done|]. rewrite lookup_delete_ne; [done|]. intros ->. done. }
    exists h'. split; [done|]. intros q. rewrite Hlk.
    destruct (decide (q = p)) as [->|Hne].
    + rewrite decide_False by done. rewrite lookup_delete_eq.
      rewrite decide_True; [done|]. apply elem_of_cons; by left.
    + rewrite lookup_delete_ne by done.
      case_decide as H1; case_decide as H2; try done.
      * exfalso. apply H2. apply elem_of_cons; by right.
      * apply elem_of_cons in H2 as [?|?]; done.
Qed.

End HeapFacts.

(** * Facts about the hazard-pointer registry *)

Section HpFacts.
Import hp.

Lemma find_record_alter (f : HazardRecord → bool) (g : HazardRecord → HazardRecord) i recs :
  (∀ r, f (g r) = f r) → find_record f (alter g i recs) = find_record f recs.
Proof.
  intros Hfg. revert i. induction recs as [|r recs IH]; intros i; [done|].
  destruct i as [|i]; simpl.
  - by rewrite Hfg.
  - destruct (f r); [done|]. f_equal. apply IH.
Qed.

Lemma find_record_Some f recs i :
  find_record f recs = Some i → ∃ r, recs !! i = Some r ∧ f r = true.
Proof.
  revert i. induction recs as [|r recs IH]; intros i; simpl; [done|].
  destruct (f r) eqn:Hf.
  - intros [= <-]. by exists r.
  - destruct (find_record f recs) as [j|]; simpl; [|done].
    intros [= <-]. by apply IH.
Qed.

Lemma find_record_claimed me i recs :
  find_record is_free recs = Some i →
  find_record (owned_by me) recs = None →
  find_record (owned_by me) (alter (λ r, mkRecord (Some me) (ptr r)) i recs) = Some i.
Proof.
  revert i. induction recs as [|r recs IH]; intros i; simpl; [done|].
  destruct (is_free r) eqn:Hf.
  - intros [= <-] _. simpl. unfold owned_by. simpl. by rewrite bool_decide_eq_true_2.
  - destruct (find_record is_free recs) as [j|]; simpl; [|done].
    intros [= <-]. destruct (owned_by me r) eqn:Ho; [done|].
    destruct (find_record (owned_by me) recs) eqn:Hfo; simpl; [done|].
    intros _. pose proof (IH j eq_refl eq_refl) as H. simpl. rewrite Ho.
    change (S <$> find_record (owned_by me)
              (alter (λ r, mkRecord (Some me) (ptr r)) j recs) = Some (S j)).
    by rewrite H.
Qed.

Lemma acquire_available me recs :
  available me recs →
  ∃ i recs', acquire_hazard_record me recs = Some (i, recs') ∧ owns me i recs'.
Proof.
  unfold available, acquire_hazard_record, owns. intros Hav.
  destruct (find_record (owned_by me) recs) as [i|] eqn:Ho.
  - by exists i, recs.
  - destruct Hav as [[? ?]|[i Hi]]; [done|]. rewrite Hi.
    eexists _, _. split; [done|]. by apply find_record_claimed.
Qed.

Lemma acquire_owned me i recs :
  owns me i recs → acquire_hazard_record me recs = Some (i, recs).
Proof. unfold owns, acquire_hazard_record. by intros ->. Qed.

Lemma owns_set me i j p recs : owns me i recs → owns me i (set j p recs).
Proof. unfold owns, set. intros <-. by apply find_record_alter. Qed.

Lemma owns_clear me i j recs : owns me i recs → owns me i (clear j recs).
Proof. apply owns_set. Qed.

Lemma owns_available me i recs : owns me i recs → available me recs.
Proof. unfold owns, available. intros ->. left. by eexists. Qed.

Lemma available_init me : available me g_hazard_records.
Proof. right. by exists 0%nat. Qed.

(** What [scan] keeps and what it deletes. *)
Lemma scan_normal recs (retired_ : list N) :
  scan false recs retired_ =
  (filter (λ p, p ∈ collect_hazard_pointers recs) retired_,
   filter (λ p, p ∉ collect_hazard_pointers recs) retired_).
Proof.
  unfold scan, is_hazard. simpl. f_equal.
  - apply list_filter_iff. intros p. by rewrite bool_decide_eq_true.
  - apply list_filter_iff. intros p. by rewrite bool_decide_eq_false.
Qed.

Lemma scan_forced recs (retired_ : list N) : scan true recs retired_ = ([], retired_).
Proof.
  unfold scan. simpl. f_equal.
  - induction retired_ as [|p l IH]; [done|]. rewrite filter_cons_False; done.
  - induction retired_ as [|p l IH]; [done|]. rewrite filter_cons_True; [|done].
    by rewrite IH.
Qed.

Lemma elem_of_collect recs p :
  p ∈ collect_hazard_pointers recs ↔ p ≠ 0%N ∧ ∃ r, r ∈ recs ∧ ptr r = p.
Proof.
  unfold collect_hazard_pointers. rewrite list_elem_of_filter, list_elem_of_fmap.
  split.
  - intros [Hp (r & -> & Hr)]. eauto.
  - intros [Hp (r & Hr & <-)]. eauto.
Qed.

(** [retire] keeps and deletes nodes of the extended list only, each
    exactly once. *)
Lemma retire_partition node recs retired_ kept scanned deleted :
  retire node recs retired_ = (kept, scanned, deleted) →
  kept ++ deleted ≡ₚ retired_ ++ [node].
Proof.
  unfold retire. case_decide as Hlen.
  - rewrite scan_normal. intros [= <- <- <-].
    apply filter_app_complement.
  - intros [= <- <- <-]. by rewrite app_nil_r.
Qed.

(** Retiring a node of a duplicate-free allocated list: the deleter
    succeeds, what is kept stays allocated, other nodes are untouched. *)
Lemma retire_ok {V} node recs retired_ (h : gmap N V) kept scanned deleted :
  NoDup (retired_ ++ [node]) →
  (∀ r, r ∈ retired_ ++ [node] → r ≠ 0%N ∧ is_Some (h !! r)) →
  retire node recs retired_ = (kept, scanned, deleted) →
  ∃ h', delete_nodes deleted h = Done h' ∧
        (∀ q, q ∉ retired_ ++ [node] → h' !! q = h !! q) ∧
        NoDup kept ∧
        (∀ r, r ∈ kept → r ∈ retired_ ++ [node] ∧ r ≠ 0%N ∧ is_Some (h' !! r)).
Proof.
  intros Hnd Hall Hret. apply retire_partition in Hret as Hperm.
  rewrite <- Hperm in Hnd. apply NoDup_app in Hnd as (Hk & Hdisj & Hd).
  assert (Hin : ∀ r, r ∈ kept ++ deleted → r ≠ 0%N ∧ is_Some (h !! r)).
  { intros r Hr. apply Hall. by rewrite <- Hperm. }
  destruct (delete_nodes_ok deleted h Hd) as (h' & Hdel & Hlk).
  { intros p Hp. apply Hin. apply elem_of_app. by right. }
  exists h'. split; [done|]. split; [|split; [done|]].
  - intros q Hq. rewrite Hlk. rewrite decide_False; [done|].
    intros Hqd. apply Hq. rewrite <- Hperm. apply elem_of_app. by right.
  - intros r Hr. split; [rewrite <- Hperm; apply elem_of_app; by left|].
    destruct (Hin r) as [Hr0 Hrs]; [apply elem_of_app; by left|].
    split; [done|]. rewrite Hlk. rewrite decide_False; [done|]. by apply Hdisj.
Qed.

End HpFacts.

Lemma settle_length sp : (length (settle sp) ≤ length sp)%nat.
Proof.
  induction sp as [|[] sp IH]; simpl; lia.
Qed.

(** * Linked lists in the heap *)

Section ListSegment.
Context {Node : Type} (val : Node → Z) (nxt : Node → N).
Implicit Types (h : gmap N Node).
Local Abbreviation lseg := (lseg val nxt).

Lemma lseg_agree h h' p cells xs :
  (∀ c, c ∈ cells → h' !! c = h !! c) → lseg h p cells xs → lseg h' p cells xs.
Proof.
  revert p xs. induction cells as [|c cells IH]; intros p [|x xs] Hag; simpl; try done.
  intros (-> & Hc & nd & Hlk & Hv & Hseg). split; [done|]. split; [done|].
  exists nd. split; [|split; [done|]].
  - rewrite Hag; [done|]. apply elem_of_cons; by left.
  - apply IH; [|done]. intros c' Hc'. apply Hag. apply elem_of_cons; by right.
Qed.

Lemma lseg_allocated h p cells xs c :
  lseg h p cells xs → c ∈ cells → c ≠ 0%N ∧ is_Some (h !! c).
Proof.
  revert p xs. induction cells as [|c' cells IH]; intros p [|x xs]; simpl; try done.
  - intros _ Hc. by apply elem_of_nil in Hc.
  - intros (-> & Hc0 & nd & Hlk & Hv & Hseg) Hc.
    apply elem_of_cons in Hc as [->|Hc]; [by eauto|]. by eapply IH.
Qed.

Lemma lseg_null h cells xs : lseg h 0 cells xs → cells = [] ∧ xs = [].
Proof. destruct cells, xs; simpl; try done. intros (<- & ? & _). done. Qed.

Lemma lseg_nonnull h p cells xs :
  p ≠ 0%N → lseg h p cells xs →
  ∃ nd cells' xs', cells = p :: cells' ∧ xs = val nd :: xs' ∧
    h !! p = Some nd ∧ lseg h (nxt nd) cells' xs'.
Proof.
  destruct cells as [|c cells], xs as [|x xs]; simpl; try done.
  intros Hp (-> & _ & nd & Hlk & <- & Hseg). by exists nd, cells, xs.
Qed.

Lemma lseg_push h p cells xs n nd :
  lseg h p cells xs → h !! n = None → n ≠ 0%N → nxt nd = p →
  lseg (<[n := nd]> h) n (n :: cells) (val nd :: xs).
Proof.
  intros Hseg Hfresh Hn Hnx. simpl. split; [done|]. split; [done|].
  exists nd. split; [apply lookup_insert_eq|]. split; [done|]. rewrite Hnx.
  eapply lseg_agree; [|done]. intros c Hc. rewrite lookup_insert_ne; [done|].
  intros ->. destruct (lseg_allocated _ _ _ _ _ Hseg Hc) as [_ [? ?]]. congruence.
Qed.

End ListSegment.

(** * The Treiber stack, run by one thread *)

Section TreiberFacts.
Import TreiberStack.

Local Abbreviation lseg := (lseg value next).

Lemma stack_inv_init t allocs spur : stack_inv t (init allocs spur) [].
Proof.
  exists []. simpl. rewrite lookup_empty. simpl. repeat split.
  - constructor.
  - by apply elem_of_nil in H.
  - by apply elem_of_nil in H.
  - apply available_init.
Qed.

Lemma push_loop_run t fuel n old s nd :
  head_ s = old → heap s !! n = Some nd → (length (spur s) < fuel)%nat →
  run handle t (push_loop fuel n old) s =
  Done (tt, mkState (<[n := mkNode (value nd) old]> (heap s)) n (recs s)
                    (retired s) (allocs s) (settle (spur s))).
Proof.
  revert s nd. induction fuel as [|fuel IH]; intros s nd Hold Hn Hfuel; [lia|].
  simpl. rewrite Hn. simpl. rewrite decide_True by done.
  destruct (spur s) as [|[] sp] eqn:Hsp; simpl; try done.
  rewrite Hold. erewrite IH; simpl; [|done|apply lookup_insert_eq|simpl in Hfuel; lia].
  by rewrite insert_insert_eq.
Qed.

Lemma push_spec t fuel v s xs :
  stack_inv t s xs → (length (spur s) < fuel)%nat →
  ∃ s', run handle t (push fuel v) s = Done (tt, s') ∧
        stack_inv t s' (v :: xs) ∧ (length (spur s') ≤ length (spur s))%nat.
Proof.
  intros (cells & Hseg & Hnd & Hret & Hav) Hfuel.
  set (n := pick_addr (hd 0%N (allocs s)) (heap s)).
  assert (Hfresh : heap s !! n = None) by apply pick_addr_fresh.
  assert (Hn0 : n ≠ 0%N) by apply pick_addr_nonnull.
  eexists. split.
  { unfold push. simpl. fold n. rewrite lookup_insert_eq. simpl.
    rewrite insert_insert_eq.
    erewrite push_loop_run; simpl; [reflexivity|done|apply lookup_insert_eq|done]. }
  simpl. split; [|apply settle_length].
  rewrite insert_insert_eq.
  assert (Hnc : n ∉ cells).
  { intros Hin. destruct (lseg_allocated _ _ _ _ _ _ _ Hseg Hin) as [_ [? ?]]. congruence. }
  exists (n :: cells). split; [|split; [|split]]; simpl; try done.
  - by apply (lseg_push value next (heap s) (head_ s) cells xs n (mkNode v (head_ s))).
  - apply NoDup_cons. split; [|done]. intros Hin.
    apply elem_of_app in Hin as [Hin|Hin]; [done|].
    destruct (Hret n Hin) as [_ [? ?]]. congruence.
  - intros r Hr. destruct (Hret r Hr) as [Hr0 Hrs]. split; [done|].
    rewrite lookup_insert_ne; [done|]. intros <-. destruct Hrs. congruence.
Qed.

Lemma pop_loop_spec t fuel i out s cells xs :
  lseg (heap s) (head_ s) cells xs →
  NoDup (cells ++ default [] (retired s !! t)) →
  (∀ r, r ∈ default [] (retired s !! t) → r ≠ 0%N ∧ is_Some (heap s !! r)) →
  owns t i (recs s) →
  (length (spur s) < fuel)%nat →
  ∃ s', run handle t (pop_loop fuel i out) s = Done (removed out xs, s') ∧
        stack_inv t s' (tl xs) ∧ (length (spur s') ≤ length (spur s))%nat.
Proof.
  revert s. induction fuel as [|fuel IH]; intros s Hseg Hnd Hret Hown Hfuel; [lia|].
  simpl. destruct (decide (head_ s = 0%N)) as [Hnull|Hhead].
  - rewrite Hnull in Hseg. apply lseg_null in Hseg as [-> ->]. simpl.
    eexists. split; [reflexivity|]. split; [|done].
    exists []. simpl. rewrite Hnull. split; [done|]. split; [done|]. split; [done|].
    eapply owns_available. apply owns_clear, owns_clear. done.
  - destruct (lseg_nonnull _ _ _ _ _ _ Hhead Hseg)
      as ([x nx] & cells' & xs' & -> & -> & Hlk & Hseg'). simpl in Hseg'.
    simpl. rewrite decide_False by (intros H; by apply H).
    simpl. rewrite Hlk. simpl. rewrite decide_True by done.
    assert (Hgo : ∀ sp, (length sp ≤ length (spur s))%nat →
      ∃ s', run handle t
          (v ← call (ReadValue (head_ s));
           _ ← call (HpClear i);
           _ ← call (Retire (head_ s));
           _ ← call (HpClear i);
           Ret (true, v))
          (mkState (heap s) nx (hp.set i (head_ s) (recs s)) (retired s) (allocs s) sp)
        = Done ((true, x), s') ∧
        stack_inv t s' xs' ∧ (length (spur s') ≤ length (spur s))%nat).
    { intros sp Hsp. simpl. rewrite Hlk. simpl.
      set (rl := default [] (retired s !! t)) in *.
      destruct (hp.retire (head_ s) (hp.clear i (hp.set i (head_ s) (recs s))) rl)
        as [[kept scanned] deleted] eqn:Hretire.
      simpl in Hnd. apply NoDup_cons in Hnd as [Hhd Hnd].
      assert (Hnd' : NoDup (rl ++ [head_ s])).
      { apply NoDup_app. apply NoDup_app in Hnd as (_ & _ & Hrl).
        split; [done|]. split; [|apply NoDup_singleton].
        intros r Hr Hr'. apply list_elem_of_singleton in Hr' as ->.
        apply Hhd. apply elem_of_app. by right. }
      assert (Hall : ∀ r, r ∈ rl ++ [head_ s] → r ≠ 0%N ∧ is_Some (heap s !! r)).
      { intros r Hr. apply elem_of_app in Hr as [Hr|Hr]; [by apply Hret|].
        apply list_elem_of_singleton in Hr as ->. split; [done|]. by eexists. }
      destruct (retire_ok _ _ _ _ _ _ _ Hnd' Hall Hretire)
        as (h' & Hdel & Hframe & Hkept & Hkin).
      rewrite Hdel. eexists. split; [reflexivity|]. simpl. split; [|done].
      exists cells'. simpl. rewrite lookup_insert_eq. simpl.
      split; [|split; [|split]].
      - eapply lseg_agree; [|done]. intros c Hc. apply Hframe.
        intros Hr. apply elem_of_app in Hr as [Hr|Hr].
        + apply NoDup_app in Hnd as (_ & Hdisj & _). by apply (Hdisj c).
        + apply list_elem_of_singleton in Hr as ->. apply Hhd. apply elem_of_app. by left.
      - apply NoDup_app. apply NoDup_app in Hnd as (Hc & Hdisj & _).
        split; [done|]. split; [|done].
        intros c Hc' Hk. destruct (Hkin c Hk) as [Hr _].
        apply elem_of_app in Hr as [Hr|Hr].
        + by apply (Hdisj c).
        + apply list_elem_of_singleton in Hr as ->. apply Hhd. apply elem_of_app. by left.
      - intros r Hr. destruct (Hkin r Hr) as (_ & ? & ?). done.
      - eapply owns_available. apply owns_clear, owns_clear, owns_set. done. }
    destruct (spur s) as [|[] sp] eqn:Hsp.
    + apply Hgo. simpl. lia.
    + (* spurious failure: retry *)
      simpl in Hfuel.
      destruct (IH (mkState (heap s) (head_ s) (hp.set i (head_ s) (recs s))
                            (retired s) (allocs s) sp)) as (s' & Hrun & Hinv & Hlen).
      * done.
      * done.
      * done.
      * apply owns_set. exact Hown.
      * simpl. lia.
      * exists s'. split; [exact Hrun|]. split; [done|]. simpl in Hlen. simpl. lia.
    + apply Hgo. simpl. lia.
Qed.

Lemma pop_spec t fuel out s xs :
  stack_inv t s xs → (length (spur s) < fuel)%nat →
  ∃ s', run handle t (pop fuel out) s = Done (removed out xs, s') ∧
        stack_inv t s' (tl xs) ∧ (length (spur s') ≤ length (spur s))%nat.
Proof.
  intros (cells & Hseg & Hnd & Hret & Hav) Hfuel.
  destruct (acquire_available _ _ Hav) as (i & recs' & Hacq & Hown).
  unfold pop. simpl. rewrite Hacq.
  apply (pop_loop_spec t fuel i out (mkState _ _ _ _ _ _) cells xs); done.
Qed.

End TreiberFacts.

(** * The elimination stack, run by one thread *)

Section EliminationFacts.
Import EliminationStack.

Local Abbreviation lseg := (lseg value next).

Lemma elim_inv_init allocs spur rng : elim_inv (init allocs spur rng) [].
Proof. exists []. split; [done|]. split; [constructor|done]. Qed.

Lemma slot_in_range (k : nat) : (k `mod` ELIM_ARRAY_SIZE < ELIM_ARRAY_SIZE)%nat.
Proof. apply Nat.mod_upper_bound. done. Qed.

Local Opaque ELIM_ARRAY_SIZE SPIN_ITERS Nat.modulo.

Lemma idle_slot (idx : nat) :
  (idx < ELIM_ARRAY_SIZE)%nat → replicate ELIM_ARRAY_SIZE 0%N !! idx = Some 0%N.
Proof. intros. by apply lookup_replicate_2. Qed.

Lemma idle_restore (idx : nat) (n : N) :
  <[idx := 0%N]> (<[idx := n]> (replicate ELIM_ARRAY_SIZE 0%N)) =
  replicate ELIM_ARRAY_SIZE 0%N.
Proof.
  rewrite list_insert_insert_eq. destruct (decide (idx < ELIM_ARRAY_SIZE)%nat).
  - apply list_insert_id. by apply idle_slot.
  - apply list_insert_ge. rewrite length_replicate. lia.
Qed.

(** Alone, nobody takes the offered node: the wait times out. *)
Lemma spin_wait_alone t iters idx n s :
  arena_ s !! idx = Some n →
  run handle t (spin_wait iters idx n) s = Done (false, s).
Proof.
  intros Hslot. induction iters as [|iters IH]; [done|].
  simpl. rewrite Hslot. simpl. rewrite decide_False by (intros H; by apply H).
  simpl. apply IH.
Qed.

(** Alone, the first offer is placed, times out and is taken back. *)
Lemma try_elim_push_alone t n s :
  arena_idle s →
  run handle t (try_elim_push n) s =
  Done ((false, n), mkState (heap s) (head_ s) (arena_ s) (allocs s) (spur s)
                            (tl (rng_ s))).
Proof.
  unfold arena_idle. intros Hidle. unfold try_elim_push. simpl.
  set (idx := (hd 0%nat (rng_ s) `mod` ELIM_ARRAY_SIZE)%nat).
  assert (Hidx : (idx < ELIM_ARRAY_SIZE)%nat) by apply slot_in_range.
  rewrite Hidle, idle_slot by done. simpl.
  rewrite run_bind.
  rewrite spin_wait_alone; simpl.
  2:{ apply list_lookup_insert_eq. by rewrite length_replicate. }
  rewrite list_lookup_insert_eq by (by rewrite length_replicate). simpl.
  rewrite decide_True by done. simpl. unfold set_arena. simpl.
  by rewrite idle_restore.
Qed.

(** Alone, every slot the popper probes is empty. *)
Lemma try_elim_pop_from_alone t attempts out s :
  arena_idle s →
  run handle t (try_elim_pop_from attempts out) s =
  Done ((false, out), mkState (heap s) (head_ s) (arena_ s) (allocs s) (spur s)
                              (drop attempts (rng_ s))).
Proof.
  unfold arena_idle. revert s. induction attempts as [|attempts IH]; intros s Hidle.
  - simpl. by destruct s.
  - simpl. rewrite Hidle, idle_slot by apply slot_in_range. simpl.
    rewrite IH; simpl.
    + rewrite list_insert_id by apply idle_slot, slot_in_range.
      destruct (rng_ s); simpl; [by rewrite drop_nil|done].
    + apply list_insert_id, idle_slot, slot_in_range.
Qed.

Lemma try_elim_pop_alone t out s :
  arena_idle s →
  run handle t (try_elim_pop out) s =
  Done ((false, out), mkState (heap s) (head_ s) (arena_ s) (allocs s) (spur s)
                              (drop ELIM_TRIES (rng_ s))).
Proof. apply try_elim_pop_from_alone. Qed.

Local Opaque try_elim_push try_elim_pop CAS_THRESHOLD.

Lemma elim_push_loop_spec t fuel n c s nd cells xs :
  lseg (heap s) (head_ s) cells xs → NoDup cells → arena_idle s →
  heap s !! n = Some nd → n ∉ cells → n ≠ 0%N →
  (length (spur s) < fuel)%nat →
  ∃ s', run handle t (push_loop fuel n c) s = Done (tt, s') ∧
        elim_inv s' (value nd :: xs) ∧ (length (spur s') ≤ length (spur s))%nat.
Proof.
  revert s c nd. induction fuel as [|fuel IH];
    intros s c nd Hseg Hnd Hidle Hn Hnc Hn0 Hfuel; [lia|].
  simpl. rewrite Hn. simpl. rewrite decide_True by done.
  assert (Hseg1 : lseg (<[n := mkNode (value nd) (head_ s)]> (heap s)) (head_ s) cells xs).
  { eapply lseg_agree; [|done]. intros c' Hc'. rewrite lookup_insert_ne; [done|].
    by intros ->. }
  assert (Hgo : ∀ sp,
    elim_inv (mkState (<[n := mkNode (value nd) (head_ s)]> (heap s)) n (arena_ s)
                      (allocs s) sp (rng_ s)) (value nd :: xs)).
  { intros sp. exists (n :: cells). split; [|split; [by apply NoDup_cons|done]].
    simpl. split; [done|]. split; [done|].
    eexists. split; [apply lookup_insert_eq|]. by split. }
  destruct (spur s) as [|[] sp] eqn:Hsp; simpl.
  - eexists. split; [reflexivity|]. split; [apply Hgo|]. simpl. lia.
  - simpl in Hfuel. case_decide as Hthr.
    + rewrite run_bind, try_elim_push_alone by done. simpl.
      destruct (IH (mkState (<[n := mkNode (value nd) (head_ s)]> (heap s)) (head_ s)
                            (arena_ s) (allocs s) sp (tl (rng_ s))) 0%nat
                   (mkNode (value nd) (head_ s)))
        as (s' & Hrun & Hinv & Hlen); simpl; try done.
      * apply lookup_insert_eq.
      * lia.
      * exists s'. split; [done|]. split; [done|]. simpl in Hlen. lia.
    + destruct (IH (mkState (<[n := mkNode (value nd) (head_ s)]> (heap s)) (head_ s)
                            (arena_ s) (allocs s) sp (rng_ s)) (S c)
                   (mkNode (value nd) (head_ s)))
        as (s' & Hrun & Hinv & Hlen); simpl; try done.
      * apply lookup_insert_eq.
      * lia.
      * exists s'. split; [done|]. split; [done|]. simpl in Hlen. lia.
  - eexists. split; [reflexivity|]. split; [apply Hgo|]. simpl. lia.
Qed.

Lemma elim_push_spec t fuel v s xs :
  elim_inv s xs → (length (spur s) < fuel)%nat →
  ∃ s', run handle t (push fuel v) s = Done (tt, s') ∧
        elim_inv s' (v :: xs) ∧ (length (spur s') ≤ length (spur s))%nat.
Proof.
  intros (cells & Hseg & Hnd & Hidle) Hfuel.
  set (n := pick_addr (hd 0%N (allocs s)) (heap s)).
  assert (Hfresh : heap s !! n = None) by apply pick_addr_fresh.
  assert (Hn0 : n ≠ 0%N) by apply pick_addr_nonnull.
  assert (Hnc : n ∉ cells).
  { intros Hin. destruct (lseg_allocated _ _ _ _ _ _ _ Hseg Hin) as [_ [? ?]]. congruence. }
  unfold push. simpl. fold n.
  apply (elim_push_loop_spec t fuel n 0%nat (mkState _ _ _ _ _ _) (mkNode v 0%N) cells xs);
    simpl; try done.
  - eapply lseg_agree; [|done]. intros c' Hc'. rewrite lookup_insert_ne; [done|].
    by intros ->.
  - apply lookup_insert_eq.
Qed.

Lemma elim_pop_loop_spec t fuel out c s xs :
  elim_inv s xs → (length (spur s) < fuel)%nat →
  ∃ s', run handle t (pop_loop fuel out c) s = Done (removed out xs, s') ∧
        elim_inv s' (tl xs) ∧ (length (spur s') ≤ length (spur s))%nat.
Proof.
  revert s c. induction fuel as [|fuel IH];
    intros s c (cells & Hseg & Hnd & Hidle) Hfuel; [lia|].
  simpl. destruct (decide (head_ s = 0%N)) as [Hnull|Hhead].
  - rewrite Hnull in Hseg. apply lseg_null in Hseg as [-> ->]. simpl.
    rewrite run_bind, try_elim_pop_alone by done. simpl.
    eexists. split; [reflexivity|]. split; [|done].
    exists []. rewrite Hnull. split; [done|]. split; [constructor|done].
  - destruct (lseg_nonnull _ _ _ _ _ _ Hhead Hseg)
      as ([x nx] & cells' & xs' & -> & -> & Hlk & Hseg'). simpl in Hseg'.
    simpl. rewrite Hlk. simpl. rewrite decide_True by done.
    apply NoDup_cons in Hnd as [Hhd Hnd].
    assert (Hgo : ∀ sp,
      elim_inv (mkState (delete (head_ s) (heap s)) nx (arena_ s) (allocs s) sp (rng_ s)) xs').
    { intros sp. exists cells'. split; [|by split]. simpl.
      eapply lseg_agree; [|done]. intros c' Hc'. rewrite lookup_delete_ne; [done|].
      by intros <-. }
    assert (Hself : elim_inv s (x :: xs')).
    { exists (head_ s :: cells'). split; [|split; [by apply NoDup_cons|done]].
      simpl. split; [done|]. split; [done|]. by exists (mkNode x nx). }
    destruct (spur s) as [|[] sp] eqn:Hsp; simpl.
    + rewrite Hlk. simpl. unfold delete_node. rewrite decide_False by done. rewrite Hlk.
      eexists. split; [reflexivity|]. split; [apply Hgo|]. simpl. lia.
    + case_decide as Hthr.
      * rewrite run_bind, try_elim_pop_alone by done. simpl.
        destruct (IH (mkState (heap s) (head_ s) (arena_ s) (allocs s) sp
                              (drop ELIM_TRIES (rng_ s))) 0%nat)
          as (s' & Hrun & Hinv & Hlen); [done|simpl in *; lia|].
        exists s'. split; [done|]. split; [done|]. simpl in Hlen. lia.
      * destruct (IH (mkState (heap s) (head_ s) (arena_ s) (allocs s) sp (rng_ s)) (S c))
          as (s' & Hrun & Hinv & Hlen); [done|simpl in *; lia|].
        exists s'. split; [done|]. split; [done|]. simpl in Hlen. lia.
    + rewrite Hlk. simpl. unfold delete_node. rewrite decide_False by done. rewrite Hlk.
      eexists. split; [reflexivity|]. split; [apply Hgo|]. simpl. lia.
Qed.

End EliminationFacts.

(** * The Michael-Scott queue, run by one thread *)

Section MSQueueFacts.
Import MSQueue.
Implicit Types (h : gmap N Node).

Lemma qchain_agree h h' p cells xs last :
  (∀ c, c ∈ p :: cells → h' !! c = h !! c) →
  qchain h p cells xs last → qchain h' p cells xs last.
Proof.
  revert p xs. induction cells as [|c cells IH]; intros p [|x xs] Hag; simpl; try done.
  - intros [-> (nd & Hlk & Hnx)]. split; [done|]. exists nd. split; [|done].
    rewrite Hag; [done|]. apply elem_of_cons; by left.
  - intros (Hc & (nd & Hlk & Hnx) & (nc & Hlkc & Hv) & Hch). split; [done|].
    split; [|split].
    + exists nd. split; [|done]. rewrite Hag; [done|]. apply elem_of_cons; by left.
    + exists nc. split; [|done]. rewrite Hag; [done|].
      apply elem_of_cons; right. apply elem_of_cons; by left.
    + apply IH; [|done]. intros c' Hc'. apply Hag. apply elem_of_cons; by right.
Qed.

Lemma qchain_allocated h p cells xs last c :
  qchain h p cells xs last → c ∈ p :: cells → is_Some (h !! c).
Proof.
  revert p xs. induction cells as [|c' cells IH]; intros p [|x xs]; simpl; try done.
  - intros [_ (nd & Hlk & _)] Hc. apply list_elem_of_singleton in Hc as ->. by eexists.
  - intros (_ & (nd & Hlk & _) & _ & Hch) Hc.
    apply elem_of_cons in Hc as [->|Hc]; [by eexists|]. by eapply IH.
Qed.

Lemma qchain_last h p cells xs last :
  qchain h p cells xs last →
  last ∈ p :: cells ∧ (cells ≠ [] → last ∈ cells) ∧
  ∃ nd, h !! last = Some nd ∧ next nd = 0%N.
Proof.
  revert p xs. induction cells as [|c cells IH]; intros p [|x xs]; simpl; try done.
  - intros [-> Hnd]. split; [apply elem_of_cons; by left|]. by split.
  - intros (_ & _ & _ & Hch). destruct (IH _ _ Hch) as (Hin & _ & Hnd).
    split; [apply elem_of_cons; by right|]. by split.
Qed.

Lemma qchain_snoc h p cells xs last n v ndl :
  qchain h p cells xs last → NoDup (p :: cells) → n ∉ p :: cells → n ≠ 0%N →
  h !! n = Some (mkNode 0%N (Some v)) → h !! last = Some ndl →
  qchain (<[last := mkNode n (value ndl)]> h) p (cells ++ [n]) (xs ++ [v]) n.
Proof.
  revert p xs. induction cells as [|c cells IH]; intros p [|x xs]; simpl; try done.
  - intros [-> _] _ Hn Hn0 Hlkn Hlkl. split; [done|].
    assert (n ≠ p) by (intros ->; apply Hn, elem_of_cons; by left).
    split; [|split; [|split; [done|]]].
    + eexists. split; [apply lookup_insert_eq|done].
    + eexists. rewrite lookup_insert_ne by done. split; [done|done].
    + eexists. rewrite lookup_insert_ne by done. split; [done|done].
  - intros (Hc & (nd & Hlk & Hnx) & (nc & Hlkc & Hv) & Hch) Hnd Hn Hn0 Hlkn Hlkl.
    apply NoDup_cons in Hnd as [Hp Hnd].
    destruct (qchain_last _ _ _ _ _ Hch) as (Hlast & _ & _).
    assert (last ≠ p) by (intros ->; done).
    split; [done|]. split; [|split].
    + exists nd. by rewrite lookup_insert_ne.
    + destruct (decide (last = c)) as [->|Hne].
      * eexists. split; [apply lookup_insert_eq|]. simpl. congruence.
      * exists nc. by rewrite lookup_insert_ne.
    + apply IH; try done. intros Hin. apply Hn. apply elem_of_cons. by right.
Qed.

Lemma queue_inv_init t allocs spur : queue_inv t (init allocs spur) [].
Proof.
  exists []. unfold init. simpl.
  split; [apply pick_addr_nonnull|]. split; [|split; [|split]].
  - split; [done|]. eexists. split; [apply lookup_insert_eq|done].
  - rewrite lookup_empty. simpl. apply NoDup_singleton.
  - rewrite lookup_empty. simpl. intros r Hr. by apply elem_of_nil in Hr.
  - apply available_init.
Qed.

Lemma enqueue_loop_spec t fuel n v s cells xs :
  head_ s ≠ 0%N →
  qchain (heap s) (head_ s) cells xs (tail_ s) →
  NoDup ((head_ s :: cells) ++ default [] (retired s !! t)) →
  (∀ r, r ∈ default [] (retired s !! t) → r ≠ 0%N ∧ is_Some (heap s !! r)) →
  available t (recs s) →
  heap s !! n = Some (mkNode 0%N (Some v)) → n ∉ head_ s :: cells → n ≠ 0%N →
  n ∉ default [] (retired s !! t) →
  (length (spur s) < fuel)%nat →
  ∃ s', run handle t (enqueue_loop fuel n) s = Done (tt, s') ∧
        queue_inv t s' (xs ++ [v]) ∧ (length (spur s') ≤ length (spur s))%nat.
Proof.
  revert s. induction fuel as [|fuel IH];
    intros s Hh0 Hch Hnd Hret Hav Hn Hnc Hn0 Hnr Hfuel; [lia|].
  destruct (qchain_last _ _ _ _ _ Hch) as (Hlast & _ & ndl & Hlkl & Hnxl).
  simpl. rewrite Hlkl. simpl. rewrite decide_True by done. simpl.
  rewrite Hnxl. rewrite decide_True by done. simpl. rewrite Hlkl.
  rewrite decide_True by done.
  assert (Hgo : ∀ sp,
    queue_inv t (mkState (<[tail_ s := mkNode n (value ndl)]> (heap s)) (head_ s) n
                         (recs s) (retired s) (allocs s) sp) (xs ++ [v])).
  { intros sp. exists (cells ++ [n]). simpl. split; [done|].
    apply NoDup_app in Hnd as (Hcells & Hdisj & Hrl).
    split; [|split; [|split; [|done]]].
    - by eapply qchain_snoc.
    - rewrite app_comm_cons. apply NoDup_app. split; [|split; [|done]].
      + rewrite app_comm_cons. apply NoDup_app. split; [done|].
        split; [|apply NoDup_singleton].
        intros c Hc Hc'. apply list_elem_of_singleton in Hc' as ->. done.
      + intros c Hc. rewrite app_comm_cons in Hc. apply elem_of_app in Hc as [Hc|Hc].
        * by apply Hdisj.
        * apply list_elem_of_singleton in Hc as ->. done.
    - intros r Hr. destruct (Hret r Hr) as [Hr0 Hrs]. split; [done|].
      rewrite lookup_insert_ne; [done|]. intros <-. by apply (Hdisj (tail_ s)). }
  destruct (spur s) as [|[] sp] eqn:Hsp; simpl.
  - rewrite decide_True by done. simpl.
    eexists. split; [reflexivity|]. split; [apply Hgo|]. simpl. lia.
  - simpl in Hfuel.
    destruct (IH (set_spur sp s)) as (s' & Hrun & Hinv & Hlen); simpl; try done; [lia|].
    exists s'. split; [done|]. split; [done|]. simpl in Hlen. lia.
  - rewrite decide_True by done. simpl.
    eexists. split; [reflexivity|]. split; [apply Hgo|]. simpl. lia.
Qed.

Lemma enqueue_spec t fuel v s xs :
  queue_inv t s xs → (length (spur s) < fuel)%nat →
  ∃ s', run handle t (enqueue fuel v) s = Done (tt, s') ∧
        queue_inv t s' (xs ++ [v]) ∧ (length (spur s') ≤ length (spur s))%nat.
Proof.
  intros (cells & Hh0 & Hch & Hnd & Hret & Hav) Hfuel.
  set (n := pick_addr (hd 0%N (allocs s)) (heap s)).
  assert (Hfresh : heap s !! n = None) by apply pick_addr_fresh.
  assert (Hn0 : n ≠ 0%N) by apply pick_addr_nonnull.
  assert (Hnc : n ∉ head_ s :: cells).
  { intros Hin. destruct (qchain_allocated _ _ _ _ _ _ Hch Hin). congruence. }
  assert (Hnr : n ∉ default [] (retired s !! t)).
  { intros Hin. destruct (Hret n Hin) as [_ [? ?]]. congruence. }
  unfold enqueue. simpl. fold n.
  apply (enqueue_loop_spec t fuel n v
           (mkState (<[n := mkNode 0%N (Some v)]> (heap s)) (head_ s) (tail_ s) (recs s)
                    (retired s) (tl (allocs s)) (spur s)) cells xs); simpl; try done.
  - eapply qchain_agree; [|done]. intros c Hc. rewrite lookup_insert_ne; [done|].
    by intros ->.
  - intros r Hr. destruct (Hret r Hr) as [Hr0 Hrs]. split; [done|].
    rewrite lookup_insert_ne; [done|]. by intros ->.
  - apply lookup_insert_eq.
Qed.

Lemma dequeue_spec t fuel out s xs :
  queue_inv t s xs → (0 < fuel)%nat →
  ∃ s', run handle t (dequeue fuel out) s = Done (removed out xs, s') ∧
        queue_inv t s' (tl xs) ∧ (length (spur s') ≤ length (spur s))%nat.
Proof.
  intros (cells & Hh0 & Hch & Hnd & Hret & Hav) Hfuel.
  destruct fuel as [|fuel]; [lia|].
  destruct (acquire_available _ _ Hav) as (i & recs' & Hacq & Hown).
  unfold dequeue. simpl. rewrite Hacq. simpl.
  destruct cells as [|c cells], xs as [|x xs]; simpl in Hch; try done.
  - (* empty *)
    destruct Hch as [Htl (nd & Hlk & Hnx)]. rewrite Hlk. simpl.
    rewrite decide_False by (intros H; by apply H). rewrite Hnx.
    rewrite decide_True by done. simpl.
    eexists. split; [reflexivity|]. split; [|done].
    exists []. simpl. split; [done|]. split; [|split; [done|split; [done|]]].
    + split; [done|]. by exists nd.
    + eapply owns_available. apply owns_clear, owns_set. done.
  - destruct Hch as (Hc & (nd & Hlk & Hnx) & (nc & Hlkc & Hv) & Hch).
    rewrite Hlk. simpl. rewrite decide_False by (intros H; by apply H). rewrite Hnx.
    rewrite decide_False by done.
    destruct (qchain_last _ _ _ _ _ Hch) as (Hlast & _ & _).
    simpl in Hnd. apply NoDup_cons in Hnd as [Hhd Hnd].
    rewrite app_comm_cons in Hhd, Hnd.
    apply NoDup_app in Hnd as (Hcs & Hdisj & Hrl).
    rewrite decide_False.
    2:{ intros Heq. apply Hhd. rewrite Heq. apply elem_of_app. by left. }
    simpl. rewrite decide_True by done. simpl. rewrite Hlkc, Hv. simpl.
    set (rl := default [] (retired s !! t)) in *.
    destruct (hp.retire (head_ s) (hp.clear i (hp.set i (head_ s) recs')) rl)
      as [[kept scanned] deleted] eqn:Hretire.
    assert (Hnd' : NoDup (rl ++ [head_ s])).
    { apply NoDup_app. split; [done|]. split; [|apply NoDup_singleton].
      intros r Hr Hr'. apply list_elem_of_singleton in Hr' as ->.
      apply Hhd. apply elem_of_app. by right. }
    assert (Hall : ∀ r, r ∈ rl ++ [head_ s] → r ≠ 0%N ∧ is_Some (heap s !! r)).
    { intros r Hr. apply elem_of_app in Hr as [Hr|Hr]; [by apply Hret|].
      apply list_elem_of_singleton in Hr as ->. split; [done|]. by eexists. }
    destruct (retire_ok _ _ _ _ _ _ _ Hnd' Hall Hretire)
      as (h' & Hdel & Hframe & Hkept & Hkin).
    rewrite Hdel. eexists. split; [reflexivity|]. simpl. split; [|done].
    exists cells. simpl. rewrite lookup_insert_eq. simpl.
    assert (Hout : ∀ q, q ∈ c :: cells → q ∉ rl ++ [head_ s]).
    { intros q Hq Hin. apply elem_of_app in Hin as [Hin|Hin].
      - by apply (Hdisj q).
      - apply list_elem_of_singleton in Hin as ->. apply Hhd.
        apply elem_of_app. by left. }
    split; [done|]. split; [|split; [|split]].
    + eapply qchain_agree; [|done]. intros q Hq. by apply Hframe, Hout.
    + rewrite app_comm_cons. apply NoDup_app.
      split; [done|]. split; [|done].
      intros q Hq Hk. destruct (Hkin q Hk) as [Hr _]. by apply (Hout q).
    + intros r Hr. destruct (Hkin r Hr) as (_ & ? & ?). done.
    + eapply owns_available. apply owns_clear, owns_clear, owns_set. done.
Qed.

End MSQueueFacts.

(** * The flat-combining stack, run by one thread *)

Section FlatCombiningStackFacts.
Import FlatCombiningStack.
Implicit Types (rq : gmap N Request).

Lemma fcs_combine_stuck (requests : list N) (o : outcome (list Z * gmap N Request)) :
  (∀ x, o ≠ Done x) → foldl (λ acc r, combine_one r acc) o requests = o.
Proof.
  induction requests as [|r requests IH]; intros Ho; [done|].
  simpl. destruct o as [x| | |]; simpl; try (by apply IH). by destruct (Ho x).
Qed.

Lemma fcs_combine_idle requests data rq :
  (∀ r, r ∈ requests → fcs_idle rq r) → combine requests data rq = Done (data, rq).
Proof.
  unfold combine. induction requests as [|r requests IH]; intros Hidle; [done|].
  simpl. destruct (Hidle r) as (rec & Hlk & Hop); [apply elem_of_cons; by left|].
  rewrite Hlk, Hop. apply IH. intros r' Hr'. apply Hidle. apply elem_of_cons. by right.
Qed.

Lemma fcs_combine_one_frame r data rq data' rq' r' :
  combine_one r (Done (data, rq)) = Done (data', rq') → r' ≠ r → rq' !! r' = rq !! r'.
Proof.
  simpl. destruct (rq !! r) as [rec|]; [|done].
  destruct (op rec); [| |destruct (last data)]; intros Heq Hne;
    inversion Heq; subst; try done; by rewrite lookup_insert_ne.
Qed.

(** When only record [r] has an operation pending, [combine] does what
    its loop body does on [r]. *)
Lemma fcs_combine_mine requests r data rq :
  NoDup requests → r ∈ requests →
  (∀ r', r' ∈ requests → r' ≠ r → fcs_idle rq r') →
  combine requests data rq = combine_one r (Done (data, rq)).
Proof.
  unfold combine. induction requests as [|a requests IH]; intros Hnd Hin Hidle.
  - by apply elem_of_nil in Hin.
  - apply NoDup_cons in Hnd as [Ha Hnd]. cbn [foldl].
    destruct (decide (a = r)) as [->|Hne].
    + clear IH. destruct (combine_one r (Done (data, rq))) as [[data' rq']| | |] eqn:Hone;
        try (by apply fcs_combine_stuck).
      apply (fcs_combine_idle requests data' rq'). intros r' Hr'.
      assert (r' ≠ r) by (by intros ->).
      destruct (Hidle r') as (rec & Hlk & Hop); [apply elem_of_cons; by right|done|].
      exists rec. split; [|done]. by rewrite (fcs_combine_one_frame _ _ _ _ _ _ Hone).
    + destruct (Hidle a) as (rec & Hlk & Hop); [apply elem_of_cons; by left|done|].
      simpl. rewrite Hlk, Hop. apply IH; [done| |].
      * apply elem_of_cons in Hin as [->|Hin]; done.
      * intros r' Hr' Hne'. apply Hidle; [|done]. apply elem_of_cons. by right.
Qed.

Lemma fcs_get_request_spec this t s data :
  fcs_inv this t s data →
  ∃ r s', run handle t (get_request this) s = Done (r, s') ∧ fcs_linked this t s' data r.
Proof.
  intros (requests & Hobj & Hnd & Hidle & Htls).
  unfold get_request. simpl.
  destruct (decide (default 0%N (tls_req_ s !! t) = 0%N)) as [Hz|Hnz].
  - simpl. rewrite Hobj. simpl. rewrite lookup_insert_eq. simpl.
    set (r := pick_addr (hd 0%N (allocs s)) (reqs s)).
    assert (Hfresh : reqs s !! r = None) by apply pick_addr_fresh.
    assert (Hnr : r ∉ requests).
    { intros Hin. destruct (Hidle r Hin) as (? & ? & _). congruence. }
    eexists _, _. split; [reflexivity|].
    exists (requests ++ [r]). simpl. rewrite !lookup_insert_eq. simpl.
    split; [done|]. split; [|split; [|split; [|done]]].
    + apply NoDup_app. split; [done|]. split; [|apply NoDup_singleton].
      intros x Hx Hx'. apply list_elem_of_singleton in Hx' as ->. done.
    + intros r' Hr'. apply elem_of_app in Hr' as [Hr'|Hr'].
      * destruct (Hidle r' Hr') as (rec & Hlk & Hop). exists rec. split; [|done].
        rewrite lookup_insert_ne; [done|]. by intros <-.
      * apply list_elem_of_singleton in Hr' as ->. eexists.
        split; [apply lookup_insert_eq|done].
    + apply elem_of_app. right. by apply list_elem_of_singleton.
  - simpl. destruct Htls as [?|Hin]; [done|].
    eexists _, _. split; [reflexivity|]. by exists requests.
Qed.

Lemma fcs_push_spec this t s data v :
  fcs_inv this t s data →
  ∃ s', run handle t (push this v) s = Done (tt, s') ∧ fcs_inv this t s' (data ++ [v]).
Proof.
  intros Hinv. destruct (fcs_get_request_spec _ _ _ _ Hinv) as (r & s1 & Hget & Hlinked).
  destruct Hlinked as (requests & Hobj & Hnd & Hidle & Hin & Htls).
  destruct (Hidle r Hin) as (rec & Hlk & Hop).
  unfold push. rewrite run_bind, Hget. simpl.
  rewrite Hlk. repeat (progress (simpl; rewrite ?lookup_insert_eq)).
  rewrite Hobj. simpl. rewrite !insert_insert_eq.
  rewrite (fcs_combine_mine requests r); [|done|done|].
  2:{ intros r' Hr' Hne. destruct (Hidle r' Hr') as (rec' & Hlk' & Hop').
      exists rec'. by rewrite lookup_insert_ne. }
  simpl. rewrite lookup_insert_eq. simpl. rewrite insert_insert_eq.
  eexists. split; [reflexivity|].
  exists requests. simpl. rewrite lookup_insert_eq. split; [done|]. split; [done|].
  split; [|right; by rewrite Htls].
  intros r' Hr'. destruct (decide (r' = r)) as [->|Hne].
  - eexists. split; [apply lookup_insert_eq|done].
  - destruct (Hidle r' Hr') as (rec' & Hlk' & Hop').
    exists rec'. by rewrite lookup_insert_ne.
Qed.

Lemma fcs_pop_spec this t s data out :
  fcs_inv this t s data →
  ∃ s', run handle t (pop this out) s = Done (fcs_pop_result out data, s') ∧
        fcs_inv this t s' (removelast data).
Proof.
  intros Hinv. destruct (fcs_get_request_spec _ _ _ _ Hinv) as (r & s1 & Hget & Hlinked).
  destruct Hlinked as (requests & Hobj & Hnd & Hidle & Hin & Htls).
  destruct (Hidle r Hin) as (rec & Hlk & Hop).
  unfold pop. rewrite run_bind, Hget. simpl.
  rewrite Hlk. repeat (progress (simpl; rewrite ?lookup_insert_eq)).
  rewrite Hobj. simpl. rewrite !insert_insert_eq.
  rewrite (fcs_combine_mine requests r); [|done|done|].
  2:{ intros r' Hr' Hne. destruct (Hidle r' Hr') as (rec' & Hlk' & Hop').
      exists rec'. by rewrite lookup_insert_ne. }
  simpl. rewrite lookup_insert_eq. simpl. unfold fcs_pop_result.
  assert (Hrest : ∀ rec', op rec' = NONE →
    ∀ r', r' ∈ requests → fcs_idle (<[r := rec']> (reqs s1)) r').
  { intros rec' Hop' r' Hr'. destruct (decide (r' = r)) as [->|Hne].
    - exists rec'. split; [apply lookup_insert_eq|done].
    - destruct (Hidle r' Hr') as (rec'' & Hlk'' & Hop'').
      exists rec''. by rewrite lookup_insert_ne. }
  destruct (last data) as [back|] eqn:Hlast;
    repeat (progress (simpl; rewrite ?lookup_insert_eq)); rewrite insert_insert_eq.
  - eexists. split; [reflexivity|].
    exists requests. simpl. rewrite lookup_insert_eq. split; [done|]. split; [done|].
    split; [by apply Hrest|right; by rewrite Htls].
  - eexists. split; [reflexivity|].
    exists requests. simpl. rewrite lookup_insert_eq.
    apply last_None in Hlast as ->. split; [done|]. split; [done|].
    split; [by apply Hrest|right; by rewrite Htls].
Qed.

Lemma fcs_construct_spec t allocs :
  ∃ this s, run handle t (call Construct) (init allocs) = Done (this, s) ∧
            fcs_inv this t s [].
Proof.
  eexists _, _. split; [reflexivity|].
  exists []. simpl. rewrite lookup_insert_eq. split; [done|]. split; [constructor|].
  split; [|by left]. intros r Hr. by apply elem_of_nil in Hr.
Qed.

End FlatCombiningStackFacts.

(** * The flat-combining queue, run by one thread *)

Section FlatCombiningQueueFacts.
Import FlatCombiningQueue.
Implicit Types (rq : gmap N Request).

Lemma fcq_combine_stuck (requests : list N) (o : outcome (list Z * gmap N Request)) :
  (∀ x, o ≠ Done x) → foldl (λ acc r, combine_one r acc) o requests = o.
Proof.
  induction requests as [|r requests IH]; intros Ho; [done|].
  simpl. destruct o as [x| | |]; simpl; try (by apply IH). by destruct (Ho x).
Qed.

Lemma fcq_combine_idle requests data rq :
  (∀ r, r ∈ requests → fcq_idle rq r) → combine requests data rq = Done (data, rq).
Proof.
  unfold combine. induction requests as [|r requests IH]; intros Hidle; [done|].
  simpl. destruct (Hidle r) as (rec & Hlk & Hop); [apply elem_of_cons; by left|].
  rewrite Hlk, Hop. apply IH. intros r' Hr'. apply Hidle. apply elem_of_cons. by right.
Qed.

Lemma fcq_combine_one_frame r data rq data' rq' r' :
  combine_one r (Done (data, rq)) = Done (data', rq') → r' ≠ r → rq' !! r' = rq !! r'.
Proof.
  simpl. destruct (rq !! r) as [rec|]; [|done].
  destruct (op rec); [| |destruct data]; intros Heq Hne;
    inversion Heq; subst; try done; by rewrite lookup_insert_ne.
Qed.

(** When only record [r] has an operation pending, [combine] does what
    its loop body does on [r]. *)
Lemma fcq_combine_mine requests r data rq :
  NoDup requests → r ∈ requests →
  (∀ r', r' ∈ requests → r' ≠ r → fcq_idle rq r') →
  combine requests data rq = combine_one r (Done (data, rq)).
Proof.
  unfold combine. induction requests as [|a requests IH]; intros Hnd Hin Hidle.
  - by apply elem_of_nil in Hin.
  - apply NoDup_cons in Hnd as [Ha Hnd]. cbn [foldl].
    destruct (decide (a = r)) as [->|Hne].
    + clear IH. destruct (combine_one r (Done (data, rq))) as [[data' rq']| | |] eqn:Hone;
        try (by apply fcq_combine_stuck).
      apply (fcq_combine_idle requests data' rq'). intros r' Hr'.
      assert (r' ≠ r) by (by intros ->).
      destruct (Hidle r') as (rec & Hlk & Hop); [apply elem_of_cons; by right|done|].
      exists rec. split; [|done]. by rewrite (fcq_combine_one_frame _ _ _ _ _ _ Hone).
    + destruct (Hidle a) as (rec & Hlk & Hop); [apply elem_of_cons; by left|done|].
      simpl. rewrite Hlk, Hop. apply IH; [done| |].
      * apply elem_of_cons in Hin as [->|Hin]; done.
      * intros r' Hr' Hne'. apply Hidle; [|done]. apply elem_of_cons. by right.
Qed.

Lemma fcq_get_request_spec this t s data :
  fcq_inv this t s data →
  ∃ r s', run handle t (get_request this) s = Done (r, s') ∧ fcq_linked this t s' data r.
Proof.
  intros (requests & Hobj & Hnd & Hidle & Htls).
  unfold get_request. simpl.
  destruct (decide (default 0%N (tls_req_ s !! t) = 0%N)) as [Hz|Hnz].
  - simpl. rewrite Hobj. simpl. rewrite lookup_insert_eq. simpl.
    set (r := pick_addr (hd 0%N (allocs s)) (reqs s)).
    assert (Hfresh : reqs s !! r = None) by apply pick_addr_fresh.
    assert (Hnr : r ∉ requests).
    { intros Hin. destruct (Hidle r Hin) as (? & ? & _). congruence. }
    eexists _, _. split; [reflexivity|].
    exists (requests ++ [r]). simpl. rewrite !lookup_insert_eq. simpl.
    split; [done|]. split; [|split; [|split; [|done]]].
    + apply NoDup_app. split; [done|]. split; [|apply NoDup_singleton].
      intros x Hx Hx'. apply list_elem_of_singleton in Hx' as ->. done.
    + intros r' Hr'. apply elem_of_app in Hr' as [Hr'|Hr'].
      * destruct (Hidle r' Hr') as (rec & Hlk & Hop). exists rec. split; [|done].
        rewrite lookup_insert_ne; [done|]. by intros <-.
      * apply list_elem_of_singleton in Hr' as ->. eexists.
        split; [apply lookup_insert_eq|done].
    + apply elem_of_app. right. by apply list_elem_of_singleton.
  - simpl. destruct Htls as [?|Hin]; [done|].
    eexists _, _. split; [reflexivity|]. by exists requests.
Qed.

Lemma fcq_enqueue_spec this t s data v :
  fcq_inv this t s data →
  ∃ s', run handle t (enqueue this v) s = Done (tt, s') ∧ fcq_inv this t s' (data ++ [v]).
Proof.
  intros Hinv. destruct (fcq_get_request_spec _ _ _ _ Hinv) as (r & s1 & Hget & Hlinked).
  destruct Hlinked as (requests & Hobj & Hnd & Hidle & Hin & Htls).
  destruct (Hidle r Hin) as (rec & Hlk & Hop).
  unfold enqueue. rewrite run_bind, Hget. simpl.
  rewrite Hlk. repeat (progress (simpl; rewrite ?lookup_insert_eq)).
  rewrite Hobj. simpl. rewrite !insert_insert_eq.
  rewrite (fcq_combine_mine requests r); [|done|done|].
  2:{ intros r' Hr' Hne. destruct (Hidle r' Hr') as (rec' & Hlk' & Hop').
      exists rec'. by rewrite lookup_insert_ne. }
  simpl. rewrite lookup_insert_eq. simpl. rewrite insert_insert_eq.
  eexists. split; [reflexivity|].
  exists requests. simpl. rewrite lookup_insert_eq. split; [done|]. split; [done|].
  split; [|right; by rewrite Htls].
  intros r' Hr'. destruct (decide (r' = r)) as [->|Hne].
  - eexists. split; [apply lookup_insert_eq|done].
  - destruct (Hidle r' Hr') as (rec' & Hlk' & Hop').
    exists rec'. by rewrite lookup_insert_ne.
Qed.

Lemma fcq_dequeue_spec this t s data out :
  fcq_inv this t s data →
  ∃ s', run handle t (dequeue this out) s = Done (fcq_dequeue_result out data, s') ∧
        fcq_inv this t s' (tl data).
Proof.
  intros Hinv. destruct (fcq_get_request_spec _ _ _ _ Hinv) as (r & s1 & Hget & Hlinked).
  destruct Hlinked as (requests & Hobj & Hnd & Hidle & Hin & Htls).
  destruct (Hidle r Hin) as (rec & Hlk & Hop).
  unfold dequeue. rewrite run_bind, Hget. simpl.
  rewrite Hlk. repeat (progress (simpl; rewrite ?lookup_insert_eq)).
  rewrite Hobj. simpl. rewrite !insert_insert_eq.
  rewrite (fcq_combine_mine requests r); [|done|done|].
  2:{ intros r' Hr' Hne. destruct (Hidle r' Hr') as (rec' & Hlk' & Hop').
      exists rec'. by rewrite lookup_insert_ne. }
  simpl. rewrite lookup_insert_eq. simpl. unfold fcq_dequeue_result.
  assert (Hrest : ∀ rec', op rec' = NONE →
    ∀ r', r' ∈ requests → fcq_idle (<[r := rec']> (reqs s1)) r').
  { intros rec' Hop' r' Hr'. destruct (decide (r' = r)) as [->|Hne].
    - exists rec'. split; [apply lookup_insert_eq|done].
    - destruct (Hidle r' Hr') as (rec'' & Hlk'' & Hop'').
      exists rec''. by rewrite lookup_insert_ne. }
  destruct data as [|front rest];
    repeat (progress (simpl; rewrite ?lookup_insert_eq)); rewrite insert_insert_eq.
  - eexists. split; [reflexivity|].
    exists requests. simpl. rewrite lookup_insert_eq. split; [done|]. split; [done|].
    split; [by apply Hrest|right; by rewrite Htls].
  - eexists. split; [reflexivity|].
    exists requests. simpl. rewrite lookup_insert_eq. split; [done|]. split; [done|].
    split; [by apply Hrest|right; by rewrite Htls].
Qed.

Lemma fcq_construct_spec t allocs :
  ∃ this s, run handle t (call Construct) (init allocs) = Done (this, s) ∧
            fcq_inv this t s [].
Proof.
  eexists _, _. split; [reflexivity|].
  exists []. simpl. rewrite lookup_insert_eq. split; [done|]. split; [constructor|].
  split; [|by left]. intros r Hr. by apply elem_of_nil in Hr.
Qed.

End FlatCombiningQueueFacts.

(** * Single-threaded clients *)

Lemma removals_drain out ys :
  removals (S (length ys)) out ys =
  ((λ y, (true, y)) <$> ys) ++ [(false, default out (last ys))].
Proof.
  revert out. induction ys as [|y ys IH]; intros out; [done|].
  change (removals (S (length (y :: ys))) out (y :: ys))
    with ((true, y) :: removals (S (length ys)) y ys).
  rewrite IH. rewrite fmap_cons, <- app_comm_cons. do 4 f_equal.
  destruct ys as [|a l]; [done|]. change (last (y :: a :: l)) with (last (a :: l)).
  destruct (last (a :: l)) eqn:Hl; [done|]. by apply last_None in Hl.
Qed.

Section Refinement.
Context {E : Type → Type} {S : Type}.
Variable handle : nat → ∀ X, E X → S → outcome (X * S).
Variable t : nat.
Variable ins : Z → prog E unit.
Variable rem : Z → prog E (bool * Z).
Variable inv : S → list Z → Prop.
Variable put : Z → list Z → list Z.
Variable ready : S → Prop.

Hypothesis ins_ok : ∀ s ys v, inv s ys → ready s →
  ∃ s', run handle t (ins v) s = Done (tt, s') ∧ inv s' (put v ys) ∧ ready s'.
Hypothesis rem_ok : ∀ s ys out, inv s ys → ready s →
  ∃ s', run handle t (rem out) s = Done (removed out ys, s') ∧
        inv s' (tl ys) ∧ ready s'.

Lemma insert_all_ok xs s ys :
  inv s ys → ready s →
  ∃ s', run handle t (insert_all ins xs) s = Done (tt, s') ∧
        inv s' (foldl (λ acc v, put v acc) ys xs) ∧ ready s'.
Proof.
  revert s ys. induction xs as [|x xs IH]; intros s ys Hinv Hready.
  - exists s. split; [done|]. by split.
  - destruct (ins_ok s ys x Hinv Hready) as (s1 & Hrun & Hinv1 & Hready1).
    destruct (IH s1 _ Hinv1 Hready1) as (s2 & Hrun2 & Hinv2 & Hready2).
    exists s2. split; [|done]. simpl insert_all. by rewrite run_bind, Hrun.
Qed.

Lemma remove_n_ok n out s ys :
  inv s ys → ready s →
  ∃ s', run handle t (remove_n rem n out) s = Done (removals n out ys, s') ∧
        inv s' (drop n ys) ∧ ready s'.
Proof.
  revert out s ys. induction n as [|n IH]; intros out s ys Hinv Hready.
  - exists s. rewrite drop_0. split; [done|]. by split.
  - destruct (rem_ok s ys out Hinv Hready) as (s1 & Hrun & Hinv1 & Hready1).
    destruct (IH (removed out ys).2 s1 _ Hinv1 Hready1)
      as (s2 & Hrun2 & Hinv2 & Hready2).
    exists s2. split; [|split; [|done]].
    + simpl remove_n. rewrite run_bind, Hrun. rewrite run_bind, Hrun2. done.
    + destruct ys; simpl in *; [by rewrite drop_nil in Hinv2|done].
Qed.

(** Insert [xs] into a container that holds [ys], then remove. *)
Lemma client_ok xs n out s ys :
  inv s ys → ready s →
  ∃ s', run handle t (_ ← insert_all ins xs; remove_n rem n out) s =
        Done (removals n out (foldl (λ acc v, put v acc) ys xs), s').
Proof.
  intros Hinv Hready.
  destruct (insert_all_ok xs s ys Hinv Hready) as (s1 & Hrun & Hinv1 & Hready1).
  destruct (remove_n_ok n out s1 _ Hinv1 Hready1) as (s2 & Hrun2 & _).
  exists s2. by rewrite run_bind, Hrun.
Qed.

End Refinement.

Lemma foldl_cons_rev (xs ys : list Z) : foldl (λ acc v, v :: acc) ys xs = rev xs ++ ys.
Proof.
  revert ys. induction xs as [|x xs IH]; intros ys; [done|].
  simpl. rewrite IH. by rewrite <- app_assoc.
Qed.

Lemma foldl_snoc (xs ys : list Z) : foldl (λ acc v, acc ++ [v]) ys xs = ys ++ xs.
Proof.
  revert ys. induction xs as [|x xs IH]; intros ys; simpl.
  - by rewrite app_nil_r.
  - rewrite IH. by rewrite <- app_assoc.
Qed.

Lemma last_rev_head (xs : list Z) : last (rev xs) = head xs.
Proof. destruct xs as [|x xs]; [done|]. simpl. by rewrite last_snoc. Qed.

Lemma removals_lifo out (xs : list Z) :
  removals (S (length xs)) out (rev xs ++ []) = lifo_results out xs.
Proof.
  rewrite app_nil_r, <- (length_rev xs), removals_drain, last_rev_head. done.
Qed.

Lemma removals_fifo out (xs : list Z) :
  removals (S (length xs)) out ([] ++ xs) = fifo_results out xs.
Proof. rewrite app_nil_l. by rewrite removals_drain. Qed.

Lemma treiber_client t fuel xs n out s ys :
  stack_inv t s ys → (length (TreiberStack.spur s) < fuel)%nat →
  ∃ s', run TreiberStack.handle t
          (fill_then_remove (TreiberStack.push fuel) (TreiberStack.pop fuel) xs n out) s =
        Done (removals n out (rev xs ++ ys), s').
Proof.
  intros Hinv Hfuel.
  destruct (client_ok TreiberStack.handle t (TreiberStack.push fuel) (TreiberStack.pop fuel)
              (stack_inv t) cons (λ s, (length (TreiberStack.spur s) < fuel)%nat))
    with (xs := xs) (n := n) (out := out) (s := s) (ys := ys) as (s' & Hrun).
  - intros s0 ys0 v Hinv0 Hready.
    destruct (push_spec t fuel v s0 ys0 Hinv0 Hready) as (s' & ? & ? & ?).
    exists s'. split; [done|]. split; [done|]. lia.
  - intros s0 ys0 o Hinv0 Hready.
    destruct (pop_spec t fuel o s0 ys0 Hinv0 Hready) as (s' & ? & ? & ?).
    exists s'. split; [done|]. split; [done|]. lia.
  - done.
  - done.
  - exists s'. unfold fill_then_remove. rewrite Hrun. by rewrite foldl_cons_rev.
Qed.

Lemma elim_client t fuel xs n out s ys :
  elim_inv s ys → (length (EliminationStack.spur s) < fuel)%nat →
  ∃ s', run EliminationStack.handle t
          (fill_then_remove (EliminationStack.push fuel) (EliminationStack.pop fuel)
             xs n out) s =
        Done (removals n out (rev xs ++ ys), s').
Proof.
  intros Hinv Hfuel.
  destruct (client_ok EliminationStack.handle t (EliminationStack.push fuel)
              (EliminationStack.pop fuel) elim_inv cons
              (λ s, (length (EliminationStack.spur s) < fuel)%nat))
    with (xs := xs) (n := n) (out := out) (s := s) (ys := ys) as (s' & Hrun).
  - intros s0 ys0 v Hinv0 Hready.
    destruct (elim_push_spec t fuel v s0 ys0 Hinv0 Hready) as (s' & ? & ? & ?).
    exists s'. split; [done|]. split; [done|]. lia.
  - intros s0 ys0 o Hinv0 Hready.
    destruct (elim_pop_loop_spec t fuel o 0%nat s0 ys0 Hinv0 Hready) as (s' & ? & ? & ?).
    exists s'. split; [done|]. split; [done|]. lia.
  - done.
  - done.
  - exists s'. unfold fill_then_remove. rewrite Hrun. by rewrite foldl_cons_rev.
Qed.

Lemma fcs_client this t xs n out s ys :
  fcs_inv this t s (rev ys) →
  ∃ s', run FlatCombiningStack.handle t
          (fill_then_remove (FlatCombiningStack.push this) (FlatCombiningStack.pop this)
             xs n out) s =
        Done (removals n out (rev xs ++ ys), s').
Proof.
  intros Hinv.
  destruct (client_ok FlatCombiningStack.handle t (FlatCombiningStack.push this)
              (FlatCombiningStack.pop this) (λ s ys, fcs_inv this t s (rev ys)) cons
              (λ _, True))
    with (xs := xs) (n := n) (out := out) (s := s) (ys := ys) as (s' & Hrun).
  - intros s0 ys0 v Hinv0 _.
    destruct (fcs_push_spec this t s0 (rev ys0) v Hinv0) as (s' & ? & ?).
    exists s'. split; [done|]. by split.
  - intros s0 ys0 o Hinv0 _.
    destruct (fcs_pop_spec this t s0 (rev ys0) o Hinv0) as (s' & Hrun & Hinv').
    exists s'. split; [|split; [|done]].
    + rewrite Hrun. unfold fcs_pop_result. rewrite last_rev_head. by destruct ys0.
    + destruct ys0 as [|y ys0]; [done|]. simpl in *. by rewrite removelast_last in Hinv'.
  - done.
  - done.
  - exists s'. unfold fill_then_remove. rewrite Hrun. by rewrite foldl_cons_rev.
Qed.

(** A stack constructed by a thread that has no record yet. *)
Lemma fcs_construct_first t (s : FlatCombiningStack.state) :
  default 0%N (FlatCombiningStack.tls_req_ s !! t) = 0%N →
  ∃ this s', FlatCombiningStack.handle t _ FlatCombiningStack.Construct s = Done (this, s') ∧
             fcs_inv this t s' [].
Proof.
  intros Htls. eexists _, _. split; [reflexivity|].
  exists []. simpl. rewrite lookup_insert_eq. split; [done|]. split; [constructor|].
  split; [|by left]. intros r Hr. by apply elem_of_nil in Hr.
Qed.

Lemma msq_client t fuel xs n out s ys :
  queue_inv t s ys → (length (MSQueue.spur s) < fuel)%nat →
  ∃ s', run MSQueue.handle t
          (fill_then_remove (MSQueue.enqueue fuel) (MSQueue.dequeue fuel) xs n out) s =
        Done (removals n out (ys ++ xs), s').
Proof.
  intros Hinv Hfuel.
  destruct (client_ok MSQueue.handle t (MSQueue.enqueue fuel) (MSQueue.dequeue fuel)
              (queue_inv t) (λ v ys, ys ++ [v])
              (λ s, (length (MSQueue.spur s) < fuel)%nat))
    with (xs := xs) (n := n) (out := out) (s := s) (ys := ys) as (s' & Hrun).
  - intros s0 ys0 v Hinv0 Hready.
    destruct (enqueue_spec t fuel v s0 ys0 Hinv0 Hready) as (s' & ? & ? & ?).
    exists s'. split; [done|]. split; [done|]. lia.
  - intros s0 ys0 o Hinv0 Hready.
    destruct (dequeue_spec t fuel o s0 ys0 Hinv0) as (s' & ? & ? & ?); [lia|].
    exists s'. split; [done|]. split; [done|]. lia.
  - done.
  - done.
  - exists s'. unfold fill_then_remove. rewrite Hrun. by rewrite foldl_snoc.
Qed.

Lemma fcq_client this t xs n out s ys :
  fcq_inv this t s ys →
  ∃ s', run FlatCombiningQueue.handle t
          (fill_then_remove (FlatCombiningQueue.enqueue this)
             (FlatCombiningQueue.dequeue this) xs n out) s =
        Done (removals n out (ys ++ xs), s').
Proof.
  intros Hinv.
  destruct (client_ok FlatCombiningQueue.handle t (FlatCombiningQueue.enqueue this)
              (FlatCombiningQueue.dequeue this) (fcq_inv this t) (λ v ys, ys ++ [v])
              (λ _, True))
    with (xs := xs) (n := n) (out := out) (s := s) (ys := ys) as (s' & Hrun).
  - intros s0 ys0 v Hinv0 _.
    destruct (fcq_enqueue_spec this t s0 ys0 v Hinv0) as (s' & ? & ?).
    exists s'. split; [done|]. by split.
  - intros s0 ys0 o Hinv0 _.
    destruct (fcq_dequeue_spec this t s0 ys0 o Hinv0) as (s' & Hrun & Hinv').
    exists s'. split; [done|]. by split.
  - done.
  - done.
  - exists s'. unfold fill_then_remove. rewrite Hrun. by rewrite foldl_snoc.
Qed.

(** A queue constructed by a thread that has no record yet. *)
Lemma fcq_construct_first t (s : FlatCombiningQueue.state) :
  default 0%N (FlatCombiningQueue.tls_req_ s !! t) = 0%N →
  ∃ this s', FlatCombiningQueue.handle t _ FlatCombiningQueue.Construct s = Done (this, s') ∧
             fcq_inv this t s' [].
Proof.
  intros Htls. eexists _, _. split; [reflexivity|].
  exists []. simpl. rewrite lookup_insert_eq. split; [done|]. split; [constructor|].
  split; [|by left]. intros r Hr. by apply elem_of_nil in Hr.
Qed.

(** The same clients for the containers whose calls are atomic. *)

Lemma sgl_stack_removals n out ys :
  remove_n_atomic SGLStack.pop n out (rev ys) = (removals n out ys, rev (drop n ys)).
Proof.
  revert out ys. induction n as [|n IH]; intros out ys; [done|].
  destruct ys as [|y ys].
  - simpl. specialize (IH out []). simpl in IH. by rewrite IH, drop_nil.
  - simpl. unfold SGLStack.pop. rewrite last_snoc, removelast_last.
    by rewrite IH.
Qed.

Lemma sgl_stack_client xs n out ys :
  (remove_n_atomic SGLStack.pop n out
     (insert_all_atomic SGLStack.push xs (rev ys))).1 = removals n out (rev xs ++ ys).
Proof.
  unfold insert_all_atomic, SGLStack.push.
  rewrite foldl_snoc. rewrite <- (rev_involutive xs) at 1. rewrite <- rev_app_distr.
  by rewrite sgl_stack_removals.
Qed.

Lemma sgl_queue_removals n out ys :
  remove_n_atomic SGLQueue.dequeue n out ys = (removals n out ys, drop n ys).
Proof.
  revert out ys. induction n as [|n IH]; intros out ys; [done|].
  destruct ys as [|y ys].
  - simpl. specialize (IH out []). simpl in IH. by rewrite IH, drop_nil.
  - simpl. by rewrite IH.
Qed.

Lemma sgl_queue_client xs n out ys :
  (remove_n_atomic SGLQueue.dequeue n out
     (insert_all_atomic SGLQueue.enqueue xs ys)).1 = removals n out (ys ++ xs).
Proof.
  unfold insert_all_atomic, SGLQueue.enqueue.
  rewrite foldl_snoc. by rewrite sgl_queue_removals.
Qed.

(** * Containers in use satisfy the invariants *)

Lemma treiber_sample_inv : stack_inv 0 treiber_sample [2; 1].
Proof.
  exists [2%N; 1%N]. split; [|split; [|split]].
  - vm_compute. split; [done|]. split; [done|]. eexists. split; [reflexivity|].
    split; [done|]. split; [done|]. split; [done|]. eexists. split; [reflexivity|]. done.
  - refine (bool_decide_unpack _ _). vm_compute. exact I.
  - intros r Hr. vm_compute in Hr. apply list_elem_of_singleton in Hr as ->.
    split; [done|]. vm_compute. by eexists.
  - left. vm_compute. by eexists.
Defined.

Lemma msq_sample_inv : queue_inv 0 msq_sample [2; 3].
Proof.
  exists [3%N; 4%N]. split; [|split; [|split; [|split]]].
  - vm_compute. done.
  - vm_compute. split; [done|]. split; [eexists; split; [reflexivity|done]|].
    split; [eexists; split; [reflexivity|done]|].
    split; [done|]. split; [eexists; split; [reflexivity|done]|].
    split; [eexists; split; [reflexivity|done]|].
    split; [done|]. eexists. split; [reflexivity|done].
  - refine (bool_decide_unpack _ _). vm_compute. exact I.
  - intros r Hr. vm_compute in Hr. apply list_elem_of_singleton in Hr as ->.
    split; [done|]. vm_compute. by eexists.
  - left. vm_compute. by eexists.
Defined.

Lemma fcs_sample_inv : fcs_inv 2 0 fcs_sample [1; 2].
Proof.
  exists [2%N]. split; [vm_compute; reflexivity|]. split; [apply NoDup_singleton|].
  split.
  - intros r Hr. apply list_elem_of_singleton in Hr as ->. eexists.
    split; [vm_compute; reflexivity|done].
  - right. vm_compute. by apply list_elem_of_singleton.
Defined.

Lemma fcq_sample_inv : fcq_inv 2 0 fcq_sample [2; 3].
Proof.
  exists [2%N]. split; [vm_compute; reflexivity|]. split; [apply NoDup_singleton|].
  split.
  - intros r Hr. apply list_elem_of_singleton in Hr as ->. eexists.
    split; [vm_compute; reflexivity|done].
  - right. vm_compute. by apply list_elem_of_singleton.
Defined.

(** * A failed removal leaves the out-parameter alone *)

(** Case analysis on whatever the run of a program branches on. *)
Ltac run_cases :=
  repeat (simpl in *;
    match goal with
    | H : Done _ = Done _ |- _ => inversion H; subst; clear H
    | H : _ = Done _ |- _ =>
        match type of H with
        | context [match ?x with _ => _ end] => destruct x eqn:?
        end
    end);
  try congruence; try done.

Lemma treiber_pop_loop_false t fuel i s out out' s' :
  run TreiberStack.handle t (TreiberStack.pop_loop fuel i out) s = Done ((false, out'), s') →
  out' = out.
Proof.
  revert s. induction fuel as [|fuel IH]; intros s Hrun; [done|].
  run_cases; by eapply IH.
Qed.

Lemma treiber_pop_false t fuel s out out' s' :
  run TreiberStack.handle t (TreiberStack.pop fuel out) s = Done ((false, out'), s') →
  out' = out.
Proof.
  unfold TreiberStack.pop. intros Hrun. run_cases. by eapply treiber_pop_loop_false.
Qed.

Lemma msq_dequeue_loop_false t fuel i s out out' s' :
  run MSQueue.handle t (MSQueue.dequeue_loop fuel i out) s = Done ((false, out'), s') →
  out' = out.
Proof.
  revert s. induction fuel as [|fuel IH]; intros s Hrun; [done|].
  run_cases; by eapply IH.
Qed.

Lemma msq_dequeue_false t fuel s out out' s' :
  run MSQueue.handle t (MSQueue.dequeue fuel out) s = Done ((false, out'), s') →
  out' = out.
Proof.
  unfold MSQueue.dequeue. intros Hrun. run_cases. by eapply msq_dequeue_loop_false.
Qed.

Lemma elim_try_pop_false t attempts s out out' s' :
  run EliminationStack.handle t (EliminationStack.try_elim_pop_from attempts out) s =
    Done ((false, out'), s') →
  out' = out.
Proof.
  revert s. induction attempts as [|attempts IH]; intros s Hrun.
  - simpl in Hrun. by inversion Hrun.
  - run_cases; by eapply IH.
Qed.

Section EliminationFrame.

Lemma elim_try_pop_false' t s out out' s' :
  run EliminationStack.handle t (EliminationStack.try_elim_pop out) s =
    Done ((false, out'), s') →
  out' = out.
Proof. apply elim_try_pop_false. Qed.

Local Opaque EliminationStack.try_elim_pop EliminationStack.CAS_THRESHOLD.

Lemma elim_pop_loop_false t fuel c s out out' s' :
  run EliminationStack.handle t (EliminationStack.pop_loop fuel out c) s =
    Done ((false, out'), s') →
  out' = out.
Proof.
  revert s c. induction fuel as [|fuel IH]; intros s c Hrun; [done|].
  simpl in Hrun. destruct (decide (EliminationStack.head_ s = 0%N)).
  - rewrite run_bind in Hrun.
    destruct (run EliminationStack.handle t (EliminationStack.try_elim_pop out) s)
      as [[[[] o] s1]| | |] eqn:Htry; simpl in Hrun; try done.
    inversion Hrun; subst. by eapply elim_try_pop_false'.
  - simpl in Hrun.
    destruct (EliminationStack.heap s !! EliminationStack.head_ s); [|done].
    simpl in Hrun. rewrite decide_True in Hrun by done.
    destruct (EliminationStack.spur s) as [|[] sp]; simpl in Hrun.
    + run_cases.
    + case_decide.
      * rewrite run_bind in Hrun.
        match type of Hrun with
        | context [run _ _ (EliminationStack.try_elim_pop out) ?s0] =>
            destruct (run EliminationStack.handle t (EliminationStack.try_elim_pop out) s0)
              as [[[[] o] s1]| | |] eqn:Htry; simpl in Hrun; try done
        end.
        apply elim_try_pop_false' in Htry as ->. by eapply IH.
      * by eapply IH.
    + run_cases.
Qed.

End EliminationFrame.

Lemma fcs_pop_false t this s out out' s' :
  run FlatCombiningStack.handle t (FlatCombiningStack.pop this out) s =
    Done ((false, out'), s') →
  out' = out.
Proof.
  unfold FlatCombiningStack.pop. rewrite run_bind.
  destruct (run _ t (FlatCombiningStack.get_request this) s) as [[r s1]| | |]; try done.
  cbn [mbind prog_mbind prog_bind call run FlatCombiningStack.handle].
  destruct (FlatCombiningStack.reqs s1 !! r) as [rec|]; [|done].
  cbn [FlatCombiningStack.set_reqs FlatCombiningStack.reqs FlatCombiningStack.objs].
  rewrite !lookup_insert_eq.
  cbn [FlatCombiningStack.set_reqs FlatCombiningStack.reqs FlatCombiningStack.objs].
  destruct (FlatCombiningStack.objs s1 !! this) as [o|]; [|done].
  destruct (FlatCombiningStack.combine _ _ _) as [[data rq]| | |]; try done.
  cbn [FlatCombiningStack.reqs].
  destruct (rq !! r) as [[o' v' []]|] eqn:Hrq;
    repeat (progress (simpl; rewrite ?Hrq)); intros H; by inversion H.
Qed.

Lemma fcq_dequeue_false t this s out out' s' :
  run FlatCombiningQueue.handle t (FlatCombiningQueue.dequeue this out) s =
    Done ((false, out'), s') →
  out' = out.
Proof.
  unfold FlatCombiningQueue.dequeue. rewrite run_bind.
  destruct (run _ t (FlatCombiningQueue.get_request this) s) as [[r s1]| | |]; try done.
  cbn [mbind prog_mbind prog_bind call run FlatCombiningQueue.handle].
  destruct (FlatCombiningQueue.reqs s1 !! r) as [rec|]; [|done].
  cbn [FlatCombiningQueue.set_reqs FlatCombiningQueue.reqs FlatCombiningQueue.objs].
  rewrite !lookup_insert_eq.
  cbn [FlatCombiningQueue.set_reqs FlatCombiningQueue.reqs FlatCombiningQueue.objs].
  destruct (FlatCombiningQueue.objs s1 !! this) as [o|]; [|done].
  destruct (FlatCombiningQueue.combine _ _ _) as [[data rq]| | |]; try done.
  cbn [FlatCombiningQueue.reqs].
  destruct (rq !! r) as [[o' v' []]|] eqn:Hrq;
    repeat (progress (simpl; rewrite ?Hrq)); intros H; by inversion H.
Qed.

Lemma sgl_pop_false out data_ out' data' :
  SGLStack.pop out data_ = (false, out', data') → out' = out.
Proof. unfold SGLStack.pop. destruct (last data_); by inversion 1. Qed.

Lemma sgl_dequeue_false out data_ out' data' :
  SGLQueue.dequeue out data_ = (false, out', data') → out' = out.
Proof. unfold SGLQueue.dequeue. destruct data_; by inversion 1. Qed.

(** * Removal from an empty container *)

Lemma treiber_pop_empty t fuel s out :
  TreiberStack.head_ s = 0%N → available t (TreiberStack.recs s) → (0 < fuel)%nat →
  ∃ s', run TreiberStack.handle t (TreiberStack.pop fuel out) s = Done ((false, out), s').
Proof.
  intros Hhead Hav Hfuel. destruct fuel as [|fuel]; [lia|].
  destruct (acquire_available _ _ Hav) as (i & recs' & Hacq & _).
  unfold TreiberStack.pop. simpl. rewrite Hacq. simpl.
  rewrite decide_True by done. simpl. by eexists.
Qed.

Lemma msq_dequeue_empty t fuel s out nd :
  MSQueue.heap s !! MSQueue.head_ s = Some nd → MSQueue.next nd = 0%N →
  available t (MSQueue.recs s) → (0 < fuel)%nat →
  ∃ s', run MSQueue.handle t (MSQueue.dequeue fuel out) s = Done ((false, out), s').
Proof.
  intros Hlk Hnx Hav Hfuel. destruct fuel as [|fuel]; [lia|].
  destruct (acquire_available _ _ Hav) as (i & recs' & Hacq & _).
  unfold MSQueue.dequeue. simpl. rewrite Hacq. simpl. rewrite Hlk. simpl.
  rewrite decide_False by (intros H; by apply H). rewrite Hnx.
  rewrite decide_True by done. simpl. by eexists.
Qed.

Section EliminationEmpty.
Import EliminationStack.

Lemma empty_slots_spec t idxs s :
  (∀ i, i ∈ idxs → (i < length (arena_ s))%nat) →
  run handle t (empty_slots idxs) s =
  Done (bool_decide (Forall (λ i, arena_ s !! i = Some 0%N) idxs), s).
Proof.
  induction idxs as [|i idxs IH]; intros Hin.
  - reflexivity.
  - destruct (lookup_lt_is_Some_2 (arena_ s) i) as [p Hp];
      [apply Hin, elem_of_cons; by left|].
    simpl. rewrite Hp. simpl. destruct (decide (p ≠ 0%N)) as [Hne|Heq].
    + cbn [run]. do 2 f_equal. symmetry. apply bool_decide_eq_false_2.
      intros HF. apply Forall_cons in HF as [HF _]. congruence.
    + apply dec_stable in Heq as ->. rewrite IH.
      2:{ intros j Hj. apply Hin, elem_of_cons. by right. }
      do 2 f_equal. apply bool_decide_ext. rewrite Forall_cons. tauto.
Qed.

Lemma all_slots_null (arena : list N) :
  Forall (λ i, arena !! i = Some 0%N) (seq 0 (length arena)) ↔ Forall (λ p, p = 0%N) arena.
Proof.
  rewrite !Forall_forall. split.
  - intros H p Hp. apply list_elem_of_lookup in Hp as [i Hi].
    specialize (H i). rewrite Hi in H.
    assert (Some p = Some 0%N) as [= ->]; [|done].
    apply H. apply elem_of_seq. apply lookup_lt_Some in Hi. lia.
  - intros H i Hi. apply elem_of_seq in Hi.
    destruct (lookup_lt_is_Some_2 arena i) as [p Hp]; [lia|].
    rewrite Hp. f_equal. apply H. by eapply list_elem_of_lookup_2.
Qed.

Lemma elim_empty_spec t s :
  length (arena_ s) = ELIM_ARRAY_SIZE →
  run handle t empty s =
  Done (bool_decide (head_ s = 0%N ∧ Forall (λ p, p = 0%N) (arena_ s)), s).
Proof.
  intros Hlen. unfold empty. cbn [mbind prog_mbind prog_bind call run handle].
  destruct (decide (head_ s ≠ 0%N)) as [Hne|Heq].
  - cbn [run]. do 2 f_equal. symmetry. apply bool_decide_eq_false_2. by intros [? _].
  - apply dec_stable in Heq. rewrite empty_slots_spec.
    2:{ intros i Hi. apply elem_of_seq in Hi. lia. }
    do 2 f_equal. apply bool_decide_ext. rewrite <- Hlen, all_slots_null. tauto.
Qed.

(** Once a pusher's offer is in a slot, [empty] answers [false]. *)
Lemma elim_offer_not_empty t t' idx n s s' :
  length (arena_ s) = ELIM_ARRAY_SIZE → n ≠ 0%N →
  handle t _ (ArenaCas idx 0%N n) s = Done ((true, 0%N), s') →
  head_ s' = head_ s ∧ run handle t' empty s' = Done (false, s').
Proof.
  intros Hlen Hn Hcas. cbn [handle] in Hcas.
  destruct (arena_ s !! idx) as [cur|] eqn:Hcur; [|done].
  case_decide as Hc; [|by inversion Hcas]. subst cur. inversion Hcas; subst; clear Hcas.
  split; [done|].
  rewrite elim_empty_spec by (unfold set_arena; cbn [arena_]; by rewrite length_insert).
  do 2 f_equal. apply bool_decide_eq_false_2. intros [_ HF].
  unfold set_arena in HF. cbn [arena_] in HF.
  rewrite Forall_forall in HF. apply Hn, HF.
  eapply list_elem_of_lookup_2. apply list_lookup_insert_eq. by eapply lookup_lt_Some.
Qed.

Lemma elim_pop_empty t fuel s out :
  head_ s = 0%N → arena_clear s → (0 < fuel)%nat →
  ∃ s', run handle t (pop fuel out) s = Done ((false, out), s').
Proof.
  intros Hhead [Hlen Hnull] Hfuel. destruct fuel as [|fuel]; [lia|].
  assert (Hidle : arena_idle s).
  { unfold arena_idle. rewrite <- Hlen. apply list_eq_Forall2.
    clear Hlen. induction Hnull as [|p l -> _ IH]; simpl; constructor; done. }
  unfold pop. cbn [pop_loop mbind prog_mbind prog_bind call run handle].
  rewrite decide_True by done.
  change (prog_bind ?f ?p) with (p ≫= f). rewrite run_bind.
  rewrite try_elim_pop_alone by done. simpl. by eexists.
Qed.

End EliminationEmpty.

(** * Flat combining: what the combiner writes into a record *)

Section FlatCombiningStackVisit.
Import FlatCombiningStack.

(** The combiner on a record with a pop pending. *)
Lemma fcs_visit_pop r data rq rec :
  rq !! r = Some rec → op rec = POP →
  ∃ data' rec',
    combine_one r (Done (data, rq)) = Done (data', <[r := rec']> rq) ∧
    op rec' = NONE ∧ (success rec' = false ↔ data = []) ∧
    (success rec' = true → last data = Some (value rec') ∧ data' = removelast data).
Proof.
  intros Hlk Hop. simpl. rewrite Hlk, Hop.
  destruct (last data) as [back|] eqn:Hlast.
  - eexists _, _. split; [reflexivity|]. simpl. split; [done|]. split; [|done].
    split; [done|]. intros ->. done.
  - eexists _, _. split; [reflexivity|]. simpl. split; [done|]. split; [|done].
    split; [|done]. intros _. by apply last_None.
Qed.

(** The combiner on a record with a push pending: the flag is not written. *)
Lemma fcs_visit_push r data rq rec :
  rq !! r = Some rec → op rec = PUSH →
  combine_one r (Done (data, rq)) =
  Done (data ++ [value rec], <[r := mkRequest NONE (value rec) (success rec)]> rq).
Proof. intros Hlk Hop. simpl. by rewrite Hlk, Hop. Qed.

Lemma fcs_pop_empty this t s out :
  fcs_quiet this s [] → fcs_tls_ok t s →
  ∃ s', run handle t (pop this out) s = Done ((false, out), s').
Proof.
  intros (requests & Hobj & Hnd & Hidle) Htls.
  destruct (decide (default 0%N (tls_req_ s !! t) = 0%N ∨
                    default 0%N (tls_req_ s !! t) ∈ requests)) as [Hin|Hout].
  - destruct (fcs_pop_spec this t s [] out) as (s' & Hrun & _); [by exists requests|].
    by exists s'.
  - assert (Hnz : default 0%N (tls_req_ s !! t) ≠ 0%N) by tauto.
    assert (Hnin : default 0%N (tls_req_ s !! t) ∉ requests) by tauto.
    destruct Htls as [?|[rec Hrec]]; [done|].
    set (r := default 0%N (tls_req_ s !! t)) in *.
    unfold pop, get_request. simpl. fold r. rewrite decide_False by done. simpl. fold r.
    rewrite Hrec. repeat (progress (simpl; rewrite ?lookup_insert_eq)).
    rewrite Hobj. simpl. rewrite fcs_combine_idle.
    2:{ intros r' Hr'. destruct (Hidle r' Hr') as (rec' & Hlk' & Hop').
        exists rec'. split; [|done]. rewrite !lookup_insert_ne; [done| |]; by intros <-. }
    repeat (progress (simpl; rewrite ?lookup_insert_eq)). by eexists.
Qed.

End FlatCombiningStackVisit.

Section FlatCombiningQueueVisit.
Import FlatCombiningQueue.

Lemma fcq_visit_dequeue r data rq rec :
  rq !! r = Some rec → op rec = DEQ →
  ∃ data' rec',
    combine_one r (Done (data, rq)) = Done (data', <[r := rec']> rq) ∧
    op rec' = NONE ∧ (success rec' = false ↔ data = []) ∧
    (success rec' = true → head data = Some (value rec') ∧ data' = tl data).
Proof.
  intros Hlk Hop. simpl. rewrite Hlk, Hop.
  destruct data as [|front rest].
  - eexists _, _. split; [reflexivity|]. simpl. split; [done|]. split; [|done]. done.
  - eexists _, _. split; [reflexivity|]. simpl. split; [done|]. split; [|done]. done.
Qed.

Lemma fcq_visit_enqueue r data rq rec :
  rq !! r = Some rec → op rec = ENQ →
  combine_one r (Done (data, rq)) =
  Done (data ++ [value rec], <[r := mkRequest NONE (value rec) (success rec)]> rq).
Proof. intros Hlk Hop. simpl. by rewrite Hlk, Hop. Qed.

Lemma fcq_dequeue_empty this t s out :
  fcq_quiet this s [] → fcq_tls_ok t s →
  ∃ s', run handle t (dequeue this out) s = Done ((false, out), s').
Proof.
  intros (requests & Hobj & Hnd & Hidle) Htls.
  destruct (decide (default 0%N (tls_req_ s !! t) = 0%N ∨
                    default 0%N (tls_req_ s !! t) ∈ requests)) as [Hin|Hout].
  - destruct (fcq_dequeue_spec this t s [] out) as (s' & Hrun & _); [by exists requests|].
    by exists s'.
  - assert (Hnz : default 0%N (tls_req_ s !! t) ≠ 0%N) by tauto.
    assert (Hnin : default 0%N (tls_req_ s !! t) ∉ requests) by tauto.
    destruct Htls as [?|[rec Hrec]]; [done|].
    set (r := default 0%N (tls_req_ s !! t)) in *.
    unfold dequeue, get_request. simpl. fold r. rewrite decide_False by done. simpl. fold r.
    rewrite Hrec. repeat (progress (simpl; rewrite ?lookup_insert_eq)).
    rewrite Hobj. simpl. rewrite fcq_combine_idle.
    2:{ intros r' Hr'. destruct (Hidle r' Hr') as (rec' & Hlk' & Hop').
        exists rec'. split; [|done]. rewrite !lookup_insert_ne; [done| |]; by intros <-. }
    repeat (progress (simpl; rewrite ?lookup_insert_eq)). by eexists.
Qed.

End FlatCombiningQueueVisit.

(** * The condition variable *)

Section CVFacts.
Import CVNoSpurious.

Lemma add_size_t_step (q : Z) :
  0 ≤ q ≤ SIZE_MAX →
  add_size_t q 1 = (if decide (q = SIZE_MAX) then 0 else q + 1).
Proof.
  unfold add_size_t, SIZE_MAX. intros Hq. case_decide as Hmax.
  - subst q. reflexivity.
  - apply Z.mod_small. lia.
Qed.

Lemma notify_one_trace t s :
  ∃ old, trace handle t notify_one s = [Ev (FetchAddSeq 1) old; Ev CvNotifyOne tt].
Proof. by eexists. Qed.

Lemma notify_all_trace t s :
  ∃ old, trace handle t notify_all s = [Ev (FetchAddSeq 1) old; Ev CvNotifyAll tt].
Proof. by eexists. Qed.

Lemma fetch_add_seq t d s old s' :
  handle t _ (FetchAddSeq d) s = Done (old, s') → seq_ s' = add_size_t old d.
Proof. cbn [handle]. by intros [= <- <-]. Qed.

Lemma wait_loop_returns t fuel my s s' :
  run handle t (wait_loop fuel my) s = Done (tt, s') →
  ∃ mid cur, loads (trace handle t (wait_loop fuel my) s) = mid ++ [cur] ∧
             Forall (λ v, v = my) mid ∧ cur ≠ my.
Proof.
  revert s. induction fuel as [|fuel IH]; intros s; [done|].
  cbn [wait_loop mbind prog_mbind prog_bind call run trace handle].
  destruct (decide (seq_ (others s) ≠ my)) as [Hne|Heq].
  - intros _. exists [], (seq_ (others s)). cbn. split; [done|]. by split.
  - apply dec_stable in Heq.
    cbn [mbind prog_mbind prog_bind call run trace handle]. intros Hrun.
    destruct (IH _ Hrun) as (mid & cur & Htr & Hmid & Hcur).
    exists (seq_ (others s) :: mid), cur. split; [|split; [|done]].
    + unfold loads in *. cbn [mbind list_bind load_of app]. cbn. cbn in Htr.
      by rewrite Htr.
    + by constructor.
Qed.

(** [wait(lock)] returns only on a load that differs from its sample. *)
Lemma wait_returns t fuel s s' :
  run handle t (wait fuel) s = Done (tt, s') →
  ∃ s0 mid cur, loads (trace handle t (wait fuel) s) = s0 :: mid ++ [cur] ∧
                Forall (λ v, v = s0) mid ∧ cur ≠ s0.
Proof.
  unfold wait. cbn [mbind prog_mbind prog_bind call run trace handle]. intros Hrun.
  destruct (wait_loop_returns _ _ _ _ _ Hrun) as (mid & cur & Htr & Hmid & Hcur).
  exists (seq_ (others s)), mid, cur. split; [|done].
  unfold loads in *. cbn. cbn in Htr. by rewrite Htr.
Qed.

(** Without a notification, wakeups are spurious and [wait(lock)] stays
    blocked, whatever the fuel. *)
Lemma wait_loop_blocked t fuel q :
  run handle t (wait_loop fuel q) (mkState q []) = OutOfFuel.
Proof. induction fuel as [|fuel IH]; [done|]. cbn. by rewrite decide_False by tauto. Qed.

Lemma wait_blocked t fuel q : run handle t (wait fuel) (mkState q []) = OutOfFuel.
Proof. unfold wait. cbn [mbind prog_mbind prog_bind call run handle]. apply wait_loop_blocked. Qed.

End CVFacts.

(** * Schedules *)

(** Thread 0 pushes, loads [head_] and publishes its hazard pointer;
    thread 1 pops the node, which is retired, not deleted; thread 0
    re-reads [head_], retries and finds the stack empty. *)
Example treiber_race_safe :
  match interleave TreiberStack.handle
          (replicate 8 0%nat ++ replicate 10 1%nat ++ replicate 10 0%nat)
          [treiber_first; treiber_second] (TreiberStack.init [] []) with
  | Done (pool, s) =>
      pool = [Ret (false, 0); Ret (true, 7)]
  | _ => False
  end.
Proof. vm_compute. reflexivity. Qed.

Example elim_offer_seen :
  match interleave EliminationStack.handle (replicate 15 0%nat ++ replicate 5 1%nat)
          [elim_pusher; EliminationStack.empty]
          (EliminationStack.init [] [true; true; true; true] [3%nat]) with
  | Done (pool, s) =>
      EliminationStack.head_ s = 0%N ∧
      EliminationStack.arena_ s !! 3%nat = Some 1%N ∧
      pool !! 1%nat = Some (Ret false)
  | _ => False
  end.
Proof. vm_compute. repeat split. Qed.

(** A thread that already has a record links nothing, whatever the object. *)
Lemma fcs_get_request_again t this s :
  default 0%N (FlatCombiningStack.tls_req_ s !! t) ≠ 0%N →
  run FlatCombiningStack.handle t (FlatCombiningStack.get_request this) s =
  Done (default 0%N (FlatCombiningStack.tls_req_ s !! t), s).
Proof.
  intros Hset. unfold FlatCombiningStack.get_request. simpl.
  by rewrite decide_False by done.
Qed.

Lemma fcq_get_request_again t this s :
  default 0%N (FlatCombiningQueue.tls_req_ s !! t) ≠ 0%N →
  run FlatCombiningQueue.handle t (FlatCombiningQueue.get_request this) s =
  Done (default 0%N (FlatCombiningQueue.tls_req_ s !! t), s).
Proof.
  intros Hset. unfold FlatCombiningQueue.get_request. simpl.
  by rewrite decide_False by done.
Qed.

Example treiber_crowd_empty :
  TreiberStack.head_ (treiber_crowd 128) = 0%N ∧
  run TreiberStack.handle 0 TreiberStack.empty (treiber_crowd 128) =
    Done (true, treiber_crowd 128) ∧
  hp.owner <$> TreiberStack.recs (treiber_crowd 128) = Some <$> seq 0 128.
Proof. vm_compute. repeat split. Qed.

Section MSQueueOrder.
Import MSQueue.

Lemma read_follows_cas_cons ev tr v :
  is_value_read ev = false → read_follows_cas tr v → read_follows_cas (ev :: tr) v.
Proof.
  intros Hev (pre & h & x & post & -> & Hpre).
  exists (ev :: pre), h, x, post. split; [done|]. by constructor.
Qed.

Lemma dequeue_loop_order t fuel i s out v s' :
  run handle t (dequeue_loop fuel i out) s = Done ((true, v), s') →
  read_follows_cas (trace handle t (dequeue_loop fuel i out) s) v.
Proof.
  revert s. induction fuel as [|fuel IH]; intros s; [done|].
  cbn [dequeue_loop mbind prog_mbind prog_bind call run trace handle].
  destruct (heap (set_recs (hp.set i (head_ s) (recs s)) s) !! head_ s) as [nd|]; [|done].
  cbn [mbind prog_mbind prog_bind call run trace handle set_recs head_ tail_].
  intros Hrun. repeat (apply read_follows_cas_cons; [done|]). revert Hrun.
  rewrite decide_False by (intros H; by apply H).
  destruct (decide (next nd = 0%N)) as [Hnull|Hnext]; [done|].
  destruct (decide (head_ s = tail_ s)) as [Hlag|Hfront].
  - cbn [mbind prog_mbind prog_bind call run trace handle set_recs head_ tail_].
    rewrite decide_True by done. intros Hrun.
    apply read_follows_cas_cons; [done|]. by apply IH.
  - cbn [mbind prog_mbind prog_bind call run trace handle set_recs head_ tail_].
    rewrite decide_True by done.
    simpl. destruct (heap s !! next nd) as [nx|]; [|done].
    destruct (value nx) as [x|]; [|done]. simpl.
    destruct (hp.retire _ _ _) as [[kept scanned] deleted].
    destruct (delete_nodes deleted (heap s)) as [h'| | |]; try done.
    simpl. intros Hrun. inversion Hrun; subst.
    exists [], (head_ s), (next nd). eexists. split; [reflexivity|]. constructor.
Qed.

Lemma dequeue_order t fuel s out v s' :
  run handle t (dequeue fuel out) s = Done ((true, v), s') →
  read_follows_cas (trace handle t (dequeue fuel out) s) v.
Proof.
  unfold dequeue. cbn [mbind prog_mbind prog_bind call run trace handle].
  destruct (hp.acquire_hazard_record t (recs s)) as [[i recs']|]; [|done].
  intros Hrun. apply read_follows_cas_cons; [done|]. by eapply dequeue_loop_order.
Qed.

End MSQueueOrder.

Section EliminationCentral.
Import EliminationStack.

(** The central path of [pop] when its CAS goes through: the node is
    deleted on the spot. *)
Lemma elim_pop_deletes t fuel out s nd :
  head_ s ≠ 0%N → heap s !! head_ s = Some nd → hd false (spur s) = false →
  (0 < fuel)%nat →
  run handle t (pop fuel out) s =
    Done ((true, value nd),
          mkState (delete (head_ s) (heap s)) (next nd) (arena_ s) (allocs s)
                  (tl (spur s)) (rng_ s)) ∧
  trace handle t (pop fuel out) s =
    [Ev LoadHead (head_ s); Ev (ReadNext (head_ s)) (next nd);
     Ev (CasHeadWeak (head_ s) (next nd)) (true, head_ s);
     Ev (ReadValue (head_ s)) (value nd); Ev (Delete (head_ s)) tt].
Proof.
  intros Hhead Hlk Hsp Hfuel. destruct fuel as [|fuel]; [lia|].
  unfold pop. cbn [pop_loop mbind prog_mbind prog_bind call run trace handle].
  rewrite decide_False by done.
  cbn [mbind prog_mbind prog_bind call run trace handle]. rewrite Hlk.
  cbn [mbind prog_mbind prog_bind call run trace handle]. rewrite decide_True by done.
  destruct (spur s) as [|[] sp]; [|done|]; simpl; rewrite Hlk; simpl;
    unfold delete_node; rewrite decide_False by done; rewrite Hlk; done.
Qed.

End EliminationCentral.

(** * The claims *)

(** C1.  [MSQueue::dequeue] reads the value of the successor only
    after the CAS that advances [head_]: in a run of one thread the
    read event follows the successful CAS event; and under the schedule
    [msq_race] a second dequeuer retires and frees that successor
    between the CAS and the read, so that the read is a use after free
    of node 65, which the reader's hazard record (on node 64) does not
    protect. *)
Theorem C1_msq_value_read_after_head_cas :
  trace MSQueue.handle 0 (_ ← MSQueue.enqueue 1 10; MSQueue.dequeue 1 0)
    (MSQueue.init [] []) =
  [Ev (MSQueue.New 10) 2%N; Ev MSQueue.LoadTail 1%N; Ev (MSQueue.LoadNext 1) 0%N;
   Ev MSQueue.LoadTail 1%N; Ev (MSQueue.CasNextWeak 1 0 2) (true, 0%N);
   Ev (MSQueue.CasTail 1 2) (true, 1%N);
   Ev MSQueue.HpAcquire 0%nat; Ev MSQueue.LoadHead 1%N; Ev (MSQueue.HpSet 0 1) tt;
   Ev MSQueue.LoadTail 2%N; Ev (MSQueue.LoadNext 1) 2%N; Ev MSQueue.LoadHead 1%N;
   Ev (MSQueue.CasHead 1 2) (true, 1%N); Ev (MSQueue.ReadValue 2) 10;
   Ev (MSQueue.HpClear 0) tt; Ev (MSQueue.Retire 1) tt; Ev (MSQueue.HpClear 0) tt] ∧
  match interleave MSQueue.handle msq_before_read [msq_reader; msq_filler]
          (MSQueue.init [] []) with
  | Done (pool, s) =>
      MSQueue.head_ s = 66%N ∧ MSQueue.heap s !! 65%N = None ∧
      MSQueue.recs s !! 1%nat = Some (hp.mkRecord (Some 0%nat) 64%N) ∧
      next_action pool 0 = Some (@existT Type MSQueue.Act Z (MSQueue.ReadValue 65))
  | _ => False
  end ∧
  interleave MSQueue.handle msq_race [msq_reader; msq_filler] (MSQueue.init [] []) =
  Fault (BadDeref 65).
Proof. vm_compute. repeat split. Qed.

(** C2.  The record of a thread is linked into the first
    flat-combining object the thread uses and into no other: in the
    run of tests/test_stacks.cpp, the main thread (0) uses object 1,
    then pops from object 2, which a worker (1) filled with 20.  The
    pop returns [false]; object 2 still holds 20 and its publication
    list holds the worker's record (2) only, not that of the main
    thread (1).  The same client on the queue behaves alike. *)
Theorem C2_fc_record_linked_to_first_object_only :
  match interleave FlatCombiningStack.handle fcs_test_schedule [fcs_main; fcs_worker]
          (FlatCombiningStack.init []) with
  | Done (pool, s) =>
      pool = [Ret [(true, 1); (false, 0)]; Ret []] ∧
      FlatCombiningStack.objs s !! 1%nat = Some (FlatCombiningStack.mkObject [] [1%N]) ∧
      FlatCombiningStack.objs s !! 2%nat = Some (FlatCombiningStack.mkObject [20] [2%N]) ∧
      FlatCombiningStack.tls_req_ s !! 0%nat = Some 1%N ∧
      FlatCombiningStack.tls_req_ s !! 1%nat = Some 2%N
  | _ => False
  end ∧
  match interleave FlatCombiningQueue.handle fcs_test_schedule [fcq_main; fcq_worker]
          (FlatCombiningQueue.init []) with
  | Done (pool, s) =>
      pool = [Ret [(true, 1); (false, 0)]; Ret []] ∧
      FlatCombiningQueue.objs s !! 1%nat = Some (FlatCombiningQueue.mkObject [] [1%N]) ∧
      FlatCombiningQueue.objs s !! 2%nat = Some (FlatCombiningQueue.mkObject [20] [2%N]) ∧
      FlatCombiningQueue.tls_req_ s !! 0%nat = Some 1%N ∧
      FlatCombiningQueue.tls_req_ s !! 1%nat = Some 2%N
  | _ => False
  end.
Proof. vm_compute. repeat split. Qed.

(** C3.  [EliminationStack::pop] on the central path publishes no
    hazard pointer and deletes the unlinked node at once: these are all
    the actions of a push and a pop by one thread; and under the
    schedule [elim_race] the node another popper deleted is
    dereferenced ([old_head->next]), a use after free of node 1. *)
Theorem C3_elim_pop_without_hazard_pointer :
  trace EliminationStack.handle 0 elim_first (EliminationStack.init [] [] []) =
  [Ev (EliminationStack.New 7) 1%N; Ev EliminationStack.LoadHead 0%N;
   Ev (EliminationStack.SetNext 1 0) tt;
   Ev (EliminationStack.CasHeadWeak 0 1) (true, 0%N);
   Ev EliminationStack.LoadHead 1%N; Ev (EliminationStack.ReadNext 1) 0%N;
   Ev (EliminationStack.CasHeadWeak 1 0) (true, 1%N);
   Ev (EliminationStack.ReadValue 1) 7; Ev (EliminationStack.Delete 1) tt] ∧
  match interleave EliminationStack.handle (replicate 5 0%nat ++ replicate 5 1%nat)
          [elim_first; elim_second] (EliminationStack.init [] [] []) with
  | Done (pool, s) =>
      EliminationStack.heap s !! 1%N = None ∧
      pool !! 1%nat = Some (Ret (true, 7)) ∧
      next_action pool 0 =
        Some (@existT Type EliminationStack.Act N (EliminationStack.ReadNext 1))
  | _ => False
  end ∧
  interleave EliminationStack.handle elim_race [elim_first; elim_second]
    (EliminationStack.init [] [] []) = Fault (BadDeref 1).
Proof. vm_compute. repeat split. Qed.

(** C4.  [retire(node)] appends the node to the retired list and runs
    [scan] exactly when the list then holds at least 64 nodes; the
    snapshot of [scan] is the non-null [ptr] values of the hazard
    records; a non-forced scan deletes the retired nodes absent from
    the snapshot and keeps those present; a forced scan deletes all. *)
Theorem C4_retire_and_scan (node : N) (recs : list hp.HazardRecord) (retired_ : list N) :
  (∀ p, p ∈ hp.collect_hazard_pointers recs ↔
        p ≠ 0%N ∧ ∃ r, r ∈ recs ∧ hp.ptr r = p) ∧
  hp.retire node recs retired_ =
    (if decide (64 ≤ length (retired_ ++ [node]))%nat
     then ((hp.scan false recs (retired_ ++ [node])).1, true,
           (hp.scan false recs (retired_ ++ [node])).2)
     else (retired_ ++ [node], false, [])) ∧
  hp.scan false recs retired_ =
    (filter (λ p, p ∈ hp.collect_hazard_pointers recs) retired_,
     filter (λ p, p ∉ hp.collect_hazard_pointers recs) retired_) ∧
  hp.scan true recs retired_ = ([], retired_) ∧
  hp.force_reclaim recs retired_ = ([], retired_).
Proof.
  split; [apply elem_of_collect|]. split; [|split; [apply scan_normal|]].
  - unfold hp.retire, hp.threshold_. case_decide; [|done].
    by destruct (hp.scan false recs (retired_ ++ [node])).
  - split; apply scan_forced.
Qed.







(** C7, as stated, fails at the largest [std::size_t]: [notify_one]
    takes [seq_] from [2^64 - 1] to [0], which is neither an increment
    by one nor non-decreasing. *)
Lemma C7_counterexample :
  ∃ s', run CVNoSpurious.handle 0 CVNoSpurious.notify_one
          (CVNoSpurious.mkState CVNoSpurious.SIZE_MAX []) = Done (tt, s') ∧
        CVNoSpurious.seq_ s' ≠ CVNoSpurious.SIZE_MAX + 1 ∧
        ¬ (CVNoSpurious.SIZE_MAX ≤ CVNoSpurious.seq_ s').
Proof.
  eexists. split; [reflexivity|]. vm_compute. split; [discriminate|]. intros H. by apply H.
Qed.

(** C7, amended.  [notify_one] and [notify_all] first add one to
    [seq_] modulo [2^64], an increment by exactly one unless [seq_] is
    [2^64 - 1], where it wraps to [0], and then wake waiters;
    [wait(lock)] samples [seq_] on entry and returns only on a load of
    [seq_] that differs from the sample, every earlier load being equal
    to it; with no notification it does not return. *)
Theorem C7_notify_bumps_wait_filters (t : nat) (fuel : nat) (s : CVNoSpurious.state) :
  (∃ old, trace CVNoSpurious.handle t CVNoSpurious.notify_one s =
          [Ev (CVNoSpurious.FetchAddSeq 1) old; Ev CVNoSpurious.CvNotifyOne tt]) ∧
  (∃ old, trace CVNoSpurious.handle t CVNoSpurious.notify_all s =
          [Ev (CVNoSpurious.FetchAddSeq 1) old; Ev CVNoSpurious.CvNotifyAll tt]) ∧
  (∀ old s1, CVNoSpurious.handle t _ (CVNoSpurious.FetchAddSeq 1) s = Done (old, s1) →
             CVNoSpurious.seq_ s1 = (old + 1) `mod` 2 ^ 64) ∧
  (∀ q, 0 ≤ q < CVNoSpurious.SIZE_MAX → (q + 1) `mod` 2 ^ 64 = q + 1) ∧
  (CVNoSpurious.SIZE_MAX + 1) `mod` 2 ^ 64 = 0 ∧
  (∀ s', run CVNoSpurious.handle t (CVNoSpurious.wait fuel) s = Done (tt, s') →
     ∃ s0 mid cur,
       loads (trace CVNoSpurious.handle t (CVNoSpurious.wait fuel) s) =
         s0 :: mid ++ [cur] ∧
       Forall (λ v, v = s0) mid ∧ cur ≠ s0) ∧
  (∀ q, run CVNoSpurious.handle t (CVNoSpurious.wait fuel) (CVNoSpurious.mkState q []) =
        OutOfFuel).
Proof.
  split; [apply notify_one_trace|]. split; [apply notify_all_trace|].
  split; [|split; [|split; [done|split]]].
  - intros old s1 H. by apply fetch_add_seq in H.
  - intros q Hq. apply Z.mod_small. unfold CVNoSpurious.SIZE_MAX in Hq. lia.
  - intros s' Hrun. by eapply wait_returns.
  - intros q. apply wait_blocked.
Qed.

Lemma C7_notify_bumps_wait_filters_witness :
  run CVNoSpurious.handle 0 (CVNoSpurious.wait 3) (CVNoSpurious.mkState 5 [0; 0; 0; 1]%nat) =
    Done (tt, CVNoSpurious.mkState 6 []) ∧
  ∃ s0 mid cur,
    loads (trace CVNoSpurious.handle 0 (CVNoSpurious.wait 3)
             (CVNoSpurious.mkState 5 [0; 0; 0; 1]%nat)) = s0 :: mid ++ [cur] ∧
    Forall (λ v, v = s0) mid ∧ cur ≠ s0.
Proof.
  split; [reflexivity|].
  destruct (C7_notify_bumps_wait_filters 0 3 (CVNoSpurious.mkState 5 [0; 0; 0; 1]%nat))
    as (_ & _ & _ & _ & _ & Hwait & _).
  apply (Hwait (CVNoSpurious.mkState 6 [])). reflexivity.
Defined.

(** C8, as stated, fails when the hazard records are used up: after
    threads 0 to 127 have each popped once, a pop by thread 128 on the
    empty Treiber stack aborts in [acquire_hazard_record] instead of
    returning [false]. *)
Lemma C8_counterexample :
  run TreiberStack.handle 128 TreiberStack.empty (treiber_crowd 128) =
    Done (true, treiber_crowd 128) ∧
  run TreiberStack.handle 128 (TreiberStack.pop 1 0) (treiber_crowd 128) = Aborted.
Proof. vm_compute. by split. Qed.

(** C8, amended.  A pop or dequeue on an empty container on which no
    other thread has an operation pending returns [false] and leaves
    the out-parameter alone, for the Treiber stack and the
    Michael-Scott queue provided a hazard record is available to the
    caller.  In flat combining, the combiner sets [success] of a
    visited pop or dequeue record to [false] exactly when the sequence
    is empty at that moment and does not write the flag of a push or
    enqueue record; for a thread whose record is linked in the object,
    push and enqueue return with the value appended. *)
Theorem C8_empty_is_a_value (t this fuel : nat) (out : Z) :
  (0 < fuel)%nat →
  SGLStack.pop out [] = (false, out, []) ∧
  SGLQueue.dequeue out [] = (false, out, []) ∧
  (∀ s, TreiberStack.head_ s = 0%N → available t (TreiberStack.recs s) →
     ∃ s', run TreiberStack.handle t (TreiberStack.pop fuel out) s = Done ((false, out), s')) ∧
  (∀ s nd, MSQueue.heap s !! MSQueue.head_ s = Some nd → MSQueue.next nd = 0%N →
     available t (MSQueue.recs s) →
     ∃ s', run MSQueue.handle t (MSQueue.dequeue fuel out) s = Done ((false, out), s')) ∧
  (∀ s, EliminationStack.head_ s = 0%N → arena_clear s →
     ∃ s', run EliminationStack.handle t (EliminationStack.pop fuel out) s =
           Done ((false, out), s')) ∧
  (∀ s, fcs_quiet this s [] → fcs_tls_ok t s →
     ∃ s', run FlatCombiningStack.handle t (FlatCombiningStack.pop this out) s =
           Done ((false, out), s')) ∧
  (∀ s, fcq_quiet this s [] → fcq_tls_ok t s →
     ∃ s', run FlatCombiningQueue.handle t (FlatCombiningQueue.dequeue this out) s =
           Done ((false, out), s')) ∧
  (∀ r data rq rec,
     rq !! r = Some rec → FlatCombiningStack.op rec = FlatCombiningStack.POP →
     ∃ data' rec',
       FlatCombiningStack.combine_one r (Done (data, rq)) = Done (data', <[r := rec']> rq) ∧
       FlatCombiningStack.op rec' = FlatCombiningStack.NONE ∧
       (FlatCombiningStack.success rec' = false ↔ data = [])) ∧
  (∀ r data rq rec,
     rq !! r = Some rec → FlatCombiningQueue.op rec = FlatCombiningQueue.DEQ →
     ∃ data' rec',
       FlatCombiningQueue.combine_one r (Done (data, rq)) = Done (data', <[r := rec']> rq) ∧
       FlatCombiningQueue.op rec' = FlatCombiningQueue.NONE ∧
       (FlatCombiningQueue.success rec' = false ↔ data = [])) ∧
  (∀ r data rq rec,
     rq !! r = Some rec → FlatCombiningStack.op rec = FlatCombiningStack.PUSH →
     FlatCombiningStack.combine_one r (Done (data, rq)) =
     Done (data ++ [FlatCombiningStack.value rec],
           <[r := FlatCombiningStack.mkRequest FlatCombiningStack.NONE
                    (FlatCombiningStack.value rec) (FlatCombiningStack.success rec)]> rq)) ∧
  (∀ r data rq rec,
     rq !! r = Some rec → FlatCombiningQueue.op rec = FlatCombiningQueue.ENQ →
     FlatCombiningQueue.combine_one r (Done (data, rq)) =
     Done (data ++ [FlatCombiningQueue.value rec],
           <[r := FlatCombiningQueue.mkRequest FlatCombiningQueue.NONE
                    (FlatCombiningQueue.value rec) (FlatCombiningQueue.success rec)]> rq)) ∧
  (∀ s data v, fcs_inv this t s data →
     ∃ s', run FlatCombiningStack.handle t (FlatCombiningStack.push this v) s = Done (tt, s') ∧
           fcs_inv this t s' (data ++ [v])) ∧
  (∀ s data v, fcq_inv this t s data →
     ∃ s', run FlatCombiningQueue.handle t (FlatCombiningQueue.enqueue this v) s =
           Done (tt, s') ∧
           fcq_inv this t s' (data ++ [v])).
Proof.
  intros Hfuel. split; [done|]. split; [done|].
  split; [intros; by apply treiber_pop_empty|].
  split; [intros; by eapply msq_dequeue_empty|].
  split; [intros; by apply elim_pop_empty|].
  split; [intros; by apply fcs_pop_empty|].
  split; [intros; by apply fcq_dequeue_empty|].
  split.
  { intros r data rq rec Hlk Hop.
    destruct (fcs_visit_pop r data rq rec Hlk Hop) as (data' & rec' & ? & ? & ? & _).
    by exists data', rec'. }
  split.
  { intros r data rq rec Hlk Hop.
    destruct (fcq_visit_dequeue r data rq rec Hlk Hop) as (data' & rec' & ? & ? & ? & _).
    by exists data', rec'. }
  split; [intros; by apply fcs_visit_push|].
  split; [intros; by apply fcq_visit_enqueue|].
  split; [intros; by apply fcs_push_spec|].
  intros; by apply fcq_enqueue_spec.
Qed.

Lemma C8_empty_is_a_value_witness :
  (0 < 1)%nat ∧
  ∃ s', run TreiberStack.handle 0 (TreiberStack.pop 1 5) (TreiberStack.init [] []) =
        Done ((false, 5), s').
Proof.
  split; [lia|].
  destruct (C8_empty_is_a_value 0 1 1 5) as (_ & _ & Htreiber & _); [lia|].
  apply Htreiber; [reflexivity|]. right. by exists 0%nat.
Defined.

(** C9.  [EliminationStack::empty()] returns [true] exactly when
    [head_] is null and each of the 16 arena slots is null; as soon as
    a pusher's offer is in a slot, [empty()] returns [false] although
    the central list is empty. *)
Theorem C9_elim_empty_checks_arena (t : nat) (s : EliminationStack.state) :
  length (EliminationStack.arena_ s) = EliminationStack.ELIM_ARRAY_SIZE →
  EliminationStack.ELIM_ARRAY_SIZE = 16%nat ∧
  run EliminationStack.handle t EliminationStack.empty s =
    Done (bool_decide (EliminationStack.head_ s = 0%N ∧
                       Forall (λ p, p = 0%N) (EliminationStack.arena_ s)), s) ∧
  (∀ t' idx n s',
     n ≠ 0%N →
     EliminationStack.handle t' _ (EliminationStack.ArenaCas idx 0%N n) s =
       Done ((true, 0%N), s') →
     EliminationStack.head_ s' = EliminationStack.head_ s ∧
     run EliminationStack.handle t EliminationStack.empty s' = Done (false, s')).
Proof.
  intros Hlen. split; [done|]. split; [by apply elim_empty_spec|].
  intros t' idx n s' Hn Hcas. by eapply elim_offer_not_empty.
Qed.

Lemma C9_elim_empty_checks_arena_witness :
  length (EliminationStack.arena_ (EliminationStack.init [] [] [])) =
    EliminationStack.ELIM_ARRAY_SIZE ∧
  run EliminationStack.handle 0 EliminationStack.empty (EliminationStack.init [] [] []) =
    Done (true, EliminationStack.init [] [] []).
Proof.
  split; [reflexivity|].
  destruct (C9_elim_empty_checks_arena 0 (EliminationStack.init [] [] []))
    as (_ & Hempty & _); [reflexivity|].
  exact Hempty.
Defined.



(** * Further properties *)

Section HpAcquire.
Import hp.

Lemma find_record_None f recs :
  find_record f recs = None ↔ ∀ r, r ∈ recs → f r = false.
Proof.
  induction recs as [|r recs IH]; simpl.
  - split; [|done]. intros _ r Hr. by apply elem_of_nil in Hr.
  - destruct (f r) eqn:Hf.
    + split; [done|]. intros H. rewrite H in Hf; [done|]. apply elem_of_cons; by left.
    + destruct (find_record f recs) as [j|] eqn:Hj; simpl.
      * split; [done|]. intros H. destruct IH as [_ IH].
        discriminate IH. intros r' Hr'. apply H. apply elem_of_cons; by right.
      * split; [|done]. intros _ r' Hr'. apply elem_of_cons in Hr' as [->|Hr']; [done|].
        destruct IH as [IH _]. by apply IH.
Qed.

Lemma find_record_first f recs i :
  find_record f recs = Some i → ∀ j r, (j < i)%nat → recs !! j = Some r → f r = false.
Proof.
  revert i. induction recs as [|r recs IH]; intros i; simpl; [done|].
  destruct (f r) eqn:Hf.
  - intros [= <-] j r' Hj. lia.
  - destruct (find_record f recs) as [k|] eqn:Hk; simpl; [|done].
    intros [= <-] [|j] r' Hj; simpl.
    + by intros [= <-].
    + intros Hr'. eapply (IH k eq_refl j); [lia|done].
Qed.

Lemma acquire_spec me recs i recs' :
  acquire_hazard_record me recs = Some (i, recs') →
  (∃ r, recs !! i = Some r ∧ (owner r = Some me ∨ owner r = None) ∧
        recs' = <[i := mkRecord (Some me) (ptr r)]> recs).
Proof.
  unfold acquire_hazard_record.
  destruct (find_record (owned_by me) recs) as [k|] eqn:Ho.
  - intros [= <- <-]. apply find_record_Some in Ho as (r & Hr & Hf).
    apply bool_decide_eq_true in Hf. exists r. split; [done|]. split; [by left|].
    symmetry. apply list_insert_id. rewrite Hr. f_equal. destruct r; simpl in *. by subst.
  - destruct (find_record is_free recs) as [k|] eqn:Hfree; [|done].
    intros [= <- <-]. apply find_record_Some in Hfree as (r & Hr & Hf).
    apply bool_decide_eq_true in Hf. exists r. split; [done|]. split; [by right|].
    apply list_eq. intros j. destruct (decide (j = k)) as [->|Hne].
    + rewrite list_lookup_alter_eq, list_lookup_insert_eq by (by eapply lookup_lt_Some).
      by rewrite Hr.
    + by rewrite list_lookup_alter_ne, list_lookup_insert_ne.
Qed.

End HpAcquire.

Section HpClaim.
Import hp.

Lemma find_record_alter_at (f : HazardRecord → bool) (g : HazardRecord → HazardRecord) j recs :
  (∀ r, recs !! j = Some r → f (g r) = f r) →
  find_record f (alter g j recs) = find_record f recs.
Proof.
  revert j. induction recs as [|r recs IH]; intros j Hfg; [done|].
  destruct j as [|j]; simpl.
  - by rewrite Hfg.
  - destruct (f r); [done|]. f_equal. apply IH. intros r' Hr'. by apply Hfg.
Qed.

Lemma find_record_insert_at (f : HazardRecord → bool) j x recs r :
  recs !! j = Some r → f x = f r →
  find_record f (<[j := x]> recs) = find_record f recs.
Proof.
  revert j. induction recs as [|r0 recs IH]; intros j; [done|].
  destruct j as [|j]; simpl.
  - intros [= ->] ->. done.
  - intros Hr Hf. destruct (f r0); [done|]. f_equal. by apply IH.
Qed.

Lemma owned_not_free me r : owned_by me r = true → is_free r = false.
Proof.
  unfold owned_by, is_free. intros H%bool_decide_eq_true.
  apply bool_decide_eq_false. congruence.
Qed.

Lemma claimed_by_not_owned t done k :
  t ∉ done → find_record (owned_by t) (claimed_by done k) = None.
Proof.
  intros Ht. apply find_record_None. intros r Hr. unfold claimed_by in Hr.
  apply elem_of_app in Hr as [Hr|Hr].
  - apply list_elem_of_fmap in Hr as (t' & -> & Ht'). unfold owned_by. simpl.
    apply bool_decide_eq_false. intros [= ->]. done.
  - apply elem_of_replicate in Hr as [-> _]. done.
Qed.

Lemma claimed_by_free done k :
  find_record is_free (claimed_by done k) =
  if decide (k = 0)%nat then None else Some (length done).
Proof.
  unfold claimed_by. induction done as [|t done IH].
  - destruct k; simpl; done.
  - cbn [fmap list_fmap app find_record is_free owner]. 
    rewrite IH. by case_decide.
Qed.

Lemma claimed_by_claim t done k :
  alter (λ r, mkRecord (Some t) (ptr r)) (length done) (claimed_by done (S k)) =
  claimed_by (done ++ [t]) k.
Proof.
  unfold claimed_by. induction done as [|t' done IH]; [done|].
  cbn [fmap list_fmap app length]. 
  change (alter ?f (S ?n) (?x :: ?l)) with (x :: alter f n l). by rewrite IH.
Qed.

Lemma acquire_each_claimed ts done k :
  NoDup (done ++ ts) → (length ts ≤ k)%nat →
  acquire_each ts (claimed_by done k) =
  Some (seq (length done) (length ts), claimed_by (done ++ ts) (k - length ts)).
Proof.
  revert done k. induction ts as [|t ts IH]; intros done k Hnd Hlen; simpl.
  - by rewrite app_nil_r, Nat.sub_0_r.
  - simpl in Hlen. destruct k as [|k]; [lia|].
    assert (Ht : t ∉ done).
    { apply NoDup_app in Hnd as (_ & Hdisj & _). intros Hin. apply (Hdisj t Hin).
      apply elem_of_cons; by left. }
    unfold acquire_hazard_record. rewrite claimed_by_not_owned by done.
    rewrite claimed_by_free. rewrite decide_False by lia.
    rewrite claimed_by_claim. rewrite (IH (done ++ [t]) k).
    + rewrite length_app. simpl. rewrite Nat.add_1_r. by rewrite <- app_assoc.
    + by rewrite <- app_assoc.
    + lia.
Qed.

Lemma set_owner i p recs : owner <$> set i p recs = owner <$> recs.
Proof.
  unfold set. revert i. induction recs as [|r l IH]; intros [|i]; try done.
  change (alter ?f (S ?n) (?x :: ?l)) with (x :: alter f n l).
  cbn [fmap list_fmap]. f_equal. apply IH.
Qed.

End HpClaim.

(** X1.  A thread's [HazardPointerOwner] gets the record the thread owns, or
    claims the first free one.  Afterwards the thread owns record [i];
    no other record and no [ptr] has changed; a second owner object of
    the same thread gets the same record; another thread never gets
    record [i], and its acquisition leaves [i] with its owner. *)
Theorem hp_acquire_exclusive (me other : nat) (recs recs' : list hp.HazardRecord) (i : nat) :
  hp.acquire_hazard_record me recs = Some (i, recs') →
  owns me i recs' ∧
  length recs' = length recs ∧
  (∀ j, j ≠ i → recs' !! j = recs !! j) ∧
  hp.ptr <$> recs' !! i = hp.ptr <$> recs !! i ∧
  hp.acquire_hazard_record me recs' = Some (i, recs') ∧
  (other ≠ me → ∀ j recs'', hp.acquire_hazard_record other recs' = Some (j, recs'') →
     j ≠ i ∧ owns me i recs'').
Proof.
  intros Hacq.
  assert (Hown : owns me i recs').
  { revert Hacq. unfold hp.acquire_hazard_record, owns.
    destruct (hp.find_record (hp.owned_by me) recs) as [k|] eqn:Ho.
    - by intros [= <- <-].
    - destruct (hp.find_record hp.is_free recs) as [k|] eqn:Hf; [|done].
      intros [= <- <-]. by apply find_record_claimed. }
  destruct (acquire_spec _ _ _ _ Hacq) as (r & Hr & Hor & ->).
  split; [done|]. split; [by rewrite length_insert|].
  split; [intros j Hj; by rewrite list_lookup_insert_ne|].
  split.
  { rewrite list_lookup_insert_eq by (by eapply lookup_lt_Some). by rewrite Hr. }
  split; [by apply acquire_owned|].
  intros Hne j recs'' Hacq'.
  destruct (acquire_spec _ _ _ _ Hacq') as (r' & Hr' & Hor' & ->).
  assert (Hji : j ≠ i).
  { intros ->. rewrite list_lookup_insert_eq in Hr' by (by eapply lookup_lt_Some).
    injection Hr' as <-. simpl in Hor'. destruct Hor' as [[= ?]|?]; done. }
  split; [done|].
  unfold owns in *. rewrite <- Hown.
  apply (find_record_insert_at _ _ _ _ r'); [done|].
  unfold hp.owned_by. simpl. rewrite bool_decide_eq_false_2 by congruence.
  symmetry. apply bool_decide_eq_false. destruct Hor' as [->| ->]; congruence.
Qed.

Lemma hp_acquire_exclusive_witness :
  hp.acquire_hazard_record 7 hp.g_hazard_records =
    Some (0%nat, <[0%nat := hp.mkRecord (Some 7%nat) 0%N]> hp.g_hazard_records) ∧
  owns 7 0 (<[0%nat := hp.mkRecord (Some 7%nat) 0%N]> hp.g_hazard_records).
Proof.
  split; [reflexivity|].
  apply (hp_acquire_exclusive 7 8 hp.g_hazard_records _ 0). reflexivity.
Defined.

(** X2.  Records are claimed and never given back.  From the initial
    registry, up to 128 distinct threads get the records 0, 1, 2, ... in
    the order in which they ask; once 128 threads have asked, every
    other thread is refused (the process aborts), whatever [ptr] values
    have been set or cleared since. *)
Theorem hp_records_run_out (ts : list nat) :
  NoDup ts → (length ts ≤ hp.MAX_HAZARD_POINTERS)%nat →
  ∃ recs,
    acquire_each ts hp.g_hazard_records = Some (seq 0 (length ts), recs) ∧
    hp.owner <$> recs =
      (Some <$> ts) ++ replicate (hp.MAX_HAZARD_POINTERS - length ts) None ∧
    (length ts = hp.MAX_HAZARD_POINTERS →
     ∀ t i p, t ∉ ts →
       hp.acquire_hazard_record t recs = None ∧
       hp.acquire_hazard_record t (hp.set i p recs) = None ∧
       hp.acquire_hazard_record t (hp.clear i recs) = None).
Proof.
  intros Hnd Hlen.
  exists (claimed_by ts (hp.MAX_HAZARD_POINTERS - length ts)).
  split; [|split].
  - change hp.g_hazard_records with (claimed_by [] hp.MAX_HAZARD_POINTERS).
    by rewrite (acquire_each_claimed ts [] hp.MAX_HAZARD_POINTERS).
  - unfold claimed_by. rewrite fmap_app, fmap_replicate. f_equal.
    rewrite <- list_fmap_compose. done.
  - intros Hfull t i p Ht. rewrite Hfull, Nat.sub_diag.
    assert (Hany : ∀ j q, hp.acquire_hazard_record t (hp.set j q (claimed_by ts 0)) = None).
    { intros j q. unfold hp.acquire_hazard_record, hp.set.
      rewrite !find_record_alter by done.
      rewrite claimed_by_not_owned by done. by rewrite claimed_by_free. }
    split; [|split; [apply Hany|apply Hany]].
    unfold hp.acquire_hazard_record.
    rewrite claimed_by_not_owned by done. by rewrite claimed_by_free.
Qed.

Lemma hp_records_run_out_witness :
  NoDup (seq 0 128) ∧ (length (seq 0 128) ≤ hp.MAX_HAZARD_POINTERS)%nat ∧
  ∃ recs, acquire_each (seq 0 128) hp.g_hazard_records = Some (seq 0 128, recs) ∧
          hp.acquire_hazard_record 128 recs = None.
Proof.
  split; [apply NoDup_seq|]. split; [vm_compute; lia|].
  destruct (hp_records_run_out (seq 0 128)) as (recs & Hacq & _ & Hfull);
    [apply NoDup_seq|vm_compute; lia|].
  exists recs. split; [exact Hacq|].
  apply (Hfull eq_refl 128%nat 0%nat 0%N).
  intros Hin. apply elem_of_seq in Hin. lia.
Defined.


Section HeapFrame.
Context {V : Type}.
Implicit Types (h : gmap N V) (p : N).

(** Whatever [delete_nodes] does, it touches the listed nodes only. *)
Lemma delete_nodes_frame (ps : list N) h h' q :
  delete_nodes ps h = Done h' → q ∉ ps → h' !! q = h !! q.
Proof.
  revert h. induction ps as [|p ps IH]; intros h; simpl.
  - by intros [= <-].
  - intros Hdel Hq. apply not_elem_of_cons in Hq as [Hqp Hq].
    unfold delete_node in Hdel. case_decide as Hp0.
    + by apply IH.
    + destruct (h !! p) as [v|] eqn:Hv; [|done].
      rewrite (IH _ Hdel Hq). by rewrite lookup_delete_ne.
Qed.

End HeapFrame.

Section HpRetire.
Import hp.

Lemma collect_length recs : (length (collect_hazard_pointers recs) ≤ length recs)%nat.
Proof.
  unfold collect_hazard_pointers. rewrite <- (length_fmap ptr recs). apply length_filter.
Qed.

Lemma retire_protected node recs retired_ kept scanned deleted p :
  retire node recs retired_ = (kept, scanned, deleted) →
  p ≠ 0%N → (∃ r, r ∈ recs ∧ ptr r = p) →
  (p ∉ deleted) ∧ (p ∈ retired_ ++ [node] → p ∈ kept).
Proof.
  intros Hret Hp Hr.
  assert (Hhz : p ∈ collect_hazard_pointers recs) by (by apply elem_of_collect).
  revert Hret. unfold retire. case_decide as Hlen.
  - rewrite scan_normal. intros [= <- <- <-]. split.
    + intros Hin. apply list_elem_of_filter in Hin as [Hn _]. done.
    + intros Hin. by apply list_elem_of_filter.
  - intros [= <- <- <-]. split; [|done]. intros Hin. by apply elem_of_nil in Hin.
Qed.

End HpRetire.

(** X3.  [retire] never hands to the deleter a node that a hazard record
    points to: whichever thread retires whichever node, a node [p] that
    some record protects keeps its memory, and if it is on the retired
    list (or is the node being retired) it stays there for a later scan.
    Treiber stack and Michael-Scott queue. *)
Theorem retire_keeps_protected (t : nat) (q p : N) :
  p ≠ 0%N →
  (∀ s s', (∃ r, r ∈ TreiberStack.recs s ∧ hp.ptr r = p) →
     TreiberStack.handle t _ (TreiberStack.Retire q) s = Done (tt, s') →
     TreiberStack.heap s' !! p = TreiberStack.heap s !! p ∧
     (p ∈ default [] (TreiberStack.retired s !! t) ++ [q] →
      p ∈ default [] (TreiberStack.retired s' !! t))) ∧
  (∀ s s', (∃ r, r ∈ MSQueue.recs s ∧ hp.ptr r = p) →
     MSQueue.handle t _ (MSQueue.Retire q) s = Done (tt, s') →
     MSQueue.heap s' !! p = MSQueue.heap s !! p ∧
     (p ∈ default [] (MSQueue.retired s !! t) ++ [q] →
      p ∈ default [] (MSQueue.retired s' !! t))).
Proof.
  intros Hp. split.
  - intros s s' Hr. cbn [TreiberStack.handle].
    destruct (hp.retire q (TreiberStack.recs s) (default [] (TreiberStack.retired s !! t)))
      as [[kept scanned] deleted] eqn:Hret.
    destruct (retire_protected _ _ _ _ _ _ p Hret Hp Hr) as [Hnd Hk].
    destruct (delete_nodes deleted (TreiberStack.heap s)) as [h'| | |] eqn:Hdel; try done.
    intros [= <-]. simpl. rewrite lookup_insert_eq. simpl.
    split; [by eapply delete_nodes_frame|done].
  - intros s s' Hr. cbn [MSQueue.handle].
    destruct (hp.retire q (MSQueue.recs s) (default [] (MSQueue.retired s !! t)))
      as [[kept scanned] deleted] eqn:Hret.
    destruct (retire_protected _ _ _ _ _ _ p Hret Hp Hr) as [Hnd Hk].
    destruct (delete_nodes deleted (MSQueue.heap s)) as [h'| | |] eqn:Hdel; try done.
    intros [= <-]. simpl. rewrite lookup_insert_eq. simpl.
    split; [by eapply delete_nodes_frame|done].
Qed.

Lemma retire_keeps_protected_witness :
  (5 ≠ 0)%N ∧
  ∃ s', TreiberStack.handle 3 _ (TreiberStack.Retire 64) protected_state = Done (tt, s') ∧
        TreiberStack.retired s' !! 3%nat = Some [5%N] ∧
        TreiberStack.heap s' !! 4%N = None ∧
        TreiberStack.heap s' !! 5%N = TreiberStack.heap protected_state !! 5%N.
Proof.
  split; [done|].
  destruct (TreiberStack.handle 3 _ (TreiberStack.Retire 64) protected_state)
    as [[[] s']| | |] eqn:Hrun; try (vm_compute in Hrun; discriminate).
  exists s'. split; [done|].
  destruct (retire_keeps_protected 3 64 5) as [Htr _]; [done|].
  destruct (Htr protected_state s') as [Hkeep _].
  { exists (hp.mkRecord (Some 0%nat) 5%N). split; [|done].
    by apply (list_elem_of_lookup_2 _ 0%nat). }
  { exact Hrun. }
  split; [|split; [|exact Hkeep]].
  - vm_compute in Hrun. by injection Hrun as <-.
  - vm_compute in Hrun. by injection Hrun as <-.
Defined.

(** X4.  The retired list of a thread stays short: if the nodes on it are
    distinct, then after [retire] it holds fewer than 64 nodes when no
    scan ran, and after a scan only nodes that hazard records point to,
    so at most as many as there are records (128). *)
Theorem hp_retired_list_bounded (node : N) (recs : list hp.HazardRecord)
    (retired_ kept deleted : list N) (scanned : bool) :
  NoDup (retired_ ++ [node]) →
  hp.retire node recs retired_ = (kept, scanned, deleted) →
  (scanned = false → length kept < hp.threshold_)%nat ∧
  (scanned = true → length kept ≤ length (hp.collect_hazard_pointers recs))%nat ∧
  (length kept ≤ max (hp.threshold_ - 1) (length recs))%nat.
Proof.
  intros Hnd Hret.
  assert (Hcases : (scanned = false ∧ length kept < hp.threshold_)%nat ∨
                   (scanned = true ∧
                    length kept ≤ length (hp.collect_hazard_pointers recs))%nat).
  { revert Hret. unfold hp.retire. case_decide as Hlen.
    - rewrite scan_normal. intros [= <- <- <-]. right. split; [done|].
      apply submseteq_length, NoDup_submseteq.
      + by apply NoDup_filter.
      + intros p Hin. by apply list_elem_of_filter in Hin as [Hn _].
    - intros [= <- <- <-]. left. split; [done|]. lia. }
  pose proof (collect_length recs) as Hcl.
  destruct Hcases as [[-> Hl]|[-> Hl]].
  - split; [done|]. split; [done|]. unfold hp.threshold_ in *. lia.
  - split; [done|]. split; [done|]. lia.
Qed.

Lemma hp_retired_list_bounded_witness :
  NoDup ((N.of_nat <$> seq 1 63) ++ [64%N]) ∧
  (length (hp.retire 64 (hp.set 0 5%N hp.g_hazard_records) (N.of_nat <$> seq 1 63)).1.1
   ≤ max (hp.threshold_ - 1) (length (hp.set 0 5%N hp.g_hazard_records)))%nat.
Proof.
  assert (Hnd : NoDup ((N.of_nat <$> seq 1 63) ++ [64%N])).
  { refine (bool_decide_unpack _ _). vm_compute. exact I. }
  split; [exact Hnd|].
  destruct (hp.retire 64 (hp.set 0 5%N hp.g_hazard_records) (N.of_nat <$> seq 1 63))
    as [[kept scanned] deleted] eqn:Hret.
  apply (hp_retired_list_bounded 64 _ _ kept deleted scanned Hnd Hret).
Defined.


Section DrainFacts.
Context {V : Type}.
Implicit Types (h : gmap N V).

Lemma without_lookup (cells : list N) h q :
  without cells h !! q = if decide (q ∈ cells) then None else h !! q.
Proof.
  unfold without. revert h. induction cells as [|c cells IH]; intros h.
  - cbn [foldl]. case_decide as H; [by apply elem_of_nil in H|done].
  - cbn [foldl]. rewrite IH. destruct (decide (q = c)) as [->|Hne].
    + rewrite lookup_delete_eq. rewrite (decide_True (P := c ∈ c :: cells)).
      * by case_decide.
      * apply elem_of_cons; by left.
    + rewrite lookup_delete_ne by done.
      case_decide as H1; case_decide as H2; try done.
      * exfalso. apply H2. apply elem_of_cons; by right.
      * apply elem_of_cons in H2 as [?|?]; done.
Qed.

End DrainFacts.

Section DrainList.
Context {Node : Type} (val : Node → Z) (nxt : Node → N).
Implicit Types (h : gmap N Node).

Lemma drain_lseg fuel h p cells xs :
  lseg val nxt h p cells xs → NoDup cells → (length cells < fuel)%nat →
  drain nxt fuel p h = Done (without cells h).
Proof.
  revert h p cells xs. induction fuel as [|fuel IH]; intros h p cells xs Hseg Hnd Hfuel; [lia|].
  destruct cells as [|c cells], xs as [|x xs]; simpl in Hseg; try done.
  - subst p. simpl. done.
  - destruct Hseg as (-> & Hc & nd & Hlk & Hv & Hseg). simpl.
    rewrite decide_False by done. rewrite Hlk. unfold delete_node.
    rewrite decide_False by done. rewrite Hlk.
    apply NoDup_cons in Hnd as [Hcc Hnd].
    apply (IH _ _ cells xs); [|done|simpl in Hfuel; lia].
    eapply lseg_agree; [|done]. intros c' Hc'. rewrite lookup_delete_ne; [done|].
    by intros <-.
Qed.

End DrainList.

Section LsegLength.
Context {Node : Type} (val : Node → Z) (nxt : Node → N).

Lemma lseg_length (h : gmap N Node) p cells xs :
  lseg val nxt h p cells xs → length cells = length xs.
Proof.
  revert p xs. induction cells as [|c cells IH]; intros p [|x xs]; simpl; try done.
  intros (_ & _ & nd & _ & _ & Hseg). f_equal. by eapply IH.
Qed.

End LsegLength.

Section QueueDrain.
Import MSQueue.

Lemma qchain_length (h : gmap N Node) p cells xs last :
  qchain h p cells xs last → length cells = length xs.
Proof.
  revert p xs. induction cells as [|c cells IH]; intros p [|x xs]; simpl; try done.
  intros (_ & _ & _ & Hch). f_equal. by eapply IH.
Qed.

Lemma drain_qchain fuel (h : gmap N Node) p cells xs last :
  qchain h p cells xs last → p ≠ 0%N → NoDup (p :: cells) →
  (S (length cells) < fuel)%nat →
  drain next fuel p h = Done (without (p :: cells) h).
Proof.
  revert h p cells xs. induction fuel as [|fuel IH];
    intros h p cells xs Hch Hp Hnd Hfuel; [lia|].
  destruct cells as [|c cells], xs as [|x xs]; simpl in Hch; try done.
  - destruct Hch as [-> (nd & Hlk & Hnx)]. simpl.
    rewrite decide_False by done. rewrite Hlk. unfold delete_node.
    rewrite decide_False by done. rewrite Hlk, Hnx.
    destruct fuel as [|fuel]; [simpl in Hfuel; lia|]. done.
  - destruct Hch as (Hc & (nd & Hlk & Hnx) & Hval & Hch). simpl.
    rewrite decide_False by done. rewrite Hlk. unfold delete_node.
    rewrite decide_False by done. rewrite Hlk, Hnx.
    apply NoDup_cons in Hnd as [Hpc Hnd].
    rewrite (IH _ _ cells xs); [done| |done|done|simpl in Hfuel; lia].
    eapply qchain_agree; [|done]. intros c' Hc'. rewrite lookup_delete_ne; [done|].
    by intros <-.
Qed.

End QueueDrain.




Section TreiberSequential.
Import TreiberStack.

Lemma treiber_empty_spec t s xs :
  stack_inv t s xs → run handle t empty s = Done (bool_decide (xs = []), s).
Proof.
  intros (cells & Hseg & _). unfold empty. cbn. do 2 f_equal.
  apply bool_decide_ext. split.
  - intros Hnull. rewrite Hnull in Hseg. by apply lseg_null in Hseg as [_ ->].
  - intros ->. destruct cells; simpl in Hseg; done.
Qed.

End TreiberSequential.

(** X6.  The Treiber stack run by one thread, from any quiescent state that
    holds [xs] (top first): [empty] tells whether [xs] is empty and
    changes nothing; [push v] leaves [v :: xs]; [pop] returns the top
    and leaves the rest, or returns [false] on the empty stack; a push
    followed by a pop hands back the pushed value and leaves [xs]. *)
Theorem treiber_sequential_spec (t fuel : nat) (s : TreiberStack.state) (xs : list Z)
    (v out : Z) :
  stack_inv t s xs → (length (TreiberStack.spur s) < fuel)%nat →
  run TreiberStack.handle t TreiberStack.empty s = Done (bool_decide (xs = []), s) ∧
  (∃ s', run TreiberStack.handle t (TreiberStack.push fuel v) s = Done (tt, s') ∧
         stack_inv t s' (v :: xs)) ∧
  (∃ s', run TreiberStack.handle t (TreiberStack.pop fuel out) s =
           Done (removed out xs, s') ∧
         stack_inv t s' (tl xs)) ∧
  (∃ s', run TreiberStack.handle t
           (_ ← TreiberStack.push fuel v; TreiberStack.pop fuel out) s =
           Done ((true, v), s') ∧
         stack_inv t s' xs).
Proof.
  intros Hinv Hfuel. split; [by apply treiber_empty_spec|].
  destruct (push_spec t fuel v s xs Hinv Hfuel) as (s1 & Hpush & Hinv1 & Hlen1).
  split; [by exists s1|].
  split.
  { destruct (pop_spec t fuel out s xs Hinv Hfuel) as (s2 & Hpop & Hinv2 & _).
    by exists s2. }
  destruct (pop_spec t fuel out s1 (v :: xs) Hinv1) as (s2 & Hpop & Hinv2 & _); [lia|].
  exists s2. split; [|done]. by rewrite run_bind, Hpush.
Qed.

Lemma treiber_sequential_spec_witness :
  stack_inv 0 treiber_sample [2; 1] ∧
  (length (TreiberStack.spur treiber_sample) < 1)%nat ∧
  run TreiberStack.handle 0 TreiberStack.empty treiber_sample = Done (false, treiber_sample) ∧
  ∃ s', run TreiberStack.handle 0 (TreiberStack.pop 1 0) treiber_sample =
        Done ((true, 2), s') ∧ stack_inv 0 s' [1].
Proof.
  split; [exact treiber_sample_inv|]. split; [vm_compute; lia|].
  destruct (treiber_sequential_spec 0 1 treiber_sample [2; 1] 9 0 treiber_sample_inv)
    as (Hempty & _ & Hpop & _); [vm_compute; lia|].
  split; [exact Hempty|exact Hpop].
Defined.

Section EliminationSequential.
Import EliminationStack.

Lemma elim_inv_empty_spec t s xs :
  elim_inv s xs → run handle t empty s = Done (bool_decide (xs = []), s).
Proof.
  intros (cells & Hseg & _ & Hidle). unfold arena_idle in Hidle.
  rewrite elim_empty_spec by (by rewrite Hidle, length_replicate).
  do 2 f_equal. apply bool_decide_ext. split.
  - intros [Hnull _]. rewrite Hnull in Hseg. by apply lseg_null in Hseg as [_ ->].
  - intros ->. split; [destruct cells; simpl in Hseg; done|].
    rewrite Hidle. apply Forall_replicate. done.
Qed.

End EliminationSequential.

Lemma elim_sample_inv : elim_inv elim_sample [2; 1].
Proof.
  exists [2%N; 1%N]. split; [|split].
  - vm_compute. split; [done|]. split; [done|]. eexists. split; [reflexivity|].
    split; [done|]. split; [done|]. split; [done|]. eexists. split; [reflexivity|]. done.
  - refine (bool_decide_unpack _ _). vm_compute. exact I.
  - vm_compute. reflexivity.
Defined.

(** X7.  The elimination stack run by one thread, from any quiescent state
    that holds [xs] (top first, nothing waiting in the arena), whatever
    the spurious CAS failures and the slots drawn: [empty] tells whether
    [xs] is empty; [push v] leaves [v :: xs]; [pop] returns the top and
    leaves the rest, or returns [false] on the empty stack; a push
    followed by a pop hands back the pushed value and leaves [xs]. *)
Theorem elim_sequential_spec (t fuel : nat) (s : EliminationStack.state) (xs : list Z)
    (v out : Z) :
  elim_inv s xs → (length (EliminationStack.spur s) < fuel)%nat →
  run EliminationStack.handle t EliminationStack.empty s = Done (bool_decide (xs = []), s) ∧
  (∃ s', run EliminationStack.handle t (EliminationStack.push fuel v) s = Done (tt, s') ∧
         elim_inv s' (v :: xs)) ∧
  (∃ s', run EliminationStack.handle t (EliminationStack.pop fuel out) s =
           Done (removed out xs, s') ∧
         elim_inv s' (tl xs)) ∧
  (∃ s', run EliminationStack.handle t
           (_ ← EliminationStack.push fuel v; EliminationStack.pop fuel out) s =
           Done ((true, v), s') ∧
         elim_inv s' xs).
Proof.
  intros Hinv Hfuel. split; [by apply elim_inv_empty_spec|].
  destruct (elim_push_spec t fuel v s xs Hinv Hfuel) as (s1 & Hpush & Hinv1 & Hlen1).
  split; [by exists s1|].
  split.
  { destruct (elim_pop_loop_spec t fuel out 0 s xs Hinv Hfuel) as (s2 & Hpop & Hinv2 & _).
    by exists s2. }
  destruct (elim_pop_loop_spec t fuel out 0 s1 (v :: xs) Hinv1) as (s2 & Hpop & Hinv2 & _);
    [lia|].
  exists s2. split; [|done]. by rewrite run_bind, Hpush.
Qed.

Lemma elim_sequential_spec_witness :
  elim_inv elim_sample [2; 1] ∧
  (length (EliminationStack.spur elim_sample) < 1)%nat ∧
  ∃ s', run EliminationStack.handle 0
          (_ ← EliminationStack.push 1 9; EliminationStack.pop 1 0) elim_sample =
        Done ((true, 9), s') ∧ elim_inv s' [2; 1].
Proof.
  split; [exact elim_sample_inv|]. split; [vm_compute; lia|].
  destruct (elim_sequential_spec 0 1 elim_sample [2; 1] 9 0 elim_sample_inv)
    as (_ & _ & _ & Hround); [vm_compute; lia|].
  exact Hround.
Defined.

Section MSQueueSequential.
Import MSQueue.

Lemma msq_empty_spec t s xs :
  queue_inv t s xs → run handle t empty s = Done (bool_decide (xs = []), s).
Proof.
  intros (cells & Hhead & Hch & _). unfold empty.
  destruct cells as [|c cells], xs as [|x xs]; simpl in Hch; try done.
  - destruct Hch as [_ (nd & Hlk & Hnx)]. cbn. rewrite Hlk. cbn. by rewrite Hnx.
  - destruct Hch as (Hc & (nd & Hlk & Hnx) & _). cbn. rewrite Hlk. cbn. rewrite Hnx.
    do 2 f_equal. by rewrite bool_decide_eq_false_2.
Qed.

End MSQueueSequential.

(** X8.  The Michael-Scott queue run by one thread, from any quiescent state
    that holds [xs] (oldest first): [empty] tells whether [xs] is empty
    and changes nothing; [enqueue v] leaves [xs ++ [v]]; [dequeue]
    returns the oldest value and leaves the rest, or returns [false] on
    the empty queue; a value enqueued on the empty queue is the next
    one dequeued. *)
Theorem msq_sequential_spec (t fuel : nat) (s : MSQueue.state) (xs : list Z) (v out : Z) :
  queue_inv t s xs → (length (MSQueue.spur s) < fuel)%nat →
  run MSQueue.handle t MSQueue.empty s = Done (bool_decide (xs = []), s) ∧
  (∃ s', run MSQueue.handle t (MSQueue.enqueue fuel v) s = Done (tt, s') ∧
         queue_inv t s' (xs ++ [v])) ∧
  (∃ s', run MSQueue.handle t (MSQueue.dequeue fuel out) s = Done (removed out xs, s') ∧
         queue_inv t s' (tl xs)) ∧
  (∃ s', run MSQueue.handle t (_ ← MSQueue.enqueue fuel v; MSQueue.dequeue fuel out) s =
           Done ((true, default v (head xs)), s') ∧
         queue_inv t s' (tl (xs ++ [v]))).
Proof.
  intros Hinv Hfuel. split; [by apply msq_empty_spec|].
  destruct (enqueue_spec t fuel v s xs Hinv Hfuel) as (s1 & Henq & Hinv1 & Hlen1).
  split; [by exists s1|].
  split.
  { destruct (dequeue_spec t fuel out s xs Hinv) as (s2 & Hdeq & Hinv2 & _); [lia|].
    by exists s2. }
  destruct (dequeue_spec t fuel out s1 (xs ++ [v]) Hinv1) as (s2 & Hdeq & Hinv2 & _); [lia|].
  exists s2. split; [|done]. rewrite run_bind, Henq, Hdeq. by destruct xs.
Qed.

Lemma msq_sequential_spec_witness :
  queue_inv 0 msq_sample [2; 3] ∧ (length (MSQueue.spur msq_sample) < 1)%nat ∧
  run MSQueue.handle 0 MSQueue.empty msq_sample = Done (false, msq_sample) ∧
  ∃ s', run MSQueue.handle 0 (_ ← MSQueue.enqueue 1 9; MSQueue.dequeue 1 0) msq_sample =
        Done ((true, 2), s') ∧ queue_inv 0 s' [3; 9].
Proof.
  split; [exact msq_sample_inv|]. split; [vm_compute; lia|].
  destruct (msq_sequential_spec 0 1 msq_sample [2; 3] 9 0 msq_sample_inv)
    as (Hempty & _ & _ & Hround); [vm_compute; lia|].
  split; [exact Hempty|exact Hround].
Defined.


Section FlatCombiningStackCombine.
Import FlatCombiningStack.
Implicit Types (rq : gmap N Request).

(** What the loop body of [combine] does on an allocated record. *)
Lemma fcs_combine_one_step r data rq rec :
  rq !! r = Some rec →
  ∃ data' rec', combine_one r (Done (data, rq)) = Done (data', <[r := rec']> rq) ∧
                op rec' = NONE ∧ (op rec = NONE → data' = data ∧ rec' = rec).
Proof.
  intros Hlk. simpl. rewrite Hlk. destruct rec as [o v b]. destruct o; simpl.
  - exists data, (mkRequest NONE v b). by rewrite insert_id.
  - eexists _, _. split; [reflexivity|]. done.
  - destruct (last data); eexists _, _; (split; [reflexivity|done]).
Qed.

Lemma fcs_combine_cons a requests data rq :
  combine (a :: requests) data rq =
  match combine_one a (Done (data, rq)) with
  | Done (data', rq') => combine requests data' rq'
  | Aborted => Aborted
  | Fault u => Fault u
  | OutOfFuel => OutOfFuel
  end.
Proof.
  unfold combine. cbn [foldl].
  destruct (combine_one a (Done (data, rq))) as [[data' rq']| | |] eqn:Hone; try done;
    by apply fcs_combine_stuck.
Qed.

Lemma fcs_combine_settles requests data rq :
  (∀ r, r ∈ requests → is_Some (rq !! r)) →
  ∃ data' rq',
    combine requests data rq = Done (data', rq') ∧
    (∀ r, is_Some (rq' !! r) ↔ is_Some (rq !! r)) ∧
    (∀ r, r ∉ requests → rq' !! r = rq !! r) ∧
    (∀ r, fcs_idle rq r → rq' !! r = rq !! r) ∧
    (∀ r, r ∈ requests → fcs_idle rq' r).
Proof.
  revert data rq. induction requests as [|a requests IH]; intros data rq Hall.
  - exists data, rq. split; [done|]. split; [done|]. split; [done|]. split; [done|].
    intros r Hr. by apply elem_of_nil in Hr.
  - destruct (Hall a) as [rec Hlk]; [apply elem_of_cons; by left|].
    destruct (fcs_combine_one_step a data rq rec Hlk) as (data1 & rec1 & Hone & Hop1 & Hnone).
    destruct (IH data1 (<[a := rec1]> rq)) as (data' & rq' & Hcomb & Hdom & Hframe & Hidle & Hset).
    { intros r Hr. destruct (decide (r = a)) as [->|Hne].
      - rewrite lookup_insert_eq. by eexists.
      - rewrite lookup_insert_ne by done. apply Hall. apply elem_of_cons. by right. }
    exists data', rq'. split; [by rewrite fcs_combine_cons, Hone|].
    split; [|split; [|split]].
    + intros r. rewrite Hdom. destruct (decide (r = a)) as [->|Hne].
      * rewrite lookup_insert_eq, Hlk. split; by eexists.
      * by rewrite lookup_insert_ne.
    + intros r Hr. apply not_elem_of_cons in Hr as [Hra Hr].
      rewrite Hframe by done. by rewrite lookup_insert_ne.
    + intros r (rec' & Hlk' & Hop'). destruct (decide (r = a)) as [->|Hne].
      * assert (rec' = rec) as -> by congruence.
        destruct (Hnone Hop') as [_ ->].
        rewrite Hidle; [by rewrite lookup_insert_eq|].
        exists rec. by rewrite lookup_insert_eq.
      * rewrite Hidle; [by rewrite lookup_insert_ne|].
        exists rec'. by rewrite lookup_insert_ne.
    + intros r Hr. apply elem_of_cons in Hr as [->|Hr]; [|by apply Hset].
      exists rec1. split; [|done]. rewrite Hidle; [by rewrite lookup_insert_eq|].
      exists rec1. by rewrite lookup_insert_eq.
Qed.

(** Pending pushes land in registration order. *)
Lemma fcs_combine_pushes requests data rq :
  NoDup requests →
  (∀ r, r ∈ requests → ∃ rec, rq !! r = Some rec ∧ op rec = PUSH) →
  ∃ rq', combine requests data rq =
         Done (data ++ ((λ r, default 0 (value <$> rq !! r)) <$> requests), rq').
Proof.
  revert data rq. induction requests as [|a requests IH]; intros data rq Hnd Hall.
  - exists rq. rewrite app_nil_r. reflexivity.
  - apply NoDup_cons in Hnd as [Ha Hnd].
    destruct (Hall a) as (rec & Hlk & Hop); [apply elem_of_cons; by left|].
    rewrite fcs_combine_cons. simpl. rewrite Hlk, Hop. simpl.
    destruct (IH (data ++ [value rec])
                (<[a := mkRequest NONE (value rec) (success rec)]> rq) Hnd) as (rq' & Hc).
    + intros r Hr. rewrite lookup_insert_ne by (by intros <-).
      apply Hall. apply elem_of_cons. by right.
    + exists rq'. rewrite Hc. rewrite <- app_assoc. do 2 f_equal. cbn [app].
      apply (f_equal (app data)). apply (f_equal (cons (value rec))).
      apply (list_fmap_ext _ (λ r, default 0 (value <$> rq !! r)) requests). intros i r Hr.
      rewrite lookup_insert_ne; [done|]. intros <-. apply Ha.
      by eapply list_elem_of_lookup_2.
Qed.

Lemma fcs_empty_spec this t s data :
  fcs_quiet this s data → run handle t (empty this) s = Done (bool_decide (data = []), s).
Proof. intros (requests & Hobj & _). unfold empty. cbn. by rewrite Hobj. Qed.

Lemma fcs_inv_quiet this t s data : fcs_inv this t s data → fcs_quiet this s data.
Proof. intros (requests & ? & ? & ? & _). by exists requests. Qed.

End FlatCombiningStackCombine.

(** X9.  One pass of [combine] over the publication list of an object,
    every record of which is allocated: it returns; afterwards no
    record of the list has an operation pending; records that are not
    on the list, and records that had nothing pending, are as before;
    a second pass changes nothing.  When the records are distinct and
    each holds a push, the values are appended in the order of the
    list. *)
Theorem fcs_combine_serves_all (requests : list N) (data : list Z)
    (rq : gmap N FlatCombiningStack.Request) :
  (∀ r, r ∈ requests → is_Some (rq !! r)) →
  ∃ data' rq',
    FlatCombiningStack.combine requests data rq = Done (data', rq') ∧
    (∀ r, r ∈ requests → fcs_idle rq' r) ∧
    (∀ r, r ∉ requests → rq' !! r = rq !! r) ∧
    (∀ r, fcs_idle rq r → rq' !! r = rq !! r) ∧
    FlatCombiningStack.combine requests data' rq' = Done (data', rq') ∧
    (NoDup requests →
     (∀ r, r ∈ requests →
        ∃ rec, rq !! r = Some rec ∧ FlatCombiningStack.op rec = FlatCombiningStack.PUSH) →
     data' = data ++ ((λ r, default 0 (FlatCombiningStack.value <$> rq !! r)) <$> requests)).
Proof.
  intros Hall.
  destruct (fcs_combine_settles requests data rq Hall)
    as (data' & rq' & Hcomb & Hdom & Hframe & Hidle & Hset).
  exists data', rq'. split; [done|]. split; [done|]. split; [done|]. split; [done|].
  split; [by apply fcs_combine_idle|].
  intros Hnd Hpush. destruct (fcs_combine_pushes requests data rq Hnd Hpush) as (rq2 & Hc).
  congruence.
Qed.

Lemma fcs_combine_serves_all_witness :
  ∃ data' rq',
    FlatCombiningStack.combine [1%N; 2%N] [5]
      {[ 1%N := FlatCombiningStack.mkRequest FlatCombiningStack.PUSH 7 true;
         2%N := FlatCombiningStack.mkRequest FlatCombiningStack.POP 0 false ]} =
    Done (data', rq') ∧
    data' = [5] ∧
    rq' !! 2%N = Some (FlatCombiningStack.mkRequest FlatCombiningStack.NONE 7 true) ∧
    ∀ r, r ∈ [1%N; 2%N] → fcs_idle rq' r.
Proof.
  destruct (fcs_combine_serves_all [1%N; 2%N] [5]
    {[ 1%N := FlatCombiningStack.mkRequest FlatCombiningStack.PUSH 7 true;
       2%N := FlatCombiningStack.mkRequest FlatCombiningStack.POP 0 false ]})
    as (data' & rq' & Hcomb & Hidle & _).
  { intros r Hr. apply elem_of_cons in Hr as [->|Hr]; [by eexists|].
    apply list_elem_of_singleton in Hr as ->. by eexists. }
  exists data', rq'. split; [exact Hcomb|].
  vm_compute in Hcomb. injection Hcomb as <- <-.
  split; [reflexivity|]. split; [reflexivity|]. exact Hidle.
Defined.

Section FlatCombiningStackHelping.
Import FlatCombiningStack.
Implicit Types (rq : gmap N Request).

Lemma fcs_combine_idle_prefix l1 l2 data rq :
  (∀ r, r ∈ l1 → fcs_idle rq r) → combine (l1 ++ l2) data rq = combine l2 data rq.
Proof.
  induction l1 as [|a l1 IH]; intros Hidle; [done|].
  cbn [app]. rewrite fcs_combine_cons.
  destruct (Hidle a) as (rec & Hlk & Hop); [apply elem_of_cons; by left|].
  simpl. rewrite Hlk, Hop. apply IH. intros r Hr. apply Hidle. apply elem_of_cons. by right.
Qed.

Lemma fcs_combine_push_then_pop l1 l2 rA rB data rq v okA recB :
  NoDup (l1 ++ rA :: l2) → rB ∈ l2 →
  (∀ r, r ∈ l1 ++ l2 → r ≠ rB → fcs_idle rq r) →
  rq !! rA = Some (mkRequest PUSH v okA) →
  rq !! rB = Some recB → op recB = POP →
  combine (l1 ++ rA :: l2) data rq =
  Done (data, <[rB := mkRequest NONE v true]> (<[rA := mkRequest NONE v okA]> rq)).
Proof.
  intros Hnd HB Hidle HA HlkB HopB.
  apply NoDup_app in Hnd as (Hnd1 & Hdisj & Hnd2).
  apply NoDup_cons in Hnd2 as [HA2 Hnd2].
  assert (HAB : rB ≠ rA) by (by intros ->).
  assert (HB1 : rB ∉ l1).
  { intros Hin. apply (Hdisj rB Hin). apply elem_of_cons. by right. }
  rewrite fcs_combine_idle_prefix.
  2:{ intros r Hr. apply Hidle; [apply elem_of_app; by left|]. by intros ->. }
  rewrite fcs_combine_cons. simpl. rewrite HA. simpl.
  rewrite (fcs_combine_mine l2 rB); [|done|done|].
  2:{ intros r Hr Hne. destruct (Hidle r) as (rec & Hlk & Hop);
        [apply elem_of_app; by right|done|].
      exists rec. split; [|done]. rewrite lookup_insert_ne; [done|]. by intros <-. }
  simpl. rewrite lookup_insert_ne by done. rewrite HlkB, HopB.
  rewrite last_snoc. by rewrite removelast_last.
Qed.

Lemma fcs_combine_pop_then_push l1 l2 rA rB data rq v okA recB :
  NoDup (l1 ++ rB :: l2) → rA ∈ l2 →
  (∀ r, r ∈ l1 ++ l2 → r ≠ rA → fcs_idle rq r) →
  rq !! rA = Some (mkRequest PUSH v okA) →
  rq !! rB = Some recB → op recB = POP →
  ∃ recB',
    combine (l1 ++ rB :: l2) data rq =
    Done (removelast data ++ [v],
          <[rA := mkRequest NONE v okA]> (<[rB := recB']> rq)) ∧
    op recB' = NONE ∧
    (success recB', if success recB' then value recB' else 0) =
      match last data with Some back => (true, back) | None => (false, 0) end.
Proof.
  intros Hnd HA Hidle HlkA HlkB HopB.
  apply NoDup_app in Hnd as (Hnd1 & Hdisj & Hnd2).
  apply NoDup_cons in Hnd2 as [HB2 Hnd2].
  assert (HAB : rA ≠ rB) by (by intros ->).
  assert (HA1 : rA ∉ l1).
  { intros Hin. apply (Hdisj rA Hin). apply elem_of_cons. by right. }
  rewrite fcs_combine_idle_prefix.
  2:{ intros r Hr. apply Hidle; [apply elem_of_app; by left|]. by intros ->. }
  rewrite fcs_combine_cons. simpl. rewrite HlkB, HopB.
  assert (Hrest : ∀ d recB', combine l2 d (<[rB := recB']> rq) =
            Done (d ++ [v], <[rA := mkRequest NONE v okA]> (<[rB := recB']> rq))).
  { intros d recB'. rewrite (fcs_combine_mine l2 rA); [|done|done|].
    - simpl. rewrite lookup_insert_ne by done. by rewrite HlkA.
    - intros r Hr Hne. destruct (Hidle r) as (rec & Hlk & Hop);
        [apply elem_of_app; by right|done|].
      exists rec. split; [|done]. rewrite lookup_insert_ne; [done|]. by intros <-. }
  destruct (last data) as [back|] eqn:Hlast.
  - eexists. split; [apply Hrest|]. done.
  - apply last_None in Hlast as ->. eexists. split; [apply Hrest|]. done.
Qed.

End FlatCombiningStackHelping.

(** X10.  Helping.  Thread A has published a push of [v] in its record and
    has not combined yet.  A pop by thread B, whose record comes later
    in the publication list, applies the push of A and then takes [v]:
    it returns [v], the stack holds what it held, the record of A is
    idle again, and the [combine] that A still has to run changes
    nothing. *)
Theorem fcs_pop_serves_pending_push (this tA tB : nat) (s : FlatCombiningStack.state)
    (data : list Z) (l1 l2 : list N) (rA rB : N) (v out : Z) (okA : bool) :
  FlatCombiningStack.objs s !! this =
    Some (FlatCombiningStack.mkObject data (l1 ++ rA :: l2)) →
  NoDup (l1 ++ rA :: l2) → rB ∈ l2 →
  (∀ r, r ∈ l1 ++ l2 → fcs_idle (FlatCombiningStack.reqs s) r) →
  FlatCombiningStack.reqs s !! rA =
    Some (FlatCombiningStack.mkRequest FlatCombiningStack.PUSH v okA) →
  FlatCombiningStack.tls_req_ s !! tB = Some rB → rB ≠ 0%N →
  ∃ s', run FlatCombiningStack.handle tB (FlatCombiningStack.pop this out) s =
          Done ((true, v), s') ∧
        FlatCombiningStack.objs s' !! this =
          Some (FlatCombiningStack.mkObject data (l1 ++ rA :: l2)) ∧
        fcs_idle (FlatCombiningStack.reqs s') rA ∧
        run FlatCombiningStack.handle tA (call (FlatCombiningStack.Combine this)) s' =
          Done (tt, s').
Proof.
  intros Hobj Hnd HB Hidle HA Htls HB0.
  destruct (Hidle rB) as (recB & HlkB & HopB); [apply elem_of_app; by right|].
  assert (HAB : rB ≠ rA).
  { intros ->. apply NoDup_app in Hnd as (_ & _ & Hnd). by apply NoDup_cons in Hnd as [? _]. }
  unfold FlatCombiningStack.pop.
  rewrite run_bind, fcs_get_request_again by (by rewrite Htls).
  rewrite Htls. simpl. rewrite HlkB.
  repeat (progress (simpl; rewrite ?lookup_insert_eq)).
  rewrite Hobj. simpl. rewrite !insert_insert_eq.
  erewrite (fcs_combine_push_then_pop l1 l2 rA rB); [|done|done| | |apply lookup_insert_eq|done].
  2:{ intros r Hr Hne. destruct (Hidle r Hr) as (rec & Hlk & Hop).
      exists rec. by rewrite lookup_insert_ne. }
  2:{ by rewrite lookup_insert_ne. }
  repeat (progress (simpl; rewrite ?lookup_insert_eq)).
  eexists. split; [reflexivity|]. simpl. rewrite lookup_insert_eq.
  split; [done|]. split.
  { exists (FlatCombiningStack.mkRequest FlatCombiningStack.NONE v okA). split; [|done].
    rewrite lookup_insert_ne by done. apply lookup_insert_eq. }
  cbn [FlatCombiningStack.requests_ FlatCombiningStack.data_].
  rewrite fcs_combine_idle.
  - cbn [FlatCombiningStack.objs FlatCombiningStack.reqs FlatCombiningStack.tls_req_
         FlatCombiningStack.allocs]. by rewrite insert_insert_eq.
  - intros r Hr. destruct (decide (r = rB)) as [->|HnB].
    { eexists. split; [apply lookup_insert_eq|done]. }
    destruct (decide (r = rA)) as [->|HnA].
    { eexists. split; [rewrite lookup_insert_ne by done; apply lookup_insert_eq|done]. }
    destruct (Hidle r) as (rec & Hlk & Hop).
    { apply elem_of_app in Hr as [Hr|Hr]; [apply elem_of_app; by left|].
      apply elem_of_cons in Hr as [->|Hr]; [done|]. apply elem_of_app; by right. }
    exists rec. split; [|done]. by rewrite !lookup_insert_ne by done.
Qed.

Lemma fcs_pop_serves_pending_push_witness :
  FlatCombiningStack.objs fcs_pending_push !! 1%nat =
    Some (FlatCombiningStack.mkObject [] ([] ++ 1%N :: [2%N])) ∧
  FlatCombiningStack.reqs fcs_pending_push !! 1%N =
    Some (FlatCombiningStack.mkRequest FlatCombiningStack.PUSH 7 true) ∧
  ∃ s', run FlatCombiningStack.handle 1 (FlatCombiningStack.pop 1 0) fcs_pending_push =
          Done ((true, 7), s') ∧
        FlatCombiningStack.objs s' !! 1%nat =
          Some (FlatCombiningStack.mkObject [] ([] ++ 1%N :: [2%N])).
Proof.
  split; [vm_compute; reflexivity|]. split; [vm_compute; reflexivity|].
  destruct (fcs_pop_serves_pending_push 1 0 1 fcs_pending_push [] [] [2%N] 1%N 2%N 7 0 true)
    as (s' & Hrun & Hobj & _).
  - vm_compute. reflexivity.
  - refine (bool_decide_unpack _ _). vm_compute. exact I.
  - by apply list_elem_of_singleton.
  - intros r Hr. apply list_elem_of_singleton in Hr as ->. eexists.
    split; [vm_compute; reflexivity|done].
  - vm_compute. reflexivity.
  - vm_compute. reflexivity.
  - done.
  - exists s'. by split.
Defined.

(** X11.  The flat-combining stack used by a thread whose record is linked in
    the object (or that has no record yet), from a state in which the
    object holds [data] (top last) and no request is pending: [empty]
    tells whether [data] is empty; [push v] appends [v]; [pop] returns
    the last value and removes it, or returns [false] on the empty
    stack; a push followed by a pop hands back the pushed value and
    leaves [data]. *)
Theorem fcs_sequential_spec (this t : nat) (s : FlatCombiningStack.state) (data : list Z)
    (v out : Z) :
  fcs_inv this t s data →
  run FlatCombiningStack.handle t (FlatCombiningStack.empty this) s =
    Done (bool_decide (data = []), s) ∧
  (∃ s', run FlatCombiningStack.handle t (FlatCombiningStack.push this v) s = Done (tt, s') ∧
         fcs_inv this t s' (data ++ [v])) ∧
  (∃ s', run FlatCombiningStack.handle t (FlatCombiningStack.pop this out) s =
           Done (fcs_pop_result out data, s') ∧
         fcs_inv this t s' (removelast data)) ∧
  (∃ s', run FlatCombiningStack.handle t
           (_ ← FlatCombiningStack.push this v; FlatCombiningStack.pop this out) s =
           Done ((true, v), s') ∧
         fcs_inv this t s' data).
Proof.
  intros Hinv. split; [by eapply fcs_empty_spec, fcs_inv_quiet|].
  destruct (fcs_push_spec this t s data v Hinv) as (s1 & Hpush & Hinv1).
  split; [by exists s1|]. split; [by apply fcs_pop_spec|].
  destruct (fcs_pop_spec this t s1 (data ++ [v]) out Hinv1) as (s2 & Hpop & Hinv2).
  exists s2. rewrite run_bind, Hpush, Hpop. unfold fcs_pop_result.
  rewrite last_snoc. split; [done|]. by rewrite removelast_last in Hinv2.
Qed.

Lemma fcs_sequential_spec_witness :
  fcs_inv 2 0 fcs_sample [1; 2] ∧
  run FlatCombiningStack.handle 0 (FlatCombiningStack.empty 2) fcs_sample =
    Done (false, fcs_sample) ∧
  ∃ s', run FlatCombiningStack.handle 0 (FlatCombiningStack.pop 2 0) fcs_sample =
          Done ((true, 2), s') ∧ fcs_inv 2 0 s' [1].
Proof.
  split; [exact fcs_sample_inv|].
  destruct (fcs_sequential_spec 2 0 fcs_sample [1; 2] 9 0 fcs_sample_inv)
    as (Hempty & _ & Hpop & _).
  split; [exact Hempty|exact Hpop].
Defined.


Section FlatCombiningQueueCombine.
Import FlatCombiningQueue.
Implicit Types (rq : gmap N Request).

(** What the loop body of [combine] does on an allocated record. *)
Lemma fcq_combine_one_step r data rq rec :
  rq !! r = Some rec →
  ∃ data' rec', combine_one r (Done (data, rq)) = Done (data', <[r := rec']> rq) ∧
                op rec' = NONE ∧ (op rec = NONE → data' = data ∧ rec' = rec).
Proof.
  intros Hlk. simpl. rewrite Hlk. destruct rec as [o v b]. destruct o; simpl.
  - exists data, (mkRequest NONE v b). by rewrite insert_id.
  - eexists _, _. split; [reflexivity|]. done.
  - destruct data; eexists _, _; (split; [reflexivity|done]).
Qed.

Lemma fcq_combine_cons a requests data rq :
  combine (a :: requests) data rq =
  match combine_one a (Done (data, rq)) with
  | Done (data', rq') => combine requests data' rq'
  | Aborted => Aborted
  | Fault u => Fault u
  | OutOfFuel => OutOfFuel
  end.
Proof.
  unfold combine. cbn [foldl].
  destruct (combine_one a (Done (data, rq))) as [[data' rq']| | |] eqn:Hone; try done;
    by apply fcq_combine_stuck.
Qed.

Lemma fcq_combine_settles requests data rq :
  (∀ r, r ∈ requests → is_Some (rq !! r)) →
  ∃ data' rq',
    combine requests data rq = Done (data', rq') ∧
    (∀ r, is_Some (rq' !! r) ↔ is_Some (rq !! r)) ∧
    (∀ r, r ∉ requests → rq' !! r = rq !! r) ∧
    (∀ r, fcq_idle rq r → rq' !! r = rq !! r) ∧
    (∀ r, r ∈ requests → fcq_idle rq' r).
Proof.
  revert data rq. induction requests as [|a requests IH]; intros data rq Hall.
  - exists data, rq. split; [done|]. split; [done|]. split; [done|]. split; [done|].
    intros r Hr. by apply elem_of_nil in Hr.
  - destruct (Hall a) as [rec Hlk]; [apply elem_of_cons; by left|].
    destruct (fcq_combine_one_step a data rq rec Hlk) as (data1 & rec1 & Hone & Hop1 & Hnone).
    destruct (IH data1 (<[a := rec1]> rq)) as (data' & rq' & Hcomb & Hdom & Hframe & Hidle & Hset).
    { intros r Hr. destruct (decide (r = a)) as [->|Hne].
      - rewrite lookup_insert_eq. by eexists.
      - rewrite lookup_insert_ne by done. apply Hall. apply elem_of_cons. by right. }
    exists data', rq'. split; [by rewrite fcq_combine_cons, Hone|].
    split; [|split; [|split]].
    + intros r. rewrite Hdom. destruct (decide (r = a)) as [->|Hne].
      * rewrite lookup_insert_eq, Hlk. split; by eexists.
      * by rewrite lookup_insert_ne.
    + intros r Hr. apply not_elem_of_cons in Hr as [Hra Hr].
      rewrite Hframe by done. by rewrite lookup_insert_ne.
    + intros r (rec' & Hlk' & Hop'). destruct (decide (r = a)) as [->|Hne].
      * assert (rec' = rec) as -> by congruence.
        destruct (Hnone Hop') as [_ ->].
        rewrite Hidle; [by rewrite lookup_insert_eq|].
        exists rec. by rewrite lookup_insert_eq.
      * rewrite Hidle; [by rewrite lookup_insert_ne|].
        exists rec'. by rewrite lookup_insert_ne.
    + intros r Hr. apply elem_of_cons in Hr as [->|Hr]; [|by apply Hset].
      exists rec1. split; [|done]. rewrite Hidle; [by rewrite lookup_insert_eq|].
      exists rec1. by rewrite lookup_insert_eq.
Qed.

(** Pending enqueues land in registration order. *)
Lemma fcq_combine_enqueues requests data rq :
  NoDup requests →
  (∀ r, r ∈ requests → ∃ rec, rq !! r = Some rec ∧ op rec = ENQ) →
  ∃ rq', combine requests data rq =
         Done (data ++ ((λ r, default 0 (value <$> rq !! r)) <$> requests), rq').
Proof.
  revert data rq. induction requests as [|a requests IH]; intros data rq Hnd Hall.
  - exists rq. rewrite app_nil_r. reflexivity.
  - apply NoDup_cons in Hnd as [Ha Hnd].
    destruct (Hall a) as (rec & Hlk & Hop); [apply elem_of_cons; by left|].
    rewrite fcq_combine_cons. simpl. rewrite Hlk, Hop. simpl.
    destruct (IH (data ++ [value rec])
                (<[a := mkRequest NONE (value rec) (success rec)]> rq) Hnd) as (rq' & Hc).
    + intros r Hr. rewrite lookup_insert_ne by (by intros <-).
      apply Hall. apply elem_of_cons. by right.
    + exists rq'. rewrite Hc. rewrite <- app_assoc. do 2 f_equal. cbn [app].
      apply (f_equal (app data)). apply (f_equal (cons (value rec))).
      apply (list_fmap_ext _ (λ r, default 0 (value <$> rq !! r)) requests). intros i r Hr.
      rewrite lookup_insert_ne; [done|]. intros <-. apply Ha.
      by eapply list_elem_of_lookup_2.
Qed.

Lemma fcq_empty_spec this t s data :
  fcq_quiet this s data → run handle t (empty this) s = Done (bool_decide (data = []), s).
Proof. intros (requests & Hobj & _). unfold empty. cbn. by rewrite Hobj. Qed.

Lemma fcq_inv_quiet this t s data : fcq_inv this t s data → fcq_quiet this s data.
Proof. intros (requests & ? & ? & ? & _). by exists requests. Qed.

End FlatCombiningQueueCombine.

(** X12.  One pass of [combine] over the publication list of an object,
    every record of which is allocated: it returns; afterwards no
    record of the list has an operation pending; records that are not
    on the list, and records that had nothing pending, are as before;
    a second pass changes nothing.  When the records are distinct and
    each holds an enqueue, the values are appended in the order of the
    list. *)
Theorem fcq_combine_serves_all (requests : list N) (data : list Z)
    (rq : gmap N FlatCombiningQueue.Request) :
  (∀ r, r ∈ requests → is_Some (rq !! r)) →
  ∃ data' rq',
    FlatCombiningQueue.combine requests data rq = Done (data', rq') ∧
    (∀ r, r ∈ requests → fcq_idle rq' r) ∧
    (∀ r, r ∉ requests → rq' !! r = rq !! r) ∧
    (∀ r, fcq_idle rq r → rq' !! r = rq !! r) ∧
    FlatCombiningQueue.combine requests data' rq' = Done (data', rq') ∧
    (NoDup requests →
     (∀ r, r ∈ requests →
        ∃ rec, rq !! r = Some rec ∧ FlatCombiningQueue.op rec = FlatCombiningQueue.ENQ) →
     data' = data ++ ((λ r, default 0 (FlatCombiningQueue.value <$> rq !! r)) <$> requests)).
Proof.
  intros Hall.
  destruct (fcq_combine_settles requests data rq Hall)
    as (data' & rq' & Hcomb & Hdom & Hframe & Hidle & Hset).
  exists data', rq'. split; [done|]. split; [done|]. split; [done|]. split; [done|].
  split; [by apply fcq_combine_idle|].
  intros Hnd Henq. destruct (fcq_combine_enqueues requests data rq Hnd Henq) as (rq2 & Hc).
  congruence.
Qed.

Lemma fcq_combine_serves_all_witness :
  ∃ data' rq',
    FlatCombiningQueue.combine [1%N; 2%N] [5]
      {[ 1%N := FlatCombiningQueue.mkRequest FlatCombiningQueue.ENQ 7 true;
         2%N := FlatCombiningQueue.mkRequest FlatCombiningQueue.DEQ 0 false ]} =
    Done (data', rq') ∧
    data' = [7] ∧
    rq' !! 2%N = Some (FlatCombiningQueue.mkRequest FlatCombiningQueue.NONE 5 true) ∧
    ∀ r, r ∈ [1%N; 2%N] → fcq_idle rq' r.
Proof.
  destruct (fcq_combine_serves_all [1%N; 2%N] [5]
    {[ 1%N := FlatCombiningQueue.mkRequest FlatCombiningQueue.ENQ 7 true;
       2%N := FlatCombiningQueue.mkRequest FlatCombiningQueue.DEQ 0 false ]})
    as (data' & rq' & Hcomb & Hidle & _).
  { intros r Hr. apply elem_of_cons in Hr as [->|Hr]; [by eexists|].
    apply list_elem_of_singleton in Hr as ->. by eexists. }
  exists data', rq'. split; [exact Hcomb|].
  vm_compute in Hcomb. injection Hcomb as <- <-.
  split; [reflexivity|]. split; [reflexivity|]. exact Hidle.
Defined.

Section FlatCombiningQueueHelping.
Import FlatCombiningQueue.
Implicit Types (rq : gmap N Request).

Lemma fcq_combine_idle_prefix l1 l2 data rq :
  (∀ r, r ∈ l1 → fcq_idle rq r) → combine (l1 ++ l2) data rq = combine l2 data rq.
Proof.
  induction l1 as [|a l1 IH]; intros Hidle; [done|].
  cbn [app]. rewrite fcq_combine_cons.
  destruct (Hidle a) as (rec & Hlk & Hop); [apply elem_of_cons; by left|].
  simpl. rewrite Hlk, Hop. apply IH. intros r Hr. apply Hidle. apply elem_of_cons. by right.
Qed.

Lemma fcq_combine_enqueue_then_dequeue l1 l2 rA rB data rq v okA recB :
  NoDup (l1 ++ rA :: l2) → rB ∈ l2 →
  (∀ r, r ∈ l1 ++ l2 → r ≠ rB → fcq_idle rq r) →
  rq !! rA = Some (mkRequest ENQ v okA) →
  rq !! rB = Some recB → op recB = DEQ →
  combine (l1 ++ rA :: l2) data rq =
  Done (tl (data ++ [v]),
        <[rB := mkRequest NONE (default v (head data)) true]>
          (<[rA := mkRequest NONE v okA]> rq)).
Proof.
  intros Hnd HB Hidle HA HlkB HopB.
  apply NoDup_app in Hnd as (Hnd1 & Hdisj & Hnd2).
  apply NoDup_cons in Hnd2 as [HA2 Hnd2].
  assert (HAB : rB ≠ rA) by (by intros ->).
  assert (HB1 : rB ∉ l1).
  { intros Hin. apply (Hdisj rB Hin). apply elem_of_cons. by right. }
  rewrite fcq_combine_idle_prefix.
  2:{ intros r Hr. apply Hidle; [apply elem_of_app; by left|]. by intros ->. }
  rewrite fcq_combine_cons. simpl. rewrite HA. simpl.
  rewrite (fcq_combine_mine l2 rB); [|done|done|].
  2:{ intros r Hr Hne. destruct (Hidle r) as (rec & Hlk & Hop);
        [apply elem_of_app; by right|done|].
      exists rec. split; [|done]. rewrite lookup_insert_ne; [done|]. by intros <-. }
  simpl. rewrite lookup_insert_ne by done. rewrite HlkB, HopB.
  by destruct data.
Qed.

Lemma fcq_combine_dequeue_then_enqueue l1 l2 rA rB data rq v okA recB :
  NoDup (l1 ++ rB :: l2) → rA ∈ l2 →
  (∀ r, r ∈ l1 ++ l2 → r ≠ rA → fcq_idle rq r) →
  rq !! rA = Some (mkRequest ENQ v okA) →
  rq !! rB = Some recB → op recB = DEQ →
  ∃ recB',
    combine (l1 ++ rB :: l2) data rq =
    Done (tl data ++ [v],
          <[rA := mkRequest NONE v okA]> (<[rB := recB']> rq)) ∧
    op recB' = NONE ∧
    (success recB', if success recB' then value recB' else 0) =
      match data with front :: _ => (true, front) | [] => (false, 0) end.
Proof.
  intros Hnd HA Hidle HlkA HlkB HopB.
  apply NoDup_app in Hnd as (Hnd1 & Hdisj & Hnd2).
  apply NoDup_cons in Hnd2 as [HB2 Hnd2].
  assert (HAB : rA ≠ rB) by (by intros ->).
  assert (HA1 : rA ∉ l1).
  { intros Hin. apply (Hdisj rA Hin). apply elem_of_cons. by right. }
  rewrite fcq_combine_idle_prefix.
  2:{ intros r Hr. apply Hidle; [apply elem_of_app; by left|]. by intros ->. }
  rewrite fcq_combine_cons. simpl. rewrite HlkB, HopB.
  assert (Hrest : ∀ d recB', combine l2 d (<[rB := recB']> rq) =
            Done (d ++ [v], <[rA := mkRequest NONE v okA]> (<[rB := recB']> rq))).
  { intros d recB'. rewrite (fcq_combine_mine l2 rA); [|done|done|].
    - simpl. rewrite lookup_insert_ne by done. by rewrite HlkA.
    - intros r Hr Hne. destruct (Hidle r) as (rec & Hlk & Hop);
        [apply elem_of_app; by right|done|].
      exists rec. split; [|done]. rewrite lookup_insert_ne; [done|]. by intros <-. }
  destruct data as [|front rest].
  - eexists. split; [apply Hrest|]. done.
  - eexists. split; [apply Hrest|]. done.
Qed.

End FlatCombiningQueueHelping.

(** X13.  Helping.  Thread A has published an enqueue of [v] in its record
    and has not combined yet.  A dequeue by thread B, whose record
    comes later in the publication list, applies the enqueue of A and
    then takes the front: it returns the oldest value, which is [v]
    when the queue was empty; the record of A is idle again, and the
    [combine] that A still has to run changes nothing. *)
Theorem fcq_dequeue_serves_pending_enqueue (this tA tB : nat) (s : FlatCombiningQueue.state)
    (data : list Z) (l1 l2 : list N) (rA rB : N) (v out : Z) (okA : bool) :
  FlatCombiningQueue.objs s !! this =
    Some (FlatCombiningQueue.mkObject data (l1 ++ rA :: l2)) →
  NoDup (l1 ++ rA :: l2) → rB ∈ l2 →
  (∀ r, r ∈ l1 ++ l2 → fcq_idle (FlatCombiningQueue.reqs s) r) →
  FlatCombiningQueue.reqs s !! rA =
    Some (FlatCombiningQueue.mkRequest FlatCombiningQueue.ENQ v okA) →
  FlatCombiningQueue.tls_req_ s !! tB = Some rB → rB ≠ 0%N →
  ∃ s', run FlatCombiningQueue.handle tB (FlatCombiningQueue.dequeue this out) s =
          Done ((true, default v (head data)), s') ∧
        FlatCombiningQueue.objs s' !! this =
          Some (FlatCombiningQueue.mkObject (tl (data ++ [v])) (l1 ++ rA :: l2)) ∧
        fcq_idle (FlatCombiningQueue.reqs s') rA ∧
        run FlatCombiningQueue.handle tA (call (FlatCombiningQueue.Combine this)) s' =
          Done (tt, s').
Proof.
  intros Hobj Hnd HB Hidle HA Htls HB0.
  destruct (Hidle rB) as (recB & HlkB & HopB); [apply elem_of_app; by right|].
  assert (HAB : rB ≠ rA).
  { intros ->. apply NoDup_app in Hnd as (_ & _ & Hnd). by apply NoDup_cons in Hnd as [? _]. }
  unfold FlatCombiningQueue.dequeue.
  rewrite run_bind, fcq_get_request_again by (by rewrite Htls).
  rewrite Htls. simpl. rewrite HlkB.
  repeat (progress (simpl; rewrite ?lookup_insert_eq)).
  rewrite Hobj. simpl. rewrite !insert_insert_eq.
  erewrite (fcq_combine_enqueue_then_dequeue l1 l2 rA rB); [|done|done| | |apply lookup_insert_eq|done].
  2:{ intros r Hr Hne. destruct (Hidle r Hr) as (rec & Hlk & Hop).
      exists rec. by rewrite lookup_insert_ne. }
  2:{ by rewrite lookup_insert_ne. }
  repeat (progress (simpl; rewrite ?lookup_insert_eq)).
  eexists. split; [reflexivity|]. simpl. rewrite lookup_insert_eq.
  split; [done|]. split.
  { exists (FlatCombiningQueue.mkRequest FlatCombiningQueue.NONE v okA). split; [|done].
    rewrite lookup_insert_ne by done. apply lookup_insert_eq. }
  cbn [FlatCombiningQueue.requests_ FlatCombiningQueue.data_].
  rewrite fcq_combine_idle.
  - cbn [FlatCombiningQueue.objs FlatCombiningQueue.reqs FlatCombiningQueue.tls_req_
         FlatCombiningQueue.allocs]. by rewrite insert_insert_eq.
  - intros r Hr. destruct (decide (r = rB)) as [->|HnB].
    { eexists. split; [apply lookup_insert_eq|done]. }
    destruct (decide (r = rA)) as [->|HnA].
    { eexists. split; [rewrite lookup_insert_ne by done; apply lookup_insert_eq|done]. }
    destruct (Hidle r) as (rec & Hlk & Hop).
    { apply elem_of_app in Hr as [Hr|Hr]; [apply elem_of_app; by left|].
      apply elem_of_cons in Hr as [->|Hr]; [done|]. apply elem_of_app; by right. }
    exists rec. split; [|done]. by rewrite !lookup_insert_ne by done.
Qed.

Lemma fcq_dequeue_serves_pending_enqueue_witness :
  FlatCombiningQueue.objs fcq_pending_enqueue !! 1%nat =
    Some (FlatCombiningQueue.mkObject [] ([] ++ 1%N :: [2%N])) ∧
  FlatCombiningQueue.reqs fcq_pending_enqueue !! 1%N =
    Some (FlatCombiningQueue.mkRequest FlatCombiningQueue.ENQ 7 true) ∧
  ∃ s', run FlatCombiningQueue.handle 1 (FlatCombiningQueue.dequeue 1 0) fcq_pending_enqueue =
          Done ((true, 7), s') ∧
        FlatCombiningQueue.objs s' !! 1%nat =
          Some (FlatCombiningQueue.mkObject [] ([] ++ 1%N :: [2%N])).
Proof.
  split; [vm_compute; reflexivity|]. split; [vm_compute; reflexivity|].
  destruct (fcq_dequeue_serves_pending_enqueue 1 0 1 fcq_pending_enqueue [] [] [2%N] 1%N 2%N 7 0 true)
    as (s' & Hrun & Hobj & _).
  - vm_compute. reflexivity.
  - refine (bool_decide_unpack _ _). vm_compute. exact I.
  - by apply list_elem_of_singleton.
  - intros r Hr. apply list_elem_of_singleton in Hr as ->. eexists.
    split; [vm_compute; reflexivity|done].
  - vm_compute. reflexivity.
  - vm_compute. reflexivity.
  - done.
  - exists s'. by split.
Defined.

(** X14.  The flat-combining queue used by a thread whose record is linked in
    the object (or that has no record yet), from a state in which the
    object holds [data] (oldest first) and no request is pending:
    [empty] tells whether [data] is empty; [enqueue v] appends [v];
    [dequeue] returns the first value and removes it, or returns
    [false] on the empty queue; a value enqueued on the empty queue is
    the next one dequeued. *)
Theorem fcq_sequential_spec (this t : nat) (s : FlatCombiningQueue.state) (data : list Z)
    (v out : Z) :
  fcq_inv this t s data →
  run FlatCombiningQueue.handle t (FlatCombiningQueue.empty this) s =
    Done (bool_decide (data = []), s) ∧
  (∃ s', run FlatCombiningQueue.handle t (FlatCombiningQueue.enqueue this v) s = Done (tt, s') ∧
         fcq_inv this t s' (data ++ [v])) ∧
  (∃ s', run FlatCombiningQueue.handle t (FlatCombiningQueue.dequeue this out) s =
           Done (fcq_dequeue_result out data, s') ∧
         fcq_inv this t s' (tl data)) ∧
  (∃ s', run FlatCombiningQueue.handle t
           (_ ← FlatCombiningQueue.enqueue this v; FlatCombiningQueue.dequeue this out) s =
           Done ((true, default v (head data)), s') ∧
         fcq_inv this t s' (tl (data ++ [v]))).
Proof.
  intros Hinv. split; [by eapply fcq_empty_spec, fcq_inv_quiet|].
  destruct (fcq_enqueue_spec this t s data v Hinv) as (s1 & Henq & Hinv1).
  split; [by exists s1|]. split; [by apply fcq_dequeue_spec|].
  destruct (fcq_dequeue_spec this t s1 (data ++ [v]) out Hinv1) as (s2 & Hdeq & Hinv2).
  exists s2. rewrite run_bind, Henq, Hdeq. split; [|done]. by destruct data.
Qed.

Lemma fcq_sequential_spec_witness :
  fcq_inv 2 0 fcq_sample [2; 3] ∧
  run FlatCombiningQueue.handle 0 (FlatCombiningQueue.empty 2) fcq_sample =
    Done (false, fcq_sample) ∧
  ∃ s', run FlatCombiningQueue.handle 0 (FlatCombiningQueue.dequeue 2 0) fcq_sample =
          Done ((true, 2), s') ∧ fcq_inv 2 0 s' [3].
Proof.
  split; [exact fcq_sample_inv|].
  destruct (fcq_sequential_spec 2 0 fcq_sample [2; 3] 9 0 fcq_sample_inv)
    as (Hempty & _ & Hdeq & _).
  split; [exact Hempty|exact Hdeq].
Defined.




Section EliminationDtor.
Import EliminationStack.

Lemma elim_drain_slots_idle fuel idxs (h : gmap N Node) :
  (0 < fuel)%nat → (∀ i, i ∈ idxs → (i < ELIM_ARRAY_SIZE)%nat) →
  EliminationStack_drain_slots fuel idxs (replicate ELIM_ARRAY_SIZE 0%N) h =
  Done (replicate ELIM_ARRAY_SIZE 0%N, h).
Proof.
  intros Hfuel. destruct fuel as [|fuel]; [lia|].
  induction idxs as [|i idxs IH]; intros Hin; [done|].
  cbn [EliminationStack_drain_slots].
  rewrite lookup_replicate_2 by (apply Hin, elem_of_cons; by left).
  cbn [drain]. rewrite decide_True by done.
  rewrite list_insert_id by (apply lookup_replicate_2, Hin, elem_of_cons; by left).
  apply IH. intros j Hj. apply Hin, elem_of_cons. by right.
Qed.

End EliminationDtor.




Section TraceFacts.
Context {E : Type → Type} {S : Type}.
Variable handle : nat → ∀ X, E X → S → outcome (X * S).

Lemma trace_bind {A B} t (p : prog E A) (f : A → prog E B) s :
  trace handle t (p ≫= f) s =
  trace handle t p s ++
  match run handle t p s with
  | Done (a, s') => trace handle t (f a) s'
  | _ => []
  end.
Proof.
  revert s. induction p as [a|X e k IH|]; intros s; simpl; try done.
  destruct (handle t X e s) as [[x s']| | |]; try done. simpl. f_equal. apply IH.
Qed.

End TraceFacts.

Section EliminationOffer.
Import EliminationStack.

Lemma try_elim_push_from_offer attempts n :
  try_elim_push_from (S attempts) n =
  (idx ← call RandomSlot;
   '(offered, _) ← call (ArenaCas idx 0%N n);
   if offered : bool then elim_offer_wait idx n else try_elim_push_from attempts n).
Proof. reflexivity. Qed.

Lemma spin_wait_taken t iters idx n s cur :
  arena_ s !! idx = Some cur → cur ≠ n → (0 < iters)%nat →
  run handle t (spin_wait iters idx n) s = Done (true, s).
Proof.
  intros Hslot Hne Hit. destruct iters as [|iters]; [lia|].
  simpl. rewrite Hslot. simpl. by rewrite decide_True.
Qed.

Lemma spin_wait_trace t iters idx n s :
  arena_ s !! idx = Some n →
  trace handle t (spin_wait iters idx n) s = elim_wait_rounds idx n iters.
Proof.
  intros Hslot. induction iters as [|iters IH]; [done|].
  simpl. rewrite Hslot. simpl. rewrite decide_False by (intros H; by apply H).
  simpl. unfold elim_wait_rounds in *. simpl. by rewrite IH.
Qed.

Local Opaque ELIM_ARRAY_SIZE SPIN_ITERS Nat.modulo.

Lemma try_elim_pop_takes t out s idx n nd :
  (hd 0 (rng_ s) `mod` ELIM_ARRAY_SIZE)%nat = idx →
  arena_ s !! idx = Some n → n ≠ 0%N → heap s !! n = Some nd →
  run handle t (try_elim_pop out) s =
  Done ((true, value nd),
        mkState (delete n (heap s)) (head_ s) (<[idx := 0%N]> (arena_ s)) (allocs s)
                (spur s) (tl (rng_ s))).
Proof.
  intros Hidx Hslot Hn Hlk. unfold try_elim_pop. simpl.
  rewrite Hidx, Hslot. simpl. rewrite decide_True by done. simpl. rewrite Hlk. simpl.
  unfold delete_node. rewrite decide_False by done. rewrite Hlk. done.
Qed.

End EliminationOffer.

(** X17.  Elimination.  A pusher's offer of node [n] is in slot [idx] and the
    central list is empty.  A pop whose first draw is that slot takes
    the node out of the arena: it returns the value of [n], deletes
    [n], clears the slot and never touches [head_]; the pusher, which
    is waiting, then sees the slot changed and reports that its node
    was consumed, whereupon [push] returns. *)
Theorem elim_exchange (tA tB fuel : nat) (s : EliminationStack.state) (idx : nat) (n : N)
    (nd : EliminationStack.Node) (out : Z) :
  (0 < fuel)%nat → EliminationStack.head_ s = 0%N →
  EliminationStack.arena_ s !! idx = Some n → n ≠ 0%N →
  EliminationStack.heap s !! n = Some nd →
  (hd 0 (EliminationStack.rng_ s) `mod` EliminationStack.ELIM_ARRAY_SIZE)%nat = idx →
  ∃ s', run EliminationStack.handle tB (EliminationStack.pop fuel out) s =
          Done ((true, EliminationStack.value nd), s') ∧
        EliminationStack.head_ s' = 0%N ∧
        EliminationStack.heap s' = delete n (EliminationStack.heap s) ∧
        EliminationStack.arena_ s' = <[idx := 0%N]> (EliminationStack.arena_ s) ∧
        run EliminationStack.handle tA (elim_offer_wait idx n) s' = Done ((true, 0%N), s').
Proof.
  intros Hfuel Hhead Hslot Hn Hlk Hidx. destruct fuel as [|fuel]; [lia|].
  eexists. split.
  { unfold EliminationStack.pop.
    cbn [EliminationStack.pop_loop mbind prog_mbind prog_bind call run
         EliminationStack.handle].
    rewrite decide_True by done.
    change (prog_bind ?f ?p) with (p ≫= f). rewrite run_bind.
    rewrite (try_elim_pop_takes tB out s idx n nd) by done. reflexivity. }
  cbn [EliminationStack.head_ EliminationStack.heap EliminationStack.arena_].
  split; [done|]. split; [done|]. split; [done|].
  unfold elim_offer_wait. rewrite run_bind.
  rewrite (spin_wait_taken tA _ idx n _ 0%N); [done| |by intros <-|].
  - cbn [EliminationStack.arena_]. apply list_lookup_insert_eq. by eapply lookup_lt_Some.
  - unfold EliminationStack.SPIN_ITERS. lia.
Qed.

Lemma elim_exchange_witness :
  EliminationStack.arena_ elim_offered !! 3%nat = Some 1%N ∧
  EliminationStack.heap elim_offered !! 1%N = Some (EliminationStack.mkNode 7 0%N) ∧
  ∃ s', run EliminationStack.handle 1 (EliminationStack.pop 1 0) elim_offered =
          Done ((true, 7), s') ∧
        EliminationStack.head_ s' = 0%N ∧ EliminationStack.heap s' = ∅.
Proof.
  split; [vm_compute; reflexivity|]. split; [vm_compute; reflexivity|].
  destruct (elim_exchange 0 1 1 elim_offered 3 1%N (EliminationStack.mkNode 7 0%N) 0)
    as (s' & Hrun & Hhead & Hheap & _).
  - lia.
  - vm_compute. reflexivity.
  - vm_compute. reflexivity.
  - done.
  - vm_compute. reflexivity.
  - vm_compute. reflexivity.
  - exists s'. split; [exact Hrun|]. split; [exact Hhead|].
    rewrite Hheap. vm_compute. reflexivity.
Defined.

Section EliminationWithdraw.
Import EliminationStack.
Local Opaque ELIM_ARRAY_SIZE SPIN_ITERS Nat.modulo.

Lemma try_elim_push_trace t n s :
  arena_idle s →
  trace handle t (try_elim_push n) s =
  [Ev RandomSlot (hd 0 (rng_ s) `mod` ELIM_ARRAY_SIZE)%nat;
   Ev (ArenaCas (hd 0 (rng_ s) `mod` ELIM_ARRAY_SIZE)%nat 0%N n) (true, 0%N)] ++
  elim_wait_rounds (hd 0 (rng_ s) `mod` ELIM_ARRAY_SIZE)%nat n SPIN_ITERS ++
  [Ev (ArenaCas (hd 0 (rng_ s) `mod` ELIM_ARRAY_SIZE)%nat n 0%N) (true, n)].
Proof.
  unfold arena_idle. intros Hidle. unfold try_elim_push, ELIM_TRIES.
  rewrite try_elim_push_from_offer.
  cbn [mbind prog_mbind prog_bind call trace handle rng_ arena_].
  set (idx := (hd 0%nat (rng_ s) `mod` ELIM_ARRAY_SIZE)%nat).
  assert (Hidx : (idx < ELIM_ARRAY_SIZE)%nat) by apply slot_in_range.
  rewrite Hidle, idle_slot by done. rewrite decide_True by done.
  cbn [mbind prog_mbind prog_bind call trace handle rng_ arena_ app].
  do 2 f_equal. unfold elim_offer_wait.
  change (prog_bind ?f ?p) with (p ≫= f). rewrite trace_bind.
  rewrite spin_wait_trace, spin_wait_alone;
    try (cbn [set_arena arena_]; apply list_lookup_insert_eq; by rewrite length_replicate).
  f_equal. cbn [mbind prog_mbind prog_bind call trace handle set_arena arena_].
  rewrite list_lookup_insert_eq by (by rewrite length_replicate).
  by rewrite decide_True.
Qed.

End EliminationWithdraw.

(** X18.  An offer nobody takes is withdrawn.  With nothing in the arena and
    no other thread running, [try_elim_push] places the node in the
    slot it draws, loads the slot [SPIN_ITERS] = 10 times, yielding
    after each load, takes the node back and returns [false] with [n]
    unchanged; the arena is as before. *)
Theorem elim_offer_withdrawn (t : nat) (n : N) (s : EliminationStack.state) :
  arena_idle s →
  run EliminationStack.handle t (EliminationStack.try_elim_push n) s =
    Done ((false, n),
          EliminationStack.mkState (EliminationStack.heap s) (EliminationStack.head_ s)
            (EliminationStack.arena_ s) (EliminationStack.allocs s)
            (EliminationStack.spur s) (tl (EliminationStack.rng_ s))) ∧
  EliminationStack.SPIN_ITERS = 10%nat ∧
  ∃ idx, (idx < 16)%nat ∧
    trace EliminationStack.handle t (EliminationStack.try_elim_push n) s =
    [Ev EliminationStack.RandomSlot idx;
     Ev (EliminationStack.ArenaCas idx 0%N n) (true, 0%N)] ++
    elim_wait_rounds idx n EliminationStack.SPIN_ITERS ++
    [Ev (EliminationStack.ArenaCas idx n 0%N) (true, n)].
Proof.
  intros Hidle. split; [by apply try_elim_push_alone|]. split; [done|].
  exists (hd 0 (EliminationStack.rng_ s) `mod` EliminationStack.ELIM_ARRAY_SIZE)%nat.
  split; [apply slot_in_range|]. by apply try_elim_push_trace.
Qed.

Lemma elim_offer_withdrawn_witness :
  arena_idle (EliminationStack.init [] [] [35%nat]) ∧
  trace EliminationStack.handle 0 (EliminationStack.try_elim_push 9)
    (EliminationStack.init [] [] [35%nat]) =
  [Ev EliminationStack.RandomSlot 3%nat;
   Ev (EliminationStack.ArenaCas 3 0%N 9%N) (true, 0%N)] ++
  elim_wait_rounds 3 9 10 ++ [Ev (EliminationStack.ArenaCas 3 9%N 0%N) (true, 9%N)] ∧
  run EliminationStack.handle 0 (EliminationStack.try_elim_push 9)
    (EliminationStack.init [] [] [35%nat]) =
  Done ((false, 9%N), EliminationStack.init [] [] []).
Proof.
  split; [reflexivity|]. split; [vm_compute; reflexivity|].
  destruct (elim_offer_withdrawn 0 9 (EliminationStack.init [] [] [35%nat])) as [Hrun _];
    [reflexivity|].
  exact Hrun.
Defined.


Section CVPred.
Import CVNoSpurious.

Lemma wait_pred_returns t fuel pred s s' :
  run handle t (wait_pred fuel pred) s = Done (tt, s') →
  ∃ s0, run handle t pred s0 = Done (true, s').
Proof.
  revert s. induction fuel as [|fuel IH]; intros s; [done|].
  cbn [wait_pred]. rewrite run_bind.
  destruct (run handle t pred s) as [[[] s1]| | |] eqn:Hpred; try done.
  - cbn [run]. intros [= <-]. by exists s.
  - cbn [mbind prog_mbind prog_bind call run handle]. apply IH.
Qed.

Lemma wait_pred_true t fuel pred s s1 :
  (0 < fuel)%nat → run handle t pred s = Done (true, s1) →
  run handle t (wait_pred fuel pred) s = Done (tt, s1) ∧
  trace handle t (wait_pred fuel pred) s = trace handle t pred s.
Proof.
  intros Hfuel Hpred. destruct fuel as [|fuel]; [lia|]. cbn [wait_pred].
  rewrite run_bind, trace_bind, Hpred. cbn. by rewrite app_nil_r.
Qed.

Lemma wait_pred_false t fuel pred s :
  (∀ s0, ∃ s1, run handle t pred s0 = Done (false, s1)) →
  run handle t (wait_pred fuel pred) s = OutOfFuel.
Proof.
  intros Hpred. revert s. induction fuel as [|fuel IH]; intros s; [done|].
  cbn [wait_pred]. rewrite run_bind. destruct (Hpred s) as [s1 ->].
  cbn [mbind prog_mbind prog_bind call run handle]. apply IH.
Qed.

End CVPred.

(** X19.  [wait(lock, pred)] forwards to the standard predicate wait: when it
    returns, the last thing it did was to evaluate [pred] to [true];
    when [pred] holds on entry it returns at once and performs the
    actions of that one evaluation only, so it never calls
    [cv_.wait]; and while [pred] stays false it does not return,
    whatever the wakeups. *)
Theorem cv_wait_pred_spec (t fuel : nat) (pred : prog CVNoSpurious.Act bool)
    (s : CVNoSpurious.state) :
  (0 < fuel)%nat →
  (∀ s', run CVNoSpurious.handle t (CVNoSpurious.wait_pred fuel pred) s = Done (tt, s') →
     ∃ s0, run CVNoSpurious.handle t pred s0 = Done (true, s')) ∧
  (∀ s1, run CVNoSpurious.handle t pred s = Done (true, s1) →
     run CVNoSpurious.handle t (CVNoSpurious.wait_pred fuel pred) s = Done (tt, s1) ∧
     trace CVNoSpurious.handle t (CVNoSpurious.wait_pred fuel pred) s =
       trace CVNoSpurious.handle t pred s) ∧
  ((∀ s0, ∃ s1, run CVNoSpurious.handle t pred s0 = Done (false, s1)) →
   run CVNoSpurious.handle t (CVNoSpurious.wait_pred fuel pred) s = OutOfFuel).
Proof.
  intros Hfuel. split; [intros s'; apply wait_pred_returns|].
  split; [intros s1; by apply wait_pred_true|]. apply wait_pred_false.
Qed.

Lemma cv_wait_pred_spec_witness :
  (0 < 2)%nat ∧
  run CVNoSpurious.handle 0 (CVNoSpurious.wait_pred 2 cv_sample_pred)
    (CVNoSpurious.mkState 5 [0; 0; 1]%nat) = Done (tt, CVNoSpurious.mkState 6 []) ∧
  ∃ s0, run CVNoSpurious.handle 0 cv_sample_pred s0 =
        Done (true, CVNoSpurious.mkState 6 []).
Proof.
  split; [lia|]. split; [reflexivity|].
  destruct (cv_wait_pred_spec 0 2 cv_sample_pred (CVNoSpurious.mkState 5 [0; 0; 1]%nat))
    as (Hret & _); [lia|].
  apply Hret. reflexivity.
Defined.

Section CVWake.
Import CVNoSpurious.

Lemma add_size_t_0 q : 0 ≤ q ≤ SIZE_MAX → add_size_t q 0 = q.
Proof. unfold add_size_t, SIZE_MAX. intros Hq. rewrite Z.add_0_r. apply Z.mod_small. lia. Qed.

Lemma add_size_t_moves q (k : nat) :
  0 ≤ q ≤ SIZE_MAX → (0 < k)%nat → Z.of_nat k ≤ SIZE_MAX →
  add_size_t q (Z.of_nat k) ≠ q.
Proof.
  unfold add_size_t, SIZE_MAX. intros Hq Hk Hk'.
  replace (2 ^ 64 - 1 + 1) with (2 ^ 64) by lia.
  destruct (decide (q + Z.of_nat k < 2 ^ 64)) as [Hlt|Hge].
  - rewrite Z.mod_small by lia. lia.
  - replace (q + Z.of_nat k) with (q + Z.of_nat k - 2 ^ 64 + 1 * 2 ^ 64) by lia.
    rewrite Z.mod_add by lia. rewrite Z.mod_small by lia. lia.
Qed.

End CVWake.

(** X20.  Wakeups.  A notification issued before [wait(lock)] is entered is
    not remembered: the wait that follows blocks until another one
    comes.  A wait that has sampled the counter returns at its first
    load after other threads have notified [k] times, for any [k]
    below [2^64]. *)
Theorem cv_wait_wakeups (t fuel : nat) (q : Z) (k : nat) (env : list nat) :
  (0 < fuel)%nat → 0 ≤ q ≤ CVNoSpurious.SIZE_MAX →
  (0 < k)%nat → Z.of_nat k ≤ CVNoSpurious.SIZE_MAX →
  run CVNoSpurious.handle t (_ ← CVNoSpurious.notify_one; CVNoSpurious.wait fuel)
    (CVNoSpurious.mkState q []) = OutOfFuel ∧
  run CVNoSpurious.handle t (_ ← CVNoSpurious.notify_all; CVNoSpurious.wait fuel)
    (CVNoSpurious.mkState q []) = OutOfFuel ∧
  run CVNoSpurious.handle t (CVNoSpurious.wait fuel)
    (CVNoSpurious.mkState q (0%nat :: k :: env)) =
    Done (tt, CVNoSpurious.mkState (CVNoSpurious.add_size_t q (Z.of_nat k)) env).
Proof.
  intros Hfuel Hq Hk Hk'. split; [|split].
  - rewrite run_bind. cbn [CVNoSpurious.notify_one mbind prog_mbind prog_bind call run
                           CVNoSpurious.handle CVNoSpurious.others CVNoSpurious.env].
    apply wait_blocked.
  - rewrite run_bind. cbn [CVNoSpurious.notify_all mbind prog_mbind prog_bind call run
                           CVNoSpurious.handle CVNoSpurious.others CVNoSpurious.env].
    apply wait_blocked.
  - destruct fuel as [|fuel]; [lia|]. unfold CVNoSpurious.wait.
    cbn [CVNoSpurious.wait_loop mbind prog_mbind prog_bind call run CVNoSpurious.handle
         CVNoSpurious.others CVNoSpurious.env CVNoSpurious.seq_].
    change (Z.of_nat 0) with 0. rewrite add_size_t_0 by done.
    rewrite decide_True by (by apply add_size_t_moves). reflexivity.
Qed.

Lemma cv_wait_wakeups_witness :
  (0 < 1)%nat ∧ 0 ≤ 5 ≤ CVNoSpurious.SIZE_MAX ∧
  run CVNoSpurious.handle 0 (_ ← CVNoSpurious.notify_one; CVNoSpurious.wait 1)
    (CVNoSpurious.mkState 5 []) = OutOfFuel ∧
  run CVNoSpurious.handle 0 (CVNoSpurious.wait 1) (CVNoSpurious.mkState 5 [0; 3]%nat) =
    Done (tt, CVNoSpurious.mkState 8 []).
Proof.
  split; [lia|]. split; [vm_compute; split; discriminate|].
  destruct (cv_wait_wakeups 0 1 5 3 []) as (Hlost & _ & Hwake);
    [lia|vm_compute; split; discriminate|lia|vm_compute; discriminate|].
  split; [exact Hlost|exact Hwake].
Defined.


Section HpSetFacts.
Import hp.

Lemma set_set i p q recs : set i q (set i p recs) = set i q recs.
Proof.
  unfold set. rewrite list_alter_alter_eq. by apply list_alter_ext.
Qed.

Lemma clear_set i p recs : clear i (set i p recs) = clear i recs.
Proof. apply set_set. Qed.

Lemma clear_clear i recs : clear i (clear i recs) = clear i recs.
Proof. apply set_set. Qed.

Lemma collect_all_null recs :
  (∀ r, r ∈ recs → ptr r = 0%N) → collect_hazard_pointers recs = [].
Proof.
  intros Hall. unfold collect_hazard_pointers.
  induction recs as [|r recs IH]; [done|]. cbn [fmap list_fmap].
  rewrite filter_cons_False.
  - apply IH. intros r' Hr'. apply Hall. apply elem_of_cons. by right.
  - intros Hne. apply Hne. apply Hall. apply elem_of_cons. by left.
Qed.

Lemma set_ptr_null i recs r :
  (∀ r, r ∈ recs → ptr r = 0%N) → r ∈ clear i recs → ptr r = 0%N.
Proof.
  intros Hall Hr. unfold clear, set in Hr.
  apply list_elem_of_lookup in Hr as [j Hj].
  destruct (decide (j = i)) as [->|Hne].
  - rewrite list_lookup_alter_eq in Hj. destruct (recs !! i); simpl in Hj; [|done].
    by injection Hj as <-.
  - rewrite list_lookup_alter_ne in Hj by done. apply Hall. by eapply list_elem_of_lookup_2.
Qed.

Lemma filter_none_nil {A} (P : A → Prop) `{∀ x, Decision (P x)} (l : list A) :
  (∀ x, ¬ P x) → filter P l = [].
Proof.
  intros HP. induction l as [|a l IH]; [done|]. by rewrite filter_cons_False.
Qed.

Lemma filter_all_id {A} (P : A → Prop) `{∀ x, Decision (P x)} (l : list A) :
  (∀ x, P x) → filter P l = l.
Proof.
  intros HP. induction l as [|a l IH]; [done|]. rewrite filter_cons_True by done.
  by rewrite IH.
Qed.

End HpSetFacts.

Section TreiberReclaim.
Import TreiberStack.

(** What a pop that finds the stack non-empty does, exactly. *)
Lemma pop_loop_run t fuel i out s x nx :
  head_ s ≠ 0%N → heap s !! head_ s = Some (mkNode x nx) →
  (length (spur s) < fuel)%nat →
  run handle t (pop_loop fuel i out) s =
  match hp.retire (head_ s) (hp.clear i (recs s)) (default [] (retired s !! t)) with
  | (kept, _, deleted) =>
      match delete_nodes deleted (heap s) with
      | Done h' =>
          Done ((true, x),
                mkState h' nx (hp.clear i (recs s)) (<[t := kept]> (retired s))
                        (allocs s) (settle (spur s)))
      | Aborted => Aborted
      | Fault u => Fault u
      | OutOfFuel => OutOfFuel
      end
  end.
Proof.
  revert s. induction fuel as [|fuel IH]; intros s Hhead Hlk Hfuel; [lia|].
  cbn [pop_loop mbind prog_mbind prog_bind call run handle].
  rewrite decide_False by done.
  cbn [mbind prog_mbind prog_bind call run handle head_ heap].
  rewrite decide_False by (intros H; by apply H).
  cbn [mbind prog_mbind prog_bind call run handle head_ heap]. rewrite Hlk.
  cbn [mbind prog_mbind prog_bind call run handle head_ heap next].
  rewrite decide_True by done.
  destruct (spur s) as [|[] sp] eqn:Hsp.
  - cbn [mbind prog_mbind prog_bind call run handle head_ heap recs retired allocs spur
         tl value]. rewrite Hlk.
    cbn [mbind prog_mbind prog_bind call run handle head_ heap recs retired allocs spur
         tl value]. rewrite clear_set.
    destruct (hp.retire (head_ s) (hp.clear i (recs s)) (default [] (retired s !! t)))
      as [[kept scanned] deleted].
    destruct (delete_nodes deleted (heap s)) as [h'| | |]; try done.
    cbn [mbind prog_mbind prog_bind call run handle head_ heap recs retired allocs spur].
    by rewrite clear_clear.
  - cbn [mbind prog_mbind prog_bind call run handle head_ heap recs retired allocs spur].
    rewrite IH; cbn [head_ heap recs retired allocs spur]; [|done|done|simpl in Hfuel; lia].
    by rewrite clear_set.
  - cbn [mbind prog_mbind prog_bind call run handle head_ heap recs retired allocs spur
         tl value]. rewrite Hlk.
    cbn [mbind prog_mbind prog_bind call run handle head_ heap recs retired allocs spur
         tl value]. rewrite clear_set.
    destruct (hp.retire (head_ s) (hp.clear i (recs s)) (default [] (retired s !! t)))
      as [[kept scanned] deleted].
    destruct (delete_nodes deleted (heap s)) as [h'| | |]; try done.
    cbn [mbind prog_mbind prog_bind call run handle head_ heap recs retired allocs spur].
    by rewrite clear_clear.
Qed.

End TreiberReclaim.

(** X21.  Memory reclamation in [TreiberStack::pop].  A pop that takes a
    node off a quiescent stack does not free it: while the thread has
    fewer than 63 nodes on its retired list, the heap is untouched and
    the node is appended to that list.  The pop that brings the list to
    64 nodes scans; if no hazard pointer is set, it frees all 64 nodes
    and leaves the list empty. *)
Theorem treiber_pop_reclaims (t fuel : nat) (s : TreiberStack.state) (x : Z) (xs : list Z)
    (out : Z) :
  stack_inv t s (x :: xs) → (length (TreiberStack.spur s) < fuel)%nat →
  ∃ s', run TreiberStack.handle t (TreiberStack.pop fuel out) s = Done ((true, x), s') ∧
    ((length (default [] (TreiberStack.retired s !! t)) < 63)%nat →
       TreiberStack.heap s' = TreiberStack.heap s ∧
       TreiberStack.retired s' !! t =
         Some (default [] (TreiberStack.retired s !! t) ++ [TreiberStack.head_ s])) ∧
    ((63 ≤ length (default [] (TreiberStack.retired s !! t)))%nat →
     (∀ r, r ∈ TreiberStack.recs s → hp.ptr r = 0%N) →
       TreiberStack.retired s' !! t = Some [] ∧
       ∀ q, TreiberStack.heap s' !! q =
            if decide (q ∈ default [] (TreiberStack.retired s !! t) ++ [TreiberStack.head_ s])
            then None else TreiberStack.heap s !! q).
Proof.
  intros (cells & Hseg & Hnd & Hret & Hav) Hfuel.
  destruct cells as [|c cells]; [done|]. destruct Hseg as (Hc & Hc0 & nd & Hlk & Hv & Hseg).
  destruct nd as [x' nx]. simpl in Hv. subst x'.
  destruct (acquire_available _ _ Hav) as (i & recs' & Hacq & Hown).
  set (rl := default [] (TreiberStack.retired s !! t)) in *.
  assert (Hnd' : NoDup (rl ++ [TreiberStack.head_ s])).
  { rewrite Hc. apply NoDup_app. simpl in Hnd. apply NoDup_cons in Hnd as [Hhd Hnd].
    apply NoDup_app in Hnd as (_ & _ & Hrl). split; [done|].
    split; [|apply NoDup_singleton].
    intros r Hr Hr'. apply list_elem_of_singleton in Hr' as ->.
    apply Hhd. apply elem_of_app. by right. }
  assert (Hall : ∀ r, r ∈ rl ++ [TreiberStack.head_ s] →
                      r ≠ 0%N ∧ is_Some (TreiberStack.heap s !! r)).
  { intros r Hr. apply elem_of_app in Hr as [Hr|Hr]; [by apply Hret|].
    apply list_elem_of_singleton in Hr as ->. rewrite Hc. split; [done|]. by eexists. }
  unfold TreiberStack.pop.
  cbn [mbind prog_mbind prog_bind call run TreiberStack.handle]. rewrite Hacq.
  rewrite (pop_loop_run t fuel i out _ x nx);
    cbn [TreiberStack.head_ TreiberStack.heap TreiberStack.recs TreiberStack.retired
         TreiberStack.spur TreiberStack.allocs]; [|by rewrite Hc|by rewrite Hc|done].
  fold rl.
  destruct (hp.retire (TreiberStack.head_ s) (hp.clear i recs') rl)
    as [[kept scanned] deleted] eqn:Hretire.
  destruct (retire_ok _ _ _ (TreiberStack.heap s) _ _ _ Hnd' Hall Hretire)
    as (h' & Hdel & Hframe & Hkept & Hkin).
  rewrite Hdel. eexists. split; [reflexivity|].
  cbn [TreiberStack.heap TreiberStack.retired]. rewrite lookup_insert_eq.
  split.
  - intros Hshort. revert Hretire. unfold hp.retire, hp.threshold_.
    rewrite length_app. cbn [length]. rewrite decide_False by lia. intros [= <- <- <-].
    simpl in Hdel. by injection Hdel as <-.
  - intros Hlong Hnull. revert Hretire. unfold hp.retire, hp.threshold_.
    rewrite length_app. cbn [length]. rewrite decide_True by lia. rewrite scan_normal.
    rewrite collect_all_null.
    2:{ intros r Hr. eapply set_ptr_null; [|exact Hr].
        intros r' Hr'. destruct (acquire_spec _ _ _ _ Hacq) as (r0 & Hr0 & _ & ->).
        apply list_elem_of_lookup in Hr' as [j Hj].
        destruct (decide (j = i)) as [->|Hne].
        - rewrite list_lookup_insert_eq in Hj by (by eapply lookup_lt_Some).
          injection Hj as <-. simpl. apply Hnull. by eapply list_elem_of_lookup_2.
        - rewrite list_lookup_insert_ne in Hj by done. apply Hnull.
          by eapply list_elem_of_lookup_2. }
    rewrite filter_none_nil by (intros p Hp; by apply elem_of_nil in Hp).
    rewrite filter_all_id by (intros p Hp; by apply elem_of_nil in Hp).
    intros [= <- <- <-]. split; [done|].
    destruct (delete_nodes_ok _ (TreiberStack.heap s) Hnd' Hall) as (h'' & Hdel' & Hlook).
    rewrite Hdel in Hdel'. injection Hdel' as <-. exact Hlook.
Qed.

Lemma treiber_before_scan_inv : stack_inv 0 treiber_before_scan [1].
Proof.
  exists [1%N]. split; [|split; [|split]].
  - vm_compute. split; [done|]. split; [done|]. eexists. split; [reflexivity|]. done.
  - refine (bool_decide_unpack _ _). vm_compute. exact I.
  - assert (Hall : Forall (λ r, r ≠ 0%N ∧
                             is_Some (TreiberStack.heap treiber_before_scan !! r))
                     (default [] (TreiberStack.retired treiber_before_scan !! 0%nat))).
    { refine (bool_decide_unpack _ _). vm_compute. exact I. }
    rewrite Forall_forall in Hall. exact Hall.
  - left. vm_compute. by eexists.
Defined.

Lemma treiber_pop_reclaims_witness :
  stack_inv 0 treiber_before_scan [1] ∧
  length (default [] (TreiberStack.retired treiber_before_scan !! 0%nat)) = 63%nat ∧
  size (TreiberStack.heap treiber_before_scan) = 64%nat ∧
  ∃ s', run TreiberStack.handle 0 (TreiberStack.pop 1 0) treiber_before_scan =
          Done ((true, 1), s') ∧
        TreiberStack.retired s' !! 0%nat = Some [] ∧ TreiberStack.heap s' = ∅.
Proof.
  split; [exact treiber_before_scan_inv|]. split; [vm_compute; reflexivity|].
  split; [vm_compute; reflexivity|].
  destruct (treiber_pop_reclaims 0 1 treiber_before_scan 1 [] 0 treiber_before_scan_inv)
    as (s' & Hrun & _ & Hscan); [vm_compute; lia|].
  exists s'. split; [exact Hrun|]. split.
  - apply Hscan; [vm_compute; lia|].
    intros r Hr.
    assert (Hall : Forall (λ r, hp.ptr r = 0%N) (TreiberStack.recs treiber_before_scan)).
    { refine (bool_decide_unpack _ _). vm_compute. exact I. }
    rewrite Forall_forall in Hall. by apply Hall.
  - vm_compute in Hrun. injection Hrun as <-. reflexivity.
Defined.


Section MSQueueLag.
Import MSQueue.

Lemma qchain_nonnull (h : gmap N Node) p cells xs last :
  qchain h p cells xs last → p ≠ 0%N → last ≠ 0%N.
Proof.
  revert p xs. induction cells as [|c cells IH]; intros p [|x xs]; simpl; try done.
  - by intros [-> _].
  - intros (Hc & _ & _ & Hch) _. by eapply IH.
Qed.

Lemma enqueue_helps t fuel w s xs last :
  queue_lagging t s xs last → (S (length (spur s)) < fuel)%nat →
  ∃ s', run handle t (enqueue fuel w) s = Done (tt, s') ∧ queue_inv t s' (xs ++ [w]).
Proof.
  intros (nd & Hne & Hlk & Hnx & (cells & Hh0 & Hch & Hnd & Hret & Hav)) Hfuel.
  cbn [set_tail head_ tail_ heap retired recs] in *.
  pose proof (qchain_nonnull _ _ _ _ _ Hch Hh0) as Hlast0.
  set (n := pick_addr (hd 0%N (allocs s)) (heap s)).
  assert (Hfresh : heap s !! n = None) by apply pick_addr_fresh.
  assert (Hn0 : n ≠ 0%N) by apply pick_addr_nonnull.
  assert (Hnc : n ∉ head_ s :: cells).
  { intros Hin. destruct (qchain_allocated _ _ _ _ _ _ Hch Hin). congruence. }
  assert (Hnr : n ∉ default [] (retired s !! t)).
  { intros Hin. destruct (Hret n Hin) as [_ [? ?]]. congruence. }
  assert (Hnt : tail_ s ≠ n) by (intros Heq; rewrite Heq in Hlk; congruence).
  destruct fuel as [|fuel]; [lia|].
  unfold enqueue.
  cbn [enqueue_loop mbind prog_mbind prog_bind call run handle alloc].
  fold n. cbn [tail_ heap]. rewrite lookup_insert_ne by done. rewrite Hlk.
  cbn [mbind prog_mbind prog_bind call run handle tail_ heap].
  rewrite decide_True by done. rewrite Hnx. rewrite decide_False by done.
  cbn [mbind prog_mbind prog_bind call run handle tail_ heap].
  rewrite decide_True by done.
  destruct (enqueue_loop_spec t fuel n w
    (set_tail last (mkState (<[n := mkNode 0%N (Some w)]> (heap s)) (head_ s) (tail_ s)
                            (recs s) (retired s) (tl (allocs s)) (spur s))) cells xs)
    as (s' & Hrun & Hinv & _); cbn [set_tail head_ tail_ heap retired recs spur]; try done.
  - eapply qchain_agree; [|done]. intros c Hc. rewrite lookup_insert_ne; [done|].
    by intros ->.
  - intros r Hr. destruct (Hret r Hr) as [Hr0 Hrs]. split; [done|].
    rewrite lookup_insert_ne; [done|]. by intros ->.
  - apply lookup_insert_eq.
  - lia.
  - exists s'. by split.
Qed.

Lemma dequeue_loop_owned t fuel i out s :
  owns t i (recs s) →
  run handle t (dequeue_loop fuel i out) s = run handle t (dequeue fuel out) s.
Proof.
  intros Hown. unfold dequeue. cbn [mbind prog_mbind prog_bind call run handle].
  rewrite (acquire_owned _ _ _ Hown). by destruct s.
Qed.

Lemma dequeue_helps t fuel out s xs last :
  queue_lagging t s xs last → head_ s = tail_ s → (1 < fuel)%nat →
  ∃ s', run handle t (dequeue fuel out) s = Done (removed out xs, s') ∧
        queue_inv t s' (tl xs).
Proof.
  intros (nd & Hne & Hlk & Hnx & (cells & Hh0 & Hch & Hnd & Hret & Hav)) Hht Hfuel.
  cbn [set_tail head_ tail_ heap retired recs] in *.
  pose proof (qchain_nonnull _ _ _ _ _ Hch Hh0) as Hlast0.
  destruct (acquire_available _ _ Hav) as (i & recs' & Hacq & Hown).
  destruct fuel as [|fuel]; [lia|].
  unfold dequeue. cbn [dequeue_loop mbind prog_mbind prog_bind call run handle].
  rewrite Hacq.
  cbn [mbind prog_mbind prog_bind call run handle set_recs head_ tail_ heap].
  rewrite Hht, Hlk.
  cbn [mbind prog_mbind prog_bind call run handle set_recs head_ tail_ heap].
  rewrite decide_False by (intros H; by apply H). rewrite Hnx.
  rewrite decide_False by done. rewrite decide_True by done.
  cbn [mbind prog_mbind prog_bind call run handle set_recs head_ tail_ heap].
  rewrite decide_True by done.
  set (s1 := set_tail last
               (set_recs (hp.set i (tail_ s) (recs (set_recs recs' s))) (set_recs recs' s))).
  assert (Hown1 : owns t i (recs s1)).
  { cbn [s1 set_tail set_recs recs]. apply owns_set. exact Hown. }
  destruct (dequeue_spec t fuel out s1 xs) as (s' & Hrun & Hinv & _); [|lia|].
  { exists cells. cbn [s1 set_tail set_recs head_ tail_ heap retired recs].
    split; [done|]. split; [done|]. split; [done|]. split; [done|].
    eapply owns_available. apply owns_set. exact Hown. }
  exists s'. split; [|done]. by rewrite dequeue_loop_owned.
Qed.

Lemma enqueue_helps_trace t fuel w s xs last :
  queue_lagging t s xs last → (0 < fuel)%nat →
  ∃ n rest,
    trace handle t (enqueue fuel w) s =
    [Ev (New w) n; Ev LoadTail (tail_ s); Ev (LoadNext (tail_ s)) last;
     Ev LoadTail (tail_ s); Ev (CasTail (tail_ s) last) (true, tail_ s)] ++ rest.
Proof.
  intros (nd & Hne & Hlk & Hnx & (cells & Hh0 & Hch & Hnd & Hret & Hav)) Hfuel.
  cbn [set_tail head_ tail_ heap retired recs] in *.
  pose proof (qchain_nonnull _ _ _ _ _ Hch Hh0) as Hlast0.
  set (n := pick_addr (hd 0%N (allocs s)) (heap s)).
  assert (Hfresh : heap s !! n = None) by apply pick_addr_fresh.
  assert (Hnt : tail_ s ≠ n) by (intros Heq; rewrite Heq in Hlk; congruence).
  destruct fuel as [|fuel]; [lia|].
  exists n. eexists. unfold enqueue.
  cbn [enqueue_loop mbind prog_mbind prog_bind call trace handle alloc].
  fold n. cbn [tail_ heap]. rewrite lookup_insert_ne by done. rewrite Hlk.
  cbn [mbind prog_mbind prog_bind call trace handle tail_ heap].
  rewrite decide_True by done. rewrite Hnx. rewrite decide_False by done.
  cbn [mbind prog_mbind prog_bind call trace handle tail_ heap].
  rewrite decide_True by done. reflexivity.
Qed.

End MSQueueLag.

Lemma msq_lagging_sample_inv : queue_lagging 1 msq_lagging_sample [7] 2%N.
Proof.
  eexists. split; [vm_compute; discriminate|]. split; [vm_compute; reflexivity|].
  split; [reflexivity|].
  exists [2%N]. split; [vm_compute; discriminate|]. split; [|split; [|split]].
  - vm_compute. split; [done|]. split; [eexists; split; [reflexivity|done]|].
    split; [eexists; split; [reflexivity|done]|].
    split; [done|]. eexists. split; [reflexivity|done].
  - refine (bool_decide_unpack _ _). vm_compute. exact I.
  - intros r Hr. vm_compute in Hr. by apply elem_of_nil in Hr.
  - right. vm_compute. by eexists.
Defined.

(** X22.  Helping a lagging tail.  An enqueuer has linked the last node and
    has not yet swung [tail_].  An enqueue by another thread first
    advances [tail_] to the node it finds after it, then appends its
    own node behind the real last node.  A dequeue that finds [head_]
    equal to the lagging [tail_] advances [tail_] too, and then takes
    the oldest value.  Both leave a queue whose [tail_] is the last
    node. *)
Theorem msq_helps_lagging_tail (t fuel : nat) (s : MSQueue.state) (xs : list Z) (last : N)
    (w out : Z) :
  queue_lagging t s xs last → (S (length (MSQueue.spur s)) < fuel)%nat →
  (∃ s', run MSQueue.handle t (MSQueue.enqueue fuel w) s = Done (tt, s') ∧
         queue_inv t s' (xs ++ [w])) ∧
  (∃ n rest,
     trace MSQueue.handle t (MSQueue.enqueue fuel w) s =
     [Ev (MSQueue.New w) n; Ev MSQueue.LoadTail (MSQueue.tail_ s);
      Ev (MSQueue.LoadNext (MSQueue.tail_ s)) last; Ev MSQueue.LoadTail (MSQueue.tail_ s);
      Ev (MSQueue.CasTail (MSQueue.tail_ s) last) (true, MSQueue.tail_ s)] ++ rest) ∧
  (MSQueue.head_ s = MSQueue.tail_ s →
   ∃ s', run MSQueue.handle t (MSQueue.dequeue fuel out) s = Done (removed out xs, s') ∧
         queue_inv t s' (tl xs)).
Proof.
  intros Hlag Hfuel. split; [by eapply enqueue_helps|].
  split; [eapply enqueue_helps_trace; [done|lia]|].
  intros Hht. eapply dequeue_helps; [done|done|lia].
Qed.

Lemma msq_helps_lagging_tail_witness :
  queue_lagging 1 msq_lagging_sample [7] 2%N ∧
  MSQueue.tail_ msq_lagging_sample = 1%N ∧
  (∃ s', run MSQueue.handle 1 (MSQueue.enqueue 2 8) msq_lagging_sample = Done (tt, s') ∧
         queue_inv 1 s' [7; 8]) ∧
  ∃ s', run MSQueue.handle 1 (MSQueue.dequeue 2 0) msq_lagging_sample =
          Done ((true, 7), s') ∧ queue_inv 1 s' [].
Proof.
  split; [exact msq_lagging_sample_inv|]. split; [reflexivity|].
  destruct (msq_helps_lagging_tail 1 2 msq_lagging_sample [7] 2%N 8 0 msq_lagging_sample_inv)
    as (Henq & _ & Hdeq); [vm_compute; lia|].
  split; [exact Henq|]. apply Hdeq. reflexivity.
Defined.

Section TreiberSafetyFacts.
Import TreiberStack.
Implicit Types (h : gmap N Node) (rc : list hp.HazardRecord) (γ : gmap N tag).
Local Abbreviation lseg := (lseg value next).

Lemma thread_inv_stable u h rc γ h' rc' γ' ts :
  thread_inv u h rc γ ts →
  (∀ i r, rc !! i = Some r → hp.owner r = Some u → rc' !! i = Some r) →
  (∀ x, γ !! x = Some (PushPriv u) → γ' !! x = Some (PushPriv u) ∧ h' !! x = h !! x) →
  (∀ x, γ !! x = Some (PopPriv u) → γ' !! x = Some (PopPriv u)) →
  (∀ x g i, γ !! x = Some g → was_linked g → x ≠ 0%N →
            rc !! i = Some (hp.mkRecord (Some u) x) →
            (∃ g', γ' !! x = Some g' ∧ was_linked g') ∧ h' !! x = h !! x) →
  thread_inv u h' rc' γ' ts.
Proof.
  intros Hinv HR HP HO HL. destruct ts as [|n|n old|i|i old|i old|i old nxt|i old]; simpl in *.
  - done.
  - by apply HP.
  - destruct Hinv as (Hg & nd & Hlk & Hnx). destruct (HP n Hg) as [Hg' Hh].
    split; [done|]. exists nd. by rewrite Hh.
  - destruct Hinv as (r & Hr & Ho). exists r. split; [by apply HR|done].
  - destruct Hinv as (Hr & Ho). split; [by apply HR|done].
  - destruct Hinv as (Hr & Ho & g & Hg & Hl). split; [by apply HR|]. split; [done|].
    by destruct (HL old g i Hg Hl Ho Hr) as [? _].
  - destruct Hinv as (Hr & Ho & (g & Hg & Hl) & nd & Hlk & Hnx). split; [by apply HR|].
    split; [done|]. destruct (HL old g i Hg Hl Ho Hr) as [? Hh]. split; [done|].
    exists nd. by rewrite Hh.
  - destruct Hinv as ((r & Hr & Ho) & Hg). split; [|by apply HO].
    exists r. split; [by apply HR|done].
Qed.

(** One thread moves: the invariant is rebuilt from what that thread
    establishes and from the stability of what the others rely on. *)
Lemma safe_inv_step σ s s' t ts ts' :
  safe_inv σ s → σ !! t = Some ts →
  (∀ γ, global_inv (heap s) (head_ s) (retired s) γ →
        thread_inv t (heap s) (recs s) γ ts →
        (∀ u tsu, u ≠ t → σ !! u = Some tsu → thread_inv u (heap s) (recs s) γ tsu) →
        ∃ γ', global_inv (heap s') (head_ s') (retired s') γ' ∧
              thread_inv t (heap s') (recs s') γ' ts' ∧
              ∀ u tsu, u ≠ t → σ !! u = Some tsu →
                       thread_inv u (heap s') (recs s') γ' tsu) →
  safe_inv (<[t := ts']> σ) s'.
Proof.
  intros (γ & HG & HL) Ht Hstep.
  destruct (Hstep γ HG (HL t ts Ht)) as (γ' & HG' & Ht' & Hothers).
  { intros u tsu _ Hu. by apply HL. }
  exists γ'. split; [done|]. intros u tsu Hu.
  apply list_lookup_insert_Some in Hu as [(-> & <- & _)|[Hne Hu]]; [done|].
  by apply Hothers.
Qed.

(** A step that changes neither the heap, nor the list, nor the
    records, nor the retired lists. *)
Lemma safe_inv_quiet σ s s' t ts ts' :
  safe_inv σ s → σ !! t = Some ts →
  heap s' = heap s → head_ s' = head_ s → retired s' = retired s → recs s' = recs s →
  (∀ γ, global_inv (heap s) (head_ s) (retired s) γ →
        thread_inv t (heap s) (recs s) γ ts → thread_inv t (heap s) (recs s) γ ts') →
  safe_inv (<[t := ts']> σ) s'.
Proof.
  intros Hinv Ht Hh Hhd Hrt Hrc Hmine. eapply safe_inv_step; [done|done|].
  intros γ HG Hts Hothers. exists γ. rewrite Hh, Hhd, Hrt, Hrc.
  split; [done|]. split; [by apply Hmine|]. done.
Qed.

(** A step that writes the record [i] of the moving thread only. *)
Lemma safe_inv_record σ s s' t ts ts' i r r' :
  safe_inv σ s → σ !! t = Some ts →
  heap s' = heap s → head_ s' = head_ s → retired s' = retired s →
  recs s !! i = Some r → (hp.owner r = Some t ∨ hp.owner r = None) →
  recs s' = <[i := r']> (recs s) →
  (∀ γ, global_inv (heap s) (head_ s) (retired s) γ →
        thread_inv t (heap s) (recs s) γ ts →
        thread_inv t (heap s) (<[i := r']> (recs s)) γ ts') →
  safe_inv (<[t := ts']> σ) s'.
Proof.
  intros Hinv Ht Hh Hhd Hrt Hr Hown Hrc Hmine. eapply safe_inv_step; [done|done|].
  intros γ HG Hts Hothers. exists γ. rewrite Hh, Hhd, Hrt, Hrc.
  split; [done|]. split; [by apply Hmine|].
  intros u tsu Hne Hu. eapply thread_inv_stable; [by apply Hothers| | | |].
  - intros j rj Hj Hoj. rewrite list_lookup_insert_ne; [done|].
    intros <-. rewrite Hr in Hj. injection Hj as <-.
    destruct Hown as [Ho|Ho]; congruence.
  - done.
  - done.
  - intros x g j Hg Hl Hx Hj. split; [by exists g|done].
Qed.

(** [new Node(v)]. *)
Lemma safe_inv_new σ s t v n s' :
  safe_inv σ s → σ !! t = Some TIdle →
  heap s !! n = None → n ≠ 0%N →
  heap s' = <[n := mkNode v 0%N]> (heap s) → head_ s' = head_ s →
  retired s' = retired s → recs s' = recs s →
  safe_inv (<[t := TPush n]> σ) s'.
Proof.
  intros Hinv Ht Hfresh Hn0 Hh Hhd Hrt Hrc. eapply safe_inv_step; [done|done|].
  intros γ ((cells & xs & Hseg & Hnd & Hcells) & Hret & Halloc) _ Hothers.
  assert (Hγn : γ !! n = None).
  { destruct (γ !! n) as [g|] eqn:Hg; [|done].
    destruct (Halloc n g Hg) as [_ [? ?]]. congruence. }
  exists (<[n := PushPriv t]> γ). rewrite Hh, Hhd, Hrt, Hrc.
  assert (Hkeep : ∀ x g, γ !! x = Some g → <[n := PushPriv t]> γ !! x = Some g ∧
                         <[n := mkNode v 0%N]> (heap s) !! x = heap s !! x).
  { intros x g Hg. assert (x ≠ n) by (intros ->; congruence).
    by rewrite !lookup_insert_ne. }
  split; [split; [|split]|split].
  - exists cells, xs. split; [|split; [done|]].
    + eapply lseg_agree; [|done]. intros c Hc. by destruct (Hkeep c Cell (Hcells c Hc)).
    + intros c Hc. by destruct (Hkeep c Cell (Hcells c Hc)).
  - intros u. destruct (Hret u) as [Hndu Hu]. split; [done|].
    intros x Hx. by destruct (Hkeep x _ (Hu x Hx)).
  - intros x g Hg. destruct (decide (x = n)) as [->|Hne].
    + split; [done|]. rewrite lookup_insert_eq. by eexists.
    + rewrite lookup_insert_ne in Hg by done. rewrite lookup_insert_ne by done.
      by apply (Halloc x g).
  - simpl. apply lookup_insert_eq.
  - intros u tsu Hne Hu. eapply thread_inv_stable; [by apply Hothers|done| | |].
    + intros x Hg. by apply Hkeep.
    + intros x Hg. by apply Hkeep.
    + intros x g i Hg Hl _ _. destruct (Hkeep x g Hg). split; [by exists g|done].
Qed.

(** [n->next = p] on the private node of a push. *)
Lemma safe_inv_set_next σ s t n p nd ts ts' s' :
  safe_inv σ s → σ !! t = Some ts →
  (∀ h rc γ, thread_inv t h rc γ ts → γ !! n = Some (PushPriv t)) →
  heap s !! n = Some nd →
  heap s' = <[n := mkNode (value nd) p]> (heap s) → head_ s' = head_ s →
  retired s' = retired s → recs s' = recs s →
  (∀ h rc γ, γ !! n = Some (PushPriv t) → h !! n = Some (mkNode (value nd) p) →
             thread_inv t h rc γ ts') →
  safe_inv (<[t := ts']> σ) s'.
Proof.
  intros Hinv Ht Hpriv Hlk Hh Hhd Hrt Hrc Hmine. eapply safe_inv_step; [done|done|].
  intros γ ((cells & xs & Hseg & Hnd & Hcells) & Hret & Halloc) Hts Hothers.
  pose proof (Hpriv _ _ _ Hts) as Hγn.
  exists γ. rewrite Hh, Hhd, Hrt, Hrc.
  assert (Hkeep : ∀ x g, γ !! x = Some g → g ≠ PushPriv t →
                         <[n := mkNode (value nd) p]> (heap s) !! x = heap s !! x).
  { intros x g Hg Hne. rewrite lookup_insert_ne; [done|]. intros <-. congruence. }
  split; [split; [|split]|split].
  - exists cells, xs. split; [|split; [done|done]].
    eapply lseg_agree; [|done]. intros c Hc. by apply (Hkeep c Cell); [apply Hcells|].
  - done.
  - intros x g Hg. destruct (Halloc x g Hg) as [Hx0 Hxs]. split; [done|].
    destruct (decide (x = n)) as [->|Hne].
    + rewrite lookup_insert_eq. by eexists.
    + by rewrite lookup_insert_ne.
  - apply Hmine; [done|]. apply lookup_insert_eq.
  - intros u tsu Hne Hu. eapply thread_inv_stable; [by apply Hothers|done| |done|].
    + intros x Hg. split; [done|]. apply (Hkeep x _ Hg). congruence.
    + intros x g i Hg Hl _ _. split; [by exists g|]. apply (Hkeep x g Hg).
      intros ->. done.
Qed.

(** The CAS of [push] goes through. *)
Lemma safe_inv_push_cas σ s t n s' :
  safe_inv σ s → σ !! t = Some (TPushCas n (head_ s)) →
  heap s' = heap s → head_ s' = n → retired s' = retired s → recs s' = recs s →
  safe_inv (<[t := TIdle]> σ) s'.
Proof.
  intros Hinv Ht Hh Hhd Hrt Hrc. eapply safe_inv_step; [done|done|].
  intros γ ((cells & xs & Hseg & Hnd & Hcells) & Hret & Halloc)
         (Hγn & nd & Hlk & Hnx) Hothers.
  destruct (Halloc n _ Hγn) as [Hn0 _].
  exists (<[n := Cell]> γ). rewrite Hh, Hhd, Hrt, Hrc.
  assert (Hnc : n ∉ cells).
  { intros Hin. specialize (Hcells n Hin). congruence. }
  split; [split; [|split]|split].
  - exists (n :: cells), (value nd :: xs). split; [|split].
    + simpl. split; [done|]. split; [done|]. exists nd. split; [done|]. split; [done|].
      by rewrite Hnx.
    + by apply NoDup_cons.
    + intros c Hc. apply elem_of_cons in Hc as [->|Hc]; [apply lookup_insert_eq|].
      rewrite lookup_insert_ne; [by apply Hcells|]. by intros ->.
  - intros u. destruct (Hret u) as [Hndu Hu]. split; [done|].
    intros x Hx. rewrite lookup_insert_ne; [by apply Hu|].
    intros <-. specialize (Hu n Hx). congruence.
  - intros x g Hg. destruct (decide (x = n)) as [->|Hne].
    + by apply (Halloc n (PushPriv t)).
    + rewrite lookup_insert_ne in Hg by done. by apply (Halloc x g).
  - done.
  - intros u tsu Hne Hu. eapply thread_inv_stable; [by apply Hothers|done| | |].
    + intros x Hg. split; [|done]. rewrite lookup_insert_ne; [done|].
      intros <-. congruence.
    + intros x Hg. rewrite lookup_insert_ne; [done|]. intros <-. congruence.
    + intros x g i Hg Hl _ _. split; [|done]. destruct (decide (x = n)) as [->|Hxn].
      * exists Cell. split; [apply lookup_insert_eq|done].
      * exists g. by rewrite lookup_insert_ne.
Qed.

(** The CAS of [pop] goes through. *)
Lemma safe_inv_pop_cas σ s t i nxt s' :
  safe_inv σ s → σ !! t = Some (TPopCas i (head_ s) nxt) →
  heap s' = heap s → head_ s' = nxt → retired s' = retired s → recs s' = recs s →
  safe_inv (<[t := TPopOwn i (head_ s)]> σ) s'.
Proof.
  intros Hinv Ht Hh Hhd Hrt Hrc. eapply safe_inv_step; [done|done|].
  intros γ ((cells & xs & Hseg & Hnd & Hcells) & Hret & Halloc)
         (Hr & Ho & _ & nd & Hlk & Hnx) Hothers.
  destruct (lseg_nonnull _ _ _ _ _ _ Ho Hseg) as (nd' & cells' & xs' & -> & -> & Hlk' & Hseg').
  assert (nd' = nd) as -> by congruence.
  apply NoDup_cons in Hnd as [Hhc Hnd].
  exists (<[head_ s := PopPriv t]> γ). rewrite Hh, Hhd, Hrt, Hrc.
  assert (Hcell : γ !! head_ s = Some Cell) by (apply Hcells, elem_of_cons; by left).
  split; [split; [|split]|split].
  - exists cells', xs'. rewrite <- Hnx. split; [done|]. split; [done|].
    intros c Hc. rewrite lookup_insert_ne by (by intros <-).
    apply Hcells, elem_of_cons. by right.
  - intros u. destruct (Hret u) as [Hndu Hu]. split; [done|].
    intros x Hx. rewrite lookup_insert_ne; [by apply Hu|].
    intros <-. specialize (Hu _ Hx). congruence.
  - intros x g Hg. destruct (decide (x = head_ s)) as [->|Hne].
    + by apply (Halloc _ Cell).
    + rewrite lookup_insert_ne in Hg by done. by apply (Halloc x g).
  - simpl. split; [by eexists|]. apply lookup_insert_eq.
  - intros u tsu Hne Hu. eapply thread_inv_stable; [by apply Hothers|done| | |].
    + intros x Hg. split; [|done]. rewrite lookup_insert_ne; [done|].
      intros <-. congruence.
    + intros x Hg. rewrite lookup_insert_ne; [done|]. intros <-. congruence.
    + intros x g j Hg Hl _ _. split; [|done]. destruct (decide (x = head_ s)) as [->|Hxn].
      * exists (PopPriv t). split; [apply lookup_insert_eq|done].
      * exists g. by rewrite lookup_insert_ne.
Qed.

(** [retire(old)] by the thread that unlinked [old]. *)
Lemma safe_inv_retire σ s t i old kept scanned deleted :
  safe_inv σ s → σ !! t = Some (TPopOwn i old) →
  hp.retire old (recs s) (default [] (retired s !! t)) = (kept, scanned, deleted) →
  ∃ h', delete_nodes deleted (heap s) = Done h' ∧
        ∀ s', heap s' = h' → head_ s' = head_ s →
              retired s' = <[t := kept]> (retired s) → recs s' = recs s →
              safe_inv (<[t := TPop i]> σ) s'.
Proof.
  intros Hinv Ht Hretire.
  set (rl := default [] (retired s !! t)) in *.
  pose proof Hinv as (γ0 & ((_ & Hret0 & Halloc0) & HL0)).
  pose proof (HL0 t _ Ht) as [_ Hγold0].
  assert (Hnd' : NoDup (rl ++ [old])).
  { apply NoDup_app. destruct (Hret0 t) as [Hndt Ht']. split; [done|].
    split; [|apply NoDup_singleton].
    intros x Hx Hx'. apply list_elem_of_singleton in Hx' as ->.
    specialize (Ht' old Hx). congruence. }
  assert (Hall : ∀ r, r ∈ rl ++ [old] → r ≠ 0%N ∧ is_Some (heap s !! r)).
  { intros r Hr. apply elem_of_app in Hr as [Hr|Hr].
    - destruct (Hret0 t) as [_ Ht']. by apply (Halloc0 r (Retired t)), Ht'.
    - apply list_elem_of_singleton in Hr as ->. by apply (Halloc0 old (PopPriv t)). }
  destruct (retire_ok _ _ _ _ _ _ _ Hnd' Hall Hretire) as (h' & Hdel & _ & Hkept & Hkin).
  pose proof (retire_partition _ _ _ _ _ _ Hretire) as Hperm.
  assert (Hframe : ∀ q, q ∉ deleted → h' !! q = heap s !! q).
  { intros q Hq. by eapply delete_nodes_frame. }
  assert (Hdel_in : ∀ q, q ∈ deleted → q ∈ rl ++ [old]).
  { intros q Hq. rewrite <- Hperm. apply elem_of_app. by right. }
  assert (Hkd : ∀ q, q ∈ kept → q ∉ deleted).
  { rewrite <- Hperm in Hnd'. apply NoDup_app in Hnd' as (_ & Hdisj & _). exact Hdisj. }
  clear γ0 Hret0 Halloc0 HL0 Hγold0.
  exists h'. split; [done|]. intros s' Hh Hhd Hrt Hrc.
  eapply safe_inv_step; [done|done|].
  intros γ ((cells & xs & Hseg & Hnd & Hcells) & Hret & Halloc) [Hown Hγold] Hothers.
  set (γ' := filter (λ kv, kv.1 ∉ deleted) (<[old := Retired t]> γ)).
  assert (Hγ' : ∀ x g, γ' !! x = Some g ↔
                       (<[old := Retired t]> γ) !! x = Some g ∧ x ∉ deleted).
  { intros x g. unfold γ'. by rewrite map_lookup_filter_Some. }
  assert (Htagged : ∀ q, q ∈ rl ++ [old] → γ !! q = Some (Retired t) ∨ q = old).
  { intros q Hq. apply elem_of_app in Hq as [Hq|Hq].
    - left. by apply (Hret t).
    - right. by apply list_elem_of_singleton in Hq. }
  assert (Hkeep : ∀ x g, γ !! x = Some g → g ≠ Retired t → g ≠ PopPriv t →
                         γ' !! x = Some g ∧ h' !! x = heap s !! x).
  { intros x g Hg H1 H2.
    assert (Hxd : x ∉ deleted).
    { intros Hin. destruct (Htagged x (Hdel_in x Hin)) as [?| ->]; congruence. }
    split; [|by apply Hframe]. apply Hγ'. split; [|done].
    rewrite lookup_insert_ne; [done|]. intros <-. congruence. }
  exists γ'. rewrite Hh, Hhd, Hrt, Hrc.
  split; [split; [|split]|split].
  - exists cells, xs. split; [|split; [done|]].
    + eapply lseg_agree; [|done]. intros c Hc. by apply (Hkeep c Cell); [apply Hcells|..].
    + intros c Hc. by apply (Hkeep c Cell); [apply Hcells|..].
  - intros u. destruct (decide (u = t)) as [->|Hne].
    + rewrite lookup_insert_eq. simpl. split; [done|]. intros x Hx.
      apply Hγ'. split; [|by apply Hkd].
      destruct (Hkin x Hx) as (Hin & _). destruct (Htagged x Hin) as [Hg| ->].
      * destruct (decide (x = old)) as [->|Hxo]; [congruence|]. by rewrite lookup_insert_ne.
      * apply lookup_insert_eq.
    + rewrite lookup_insert_ne by done. destruct (Hret u) as [Hndu Hu]. split; [done|].
      intros x Hx. apply (Hkeep x (Retired u)); [by apply Hu|congruence|done].
  - intros x g Hg. apply Hγ' in Hg as [Hg Hxd]. rewrite Hframe by done.
    destruct (decide (x = old)) as [->|Hne].
    + by apply (Halloc old (PopPriv t)).
    + rewrite lookup_insert_ne in Hg by done. by apply (Halloc x g).
  - exact Hown.
  - intros u tsu Hne Hu. eapply thread_inv_stable; [by apply Hothers|done| | |].
    + intros x Hg. apply (Hkeep x _ Hg); congruence.
    + intros x Hg. apply (Hkeep x _ Hg); congruence.
    + intros x g j Hg Hl Hx0 Hj.
      assert (Hxd : x ∉ deleted).
      { eapply (retire_protected _ _ _ _ _ _ x Hretire Hx0).
        exists (hp.mkRecord (Some u) x). split; [|done]. by eapply list_elem_of_lookup_2. }
      split; [|by apply Hframe]. destruct (decide (x = old)) as [->|Hxo].
      * exists (Retired t). split; [|done]. apply Hγ'. split; [|done]. apply lookup_insert_eq.
      * exists g. split; [|done]. apply Hγ'. split; [|done]. by rewrite lookup_insert_ne.
Qed.

End TreiberSafetyFacts.

Section TreiberSafetyStep.
Import TreiberStack.
Context {A : Type}.
Implicit Types (p : prog Act A) (σ : list tstate).

Lemma hp_set_insert i q rc r :
  rc !! i = Some r → hp.set i q rc = <[i := hp.mkRecord (hp.owner r) q]> rc.
Proof.
  intros Hr. unfold hp.set. apply list_eq. intros j.
  destruct (decide (j = i)) as [->|Hne].
  - rewrite list_lookup_alter_eq, list_lookup_insert_eq by (by eapply lookup_lt_Some).
    by rewrite Hr.
  - by rewrite list_lookup_alter_ne, list_lookup_insert_ne.
Qed.

Lemma safe_inv_local σ s t ts :
  safe_inv σ s → σ !! t = Some ts →
  ∃ γ, global_inv (heap s) (head_ s) (retired s) γ ∧ thread_inv t (heap s) (recs s) γ ts.
Proof. intros (γ & HG & HL) Ht. exists γ. split; [done|]. by apply HL. Qed.

(** Writing the record a pop holds. *)
Lemma safe_inv_hp_set σ s t ts ts' i q r :
  safe_inv σ s → σ !! t = Some ts →
  recs s !! i = Some r → hp.owner r = Some t →
  (∀ h rc γ, thread_inv t h rc γ ts →
             thread_inv t h (<[i := hp.mkRecord (Some t) q]> rc) γ ts') →
  safe_inv (<[t := ts']> σ)
    (mkState (heap s) (head_ s) (hp.set i q (recs s)) (retired s) (allocs s) (spur s)).
Proof.
  intros Hinv Ht Hr Ho Hmine.
  eapply (safe_inv_record σ s _ t ts ts' i r (hp.mkRecord (Some t) q)); try done.
  - by left.
  - cbn [recs]. rewrite (hp_set_insert i q _ r) by done. by rewrite Ho.
  - intros γ _ Hts. by apply Hmine.
Qed.

Lemma thread_step (t : nat) p ts σ s :
  thread_at p ts → σ !! t = Some ts → safe_inv σ s →
  match p with
  | Vis e k =>
      match handle t _ e s with
      | Done (x, s') => ∃ ts', thread_at (k x) ts' ∧ safe_inv (<[t := ts']> σ) s'
      | Fault _ => False
      | _ => True
      end
  | _ => True
  end.
Proof.
  intros Hat Ht Hinv.
  destruct Hat as [p Hapi|ts|K fuel n HK|K fuel n HK|K fuel n old HK|K fuel' n old HK
                  |K fuel i out HK|K i out HK|K i out HK|K fuel' i out old HK Hold
                  |K fuel' i out old HK|K fuel' i out old HK|K fuel' i out old nxt HK
                  |K i old HK|K i old v HK|K i old v HK|K i v HK].
  - (* between two operations *)
    destruct Hapi as [a|fuel v K HK|fuel out K HK|K HK].
    + done.
    + cbn [push mbind prog_mbind prog_bind call handle].
      exists (TPush (pick_addr (hd 0%N (allocs s)) (heap s))).
      split; [exact (at_push_init K fuel _ HK)|].
      eapply safe_inv_new; try done; [apply pick_addr_fresh|apply pick_addr_nonnull].
    + cbn [pop mbind prog_mbind prog_bind call handle].
      destruct (hp.acquire_hazard_record t (recs s)) as [[i recs']|] eqn:Hacq; [|done].
      destruct (acquire_spec _ _ _ _ Hacq) as (r & Hr & Hor & ->).
      exists (TPop i). split; [exact (at_pop_loop K fuel i out HK)|].
      eapply (safe_inv_record σ s _ t TIdle (TPop i) i r); try done.
      intros γ _ _. simpl. exists (hp.mkRecord (Some t) (hp.ptr r)). split; [|done].
      apply list_lookup_insert_eq. by eapply lookup_lt_Some.
    + cbn [empty mbind prog_mbind prog_bind call handle].
      exists TIdle. split; [apply at_api, HK|].
      by eapply safe_inv_quiet.
  - done.
  - (* push: n->next = nullptr *)
    cbn [push_init mbind prog_mbind prog_bind call handle].
    destruct (safe_inv_local _ _ _ _ Hinv Ht) as (γ & (_ & _ & Halloc) & Hts).
    simpl in Hts. destruct (Halloc n _ Hts) as [_ [nd Hlk]]. rewrite Hlk.
    exists (TPush n). split; [exact (at_push_load K fuel n HK)|].
    eapply (safe_inv_set_next σ s t n 0%N nd (TPush n) (TPush n)); try done.
  - (* push: load head *)
    cbn [push_load mbind prog_mbind prog_bind call handle].
    exists (TPush n). split; [exact (at_push_loop K fuel n (head_ s) HK)|].
    by eapply safe_inv_quiet.
  - (* push: n->next = old_head *)
    destruct fuel as [|fuel']; [done|].
    cbn [push_loop mbind prog_mbind prog_bind call handle].
    destruct (safe_inv_local _ _ _ _ Hinv Ht) as (γ & (_ & _ & Halloc) & Hts).
    simpl in Hts. destruct (Halloc n _ Hts) as [_ [nd Hlk]]. rewrite Hlk.
    exists (TPushCas n old). split; [exact (at_push_cas K fuel' n old HK)|].
    eapply (safe_inv_set_next σ s t n old nd (TPush n) (TPushCas n old)); try done.
    intros h rc γ' Hg Hh. simpl. split; [done|]. by eexists.
  - (* push: CAS *)
    cbn [push_cas mbind prog_mbind prog_bind call handle].
    destruct (decide (head_ s = old)) as [<-|Hne].
    + destruct (spur s) as [|[] sp] eqn:Hsp.
      * exists TIdle. split; [apply at_api, HK|]. by eapply safe_inv_push_cas.
      * exists (TPush n). split; [exact (at_push_loop K fuel' n (head_ s) HK)|].
        eapply safe_inv_quiet; try done. intros γ _ [Hg _]. done.
      * exists TIdle. split; [apply at_api, HK|]. by eapply safe_inv_push_cas.
    + exists (TPush n). split; [exact (at_push_loop K fuel' n (head_ s) HK)|].
      eapply safe_inv_quiet; try done. intros γ _ [Hg _]. done.
  - (* pop: load head *)
    destruct fuel as [|fuel']; [done|].
    cbn [pop_loop mbind prog_mbind prog_bind call handle].
    exists (TPop i). destruct (decide (head_ s = 0%N)) as [Hnull|Hhead].
    + split; [exact (at_pop_empty K i out HK)|]. by eapply safe_inv_quiet.
    + split; [exact (at_pop_protect K fuel' i out (head_ s) HK Hhead)|].
      by eapply safe_inv_quiet.
  - (* pop on the empty stack: hpo.clear() *)
    cbn [pop_empty mbind prog_mbind prog_bind call handle].
    destruct (safe_inv_local _ _ _ _ Hinv Ht) as (γ & _ & (r & Hr & Ho)).
    exists (TPop i). split; [exact (at_pop_empty' K i out HK)|].
    eapply safe_inv_hp_set; try done. intros h rc γ' (r' & Hr' & _). simpl.
    eexists (hp.mkRecord (Some t) 0%N). split; [|done].
    apply list_lookup_insert_eq. by eapply lookup_lt_Some.
  - (* the destructor of the owner clears once more *)
    cbn [pop_empty' mbind prog_mbind prog_bind call handle].
    destruct (safe_inv_local _ _ _ _ Hinv Ht) as (γ & _ & (r & Hr & Ho)).
    exists TIdle. split; [apply at_api, HK|].
    eapply safe_inv_hp_set; try done.
  - (* pop: hpo.set(old_head) *)
    cbn [pop_protect mbind prog_mbind prog_bind call handle].
    destruct (safe_inv_local _ _ _ _ Hinv Ht) as (γ & _ & (r & Hr & Ho)).
    exists (TPopHaz i old). split; [exact (at_pop_reread K fuel' i out old HK)|].
    eapply safe_inv_hp_set; try done. intros h rc γ' (r' & Hr' & _). simpl.
    split; [|done]. apply list_lookup_insert_eq. by eapply lookup_lt_Some.
  - (* pop: re-read head_ *)
    cbn [pop_reread mbind prog_mbind prog_bind call handle].
    destruct (decide (old ≠ head_ s)) as [Hne|Heq].
    + exists (TPop i). split; [exact (at_pop_loop K fuel' i out HK)|].
      eapply safe_inv_quiet; try done. intros γ _ [Hr _]. simpl. by eexists.
    + apply dec_stable in Heq.
      exists (TPopVal i old). split; [exact (at_pop_validated K fuel' i out old HK)|].
      eapply safe_inv_quiet; try done.
      intros γ ((cells & xs & Hseg & _ & Hcells) & _) [Hr Hold]. simpl.
      split; [done|]. split; [done|]. exists Cell. split; [|done].
      apply Hcells. rewrite <- Heq in Hseg.
      destruct cells as [|c cells], xs as [|x xs]; simpl in Hseg; try done.
      destruct Hseg as (-> & _). by left.
  - (* pop: old_head->next *)
    cbn [pop_validated mbind prog_mbind prog_bind call handle].
    destruct (safe_inv_local _ _ _ _ Hinv Ht)
      as (γ & (_ & _ & Halloc) & (Hr & Hold & (g & Hg & Hl))).
    destruct (Halloc old _ Hg) as [_ [nd Hlk]]. rewrite Hlk.
    exists (TPopCas i old (next nd)).
    split; [exact (at_pop_cas K fuel' i out old (next nd) HK)|].
    eapply safe_inv_quiet; try done.
    intros γ' _ (Hr' & _ & Hg'). simpl. split; [done|]. split; [done|].
    split; [done|]. by exists nd.
  - (* pop: CAS *)
    cbn [pop_cas mbind prog_mbind prog_bind call handle].
    assert (∀ s', heap s' = heap s → head_ s' = head_ s → retired s' = retired s →
                  recs s' = recs s → safe_inv (<[t := TPop i]> σ) s') as Hfail.
    { intros s' ? ? ? ?. eapply safe_inv_quiet; try done.
      intros γ _ (Hr & _). simpl. by eexists. }
    destruct (decide (head_ s = old)) as [<-|Hne].
    + destruct (spur s) as [|[] sp] eqn:Hsp.
      * exists (TPopOwn i (head_ s)). split; [exact (at_pop_owned K i (head_ s) HK)|].
        by eapply safe_inv_pop_cas.
      * exists (TPop i). split; [exact (at_pop_loop K fuel' i out HK)|]. by apply Hfail.
      * exists (TPopOwn i (head_ s)). split; [exact (at_pop_owned K i (head_ s) HK)|].
        by eapply safe_inv_pop_cas.
    + exists (TPop i). split; [exact (at_pop_loop K fuel' i out HK)|]. by apply Hfail.
  - (* pop: old_head->value *)
    cbn [pop_owned mbind prog_mbind prog_bind call handle].
    destruct (safe_inv_local _ _ _ _ Hinv Ht) as (γ & (_ & _ & Halloc) & (_ & Hg)).
    destruct (Halloc old _ Hg) as [_ [nd Hlk]]. rewrite Hlk.
    exists (TPopOwn i old). split; [exact (at_pop_owned1 K i old (value nd) HK)|].
    by eapply safe_inv_quiet.
  - (* pop: hpo.clear() *)
    cbn [pop_owned1 mbind prog_mbind prog_bind call handle].
    destruct (safe_inv_local _ _ _ _ Hinv Ht) as (γ & _ & ((r & Hr & Ho) & _)).
    exists (TPopOwn i old). split; [exact (at_pop_owned2 K i old v HK)|].
    eapply safe_inv_hp_set; try done. intros h rc γ' ((r' & Hr' & _) & Hg). simpl.
    split; [|done]. exists (hp.mkRecord (Some t) 0%N). split; [|done].
    apply list_lookup_insert_eq. by eapply lookup_lt_Some.
  - (* pop: retire(old_head) *)
    cbn [pop_owned2 mbind prog_mbind prog_bind call handle].
    destruct (hp.retire old (recs s) (default [] (retired s !! t)))
      as [[kept scanned] deleted] eqn:Hretire.
    destruct (safe_inv_retire _ _ _ _ _ _ _ _ Hinv Ht Hretire) as (h' & -> & Hinv').
    exists (TPop i). split; [exact (at_pop_owned3 K i v HK)|]. by apply Hinv'.
  - (* the destructor of the owner *)
    cbn [pop_owned3 mbind prog_mbind prog_bind call handle].
    destruct (safe_inv_local _ _ _ _ Hinv Ht) as (γ & _ & (r & Hr & Ho)).
    exists TIdle. split; [apply at_api, HK|].
    eapply safe_inv_hp_set; try done.
Qed.

End TreiberSafetyStep.

Section TreiberSafety.
Import TreiberStack.
Context {A : Type}.
Implicit Types (p : prog Act A) (σ : list tstate).

Lemma safe_inv_init (n : nat) allocs spur :
  safe_inv (replicate n TIdle) (init allocs spur).
Proof.
  exists ∅. split.
  - split; [|split].
    + exists [], []. split; [done|]. split; [constructor|]. by intros c ?%elem_of_nil.
    + intros u. cbn [init retired]. rewrite lookup_empty. split; [constructor|].
      by intros x ?%elem_of_nil.
    + intros x g. by rewrite lookup_empty.
  - intros t ts [-> _]%lookup_replicate. done.
Qed.

Lemma thread_at_init (pool : list (prog Act A)) :
  Forall api_client pool → Forall2 thread_at pool (replicate (length pool) TIdle).
Proof.
  induction 1 as [|p pool Hp _ IH]; [constructor|].
  constructor; [by apply at_api|done].
Qed.

Lemma interleave_safe sched : ∀ (pool : list (prog Act A)) σ s,
  Forall2 thread_at pool σ → safe_inv σ s →
  match interleave handle sched pool s with
  | Done (pool', s') => ∃ σ', Forall2 thread_at pool' σ' ∧ safe_inv σ' s'
  | Fault _ => False
  | _ => True
  end.
Proof.
  induction sched as [|t sched IH]; intros pool σ s Hat Hinv; cbn [interleave].
  { by exists σ. }
  destruct (pool !! t) as [p|] eqn:Hp; [|by apply (IH pool σ s)].
  destruct (Forall2_lookup_l _ _ _ _ _ Hat Hp) as (ts & Hts & Hpt).
  pose proof (thread_step t p ts σ s Hpt Hts Hinv) as Hstep.
  destruct p as [a|X e k|]; [by apply (IH pool σ s)| |done].
  destruct (handle t X e s) as [[x s']| | |]; [|done|done|done].
  destruct Hstep as (ts' & Hat' & Hinv').
  apply (IH (<[t := k x]> pool) (<[t := ts']> σ) s'); [|done].
  by apply Forall2_insert.
Qed.

End TreiberSafety.

Lemma treiber_clients_ok : Forall api_client [treiber_client_first; treiber_client_second].
Proof.
  apply Forall_cons_2; [|apply Forall_cons_2; [|apply Forall_nil_2]].
  - exact (client_push 4 7 _ (λ _, client_pop 4 0 _ (λ r, client_ret r))).
  - exact (client_pop 4 0 _
             (λ r, client_push 4 (if fst r then snd r + 1 else 9) _ (λ _, client_ret r))).
Defined.




Section HpOwners.
Import hp.

Lemma delete_nodes_not_aborted {V} (ps : list N) (h : gmap N V) :
  delete_nodes ps h ≠ Aborted.
Proof.
  revert h. induction ps as [|p ps IH]; intros h; [done|]. simpl.
  unfold delete_node. case_decide; [apply IH|].
  destruct (h !! p); [apply IH|done].
Qed.

Lemma owners_set i p recs : owners (set i p recs) = owners recs.
Proof.
  unfold owners, set. revert i. induction recs as [|r l IH]; intros [|i]; try done.
  - change (alter ?f (S ?n) (?x :: ?l)) with (x :: alter f n l).
    cbn [omap list_omap]. by rewrite <- (IH i).
Qed.

Lemma owners_inv_set n i p recs : owners_inv n recs → owners_inv n (set i p recs).
Proof.
  intros (Hlen & Hnd & Hb). split; [unfold set; by rewrite length_alter|].
  by rewrite owners_set.
Qed.

Lemma owners_claim me i recs r :
  recs !! i = Some r → owner r = None →
  owners (alter (λ r, mkRecord (Some me) (ptr r)) i recs) ≡ₚ me :: owners recs.
Proof.
  unfold owners. revert i. induction recs as [|a l IH]; intros [|i] Hr Ho; try done.
  - simpl in Hr. injection Hr as ->. cbn. by rewrite Ho.
  - change (alter ?f (S ?n) (?x :: ?l)) with (x :: alter f n l).
    cbn [omap list_omap]. destruct (owner a); cbn [mbind option_bind default from_option].
    + rewrite (IH i Hr Ho). apply Permutation_swap.
    + by apply IH.
Qed.

Lemma owners_elem me recs : me ∈ owners recs ↔ ∃ r, r ∈ recs ∧ owner r = Some me.
Proof. unfold owners. by rewrite list_elem_of_omap. Qed.

Lemma owners_inv_init n : owners_inv n g_hazard_records.
Proof.
  assert (owners g_hazard_records = []) as Hnone.
  { unfold g_hazard_records. generalize MAX_HAZARD_POINTERS. intros k.
    induction k as [|k IH]; [done|]. done. }
  split; [apply length_replicate|]. rewrite Hnone. split; [constructor|].
  by intros u ?%elem_of_nil.
Qed.

Lemma owners_inv_acquire n me recs i recs' :
  (me < n)%nat → owners_inv n recs → acquire_hazard_record me recs = Some (i, recs') →
  owners_inv n recs'.
Proof.
  intros Hme (Hlen & Hnd & Hbound). unfold acquire_hazard_record.
  destruct (find_record (owned_by me) recs) as [k|] eqn:Ho; [by intros [= <- <-]|].
  destruct (find_record is_free recs) as [k|] eqn:Hf; [|done]. intros [= <- <-].
  apply find_record_Some in Hf as (r & Hr & Hfree). apply bool_decide_eq_true in Hfree.
  pose proof (owners_claim me k recs r Hr Hfree) as Hperm.
  split; [by rewrite length_alter|]. split.
  - rewrite Hperm. apply NoDup_cons. split; [|done].
    intros (r' & Hr' & Hown)%owners_elem.
    rewrite find_record_None in Ho. specialize (Ho r' Hr').
    apply bool_decide_eq_false in Ho. done.
  - intros u Hu. rewrite Hperm in Hu.
    apply elem_of_cons in Hu as [->|Hu]; [done|by apply Hbound].
Qed.

(** With a record for every thread the acquisition goes through. *)
Lemma acquire_never_refused n me recs :
  (n ≤ MAX_HAZARD_POINTERS)%nat → (me < n)%nat → owners_inv n recs →
  acquire_hazard_record me recs ≠ None.
Proof.
  intros Hn Hme (Hlen & Hnd & Hbound). unfold acquire_hazard_record.
  destruct (find_record (owned_by me) recs) as [k|] eqn:Ho; [done|].
  destruct (find_record is_free recs) as [k|] eqn:Hf; [done|]. exfalso.
  rewrite find_record_None in Ho, Hf.
  assert (length (owners recs) = length recs) as Hall.
  { unfold owners. clear -Hf. induction recs as [|r l IH]; [done|].
    cbn [omap list_omap]. pose proof (Hf r (list_elem_of_here _ _)) as Hr.
    apply bool_decide_eq_false in Hr. destruct (owner r) as [u|] eqn:Hu; [|done].
    cbn. f_equal. apply IH. intros r' Hr'. apply Hf. by right. }
  assert (NoDup (me :: owners recs)) as Hnd'.
  { apply NoDup_cons. split; [|done]. intros (r' & Hr' & Hown)%owners_elem.
    specialize (Ho r' Hr'). apply bool_decide_eq_false in Ho. done. }
  assert (me :: owners recs ⊆+ seq 0 n) as Hsub.
  { apply NoDup_submseteq; [done|]. intros u [->|Hu]%elem_of_cons.
    - apply elem_of_seq. lia.
    - apply elem_of_seq. specialize (Hbound u Hu). lia. }
  apply submseteq_length in Hsub. rewrite length_seq in Hsub. simpl in Hsub.
  rewrite Hall, Hlen in Hsub. lia.
Qed.

End HpOwners.

Section NeverAborts.
Context {E : Type → Type} {S : Type}.
Variable handle : nat → ∀ X, E X → S → outcome (X * S).
Variable recs_of : S → list hp.HazardRecord.
Variable n : nat.
(** An action of one of the threads [0 .. n-1] keeps the registry as
    [owners_inv] says and does not abort. *)
Hypothesis step_ok : ∀ t X (e : E X) s,
  (t < n)%nat → owners_inv n (recs_of s) →
  match handle t X e s with
  | Done (_, s') => owners_inv n (recs_of s')
  | Aborted => False
  | _ => True
  end.

Lemma interleave_never_aborts {A} sched : ∀ (pool : list (prog E A)) s,
  length pool = n → owners_inv n (recs_of s) → interleave handle sched pool s ≠ Aborted.
Proof.
  induction sched as [|t sched IH]; intros pool s Hlen Hinv; cbn [interleave]; [done|].
  destruct (pool !! t) as [p|] eqn:Hp; [|by apply IH].
  destruct p as [a|X e k|]; [by apply IH| |done].
  pose proof (step_ok t X e s) as Hstep.
  destruct (handle t X e s) as [[x s']| | |]; [|intros _|done|done].
  - apply IH; [by rewrite length_insert|]. apply Hstep; [|done].
    rewrite <- Hlen. by eapply lookup_lt_Some.
  - apply Hstep; [|done]. rewrite <- Hlen. by eapply lookup_lt_Some.
Qed.

End NeverAborts.

Section TreiberOwners.
Import TreiberStack.

Lemma treiber_step_owners n t X (e : Act X) s :
  (n ≤ hp.MAX_HAZARD_POINTERS)%nat → (t < n)%nat → owners_inv n (recs s) →
  match handle t X e s with
  | Done (_, s') => owners_inv n (recs s')
  | Aborted => False
  | _ => True
  end.
Proof.
  intros Hn Ht Hinv. destruct e; cbn [handle]; try done.
  - by destruct (heap s !! n0).
  - case_decide; [|done]. by destruct (spur s) as [|[] sp].
  - pose proof (acquire_never_refused n t (recs s) Hn Ht Hinv) as Hsome.
    destruct (hp.acquire_hazard_record t (recs s)) as [[i recs']|] eqn:Hacq; [|done].
    cbn [recs]. by eapply owners_inv_acquire.
  - cbn [recs]. by apply owners_inv_set.
  - cbn [recs]. by apply owners_inv_set.
  - by destruct (heap s !! p).
  - by destruct (heap s !! p).
  - destruct (hp.retire p (recs s) (default [] (retired s !! t))) as [[kept scanned] deleted].
    pose proof (delete_nodes_not_aborted deleted (heap s)) as Hdel.
    by destruct (delete_nodes deleted (heap s)).
Qed.

End TreiberOwners.

Section MSQueueOwners.
Import MSQueue.

Lemma msq_step_owners n t X (e : Act X) s :
  (n ≤ hp.MAX_HAZARD_POINTERS)%nat → (t < n)%nat → owners_inv n (recs s) →
  match handle t X e s with
  | Done (_, s') => owners_inv n (recs s')
  | Aborted => False
  | _ => True
  end.
Proof.
  intros Hn Ht Hinv. destruct e; cbn [handle]; try done.
  - by destruct (heap s !! p).
  - destruct (heap s !! p); [|done]. case_decide; [|done].
    by destruct (spur s) as [|[] sp].
  - by case_decide.
  - by case_decide.
  - pose proof (acquire_never_refused n t (recs s) Hn Ht Hinv) as Hsome.
    destruct (hp.acquire_hazard_record t (recs s)) as [[i recs']|] eqn:Hacq; [|done].
    cbn [recs set_recs]. by eapply owners_inv_acquire.
  - cbn [recs set_recs]. by apply owners_inv_set.
  - cbn [recs set_recs]. by apply owners_inv_set.
  - destruct (heap s !! p) as [nd|]; [|done]. by destruct (value nd).
  - destruct (hp.retire p (recs s) (default [] (retired s !! t))) as [[kept scanned] deleted].
    pose proof (delete_nodes_not_aborted deleted (heap s)) as Hdel.
    by destruct (delete_nodes deleted (heap s)).
Qed.

End MSQueueOwners.

(** X24.  With at most 128 threads, the hazard records never run out: no
    interleaving of programs over the Treiber stack, or over the
    Michael-Scott queue, ends in the abort of [acquire_hazard_record],
    whatever the programs do. *)
Theorem hp_enough_records {A B : Type} (stack_pool : list (prog TreiberStack.Act A))
    (queue_pool : list (prog MSQueue.Act B)) (sched : list nat) (allocs : list N)
    (spur : list bool) :
  (length stack_pool ≤ hp.MAX_HAZARD_POINTERS)%nat →
  (length queue_pool ≤ hp.MAX_HAZARD_POINTERS)%nat →
  interleave TreiberStack.handle sched stack_pool (TreiberStack.init allocs spur) ≠ Aborted ∧
  interleave MSQueue.handle sched queue_pool (MSQueue.init allocs spur) ≠ Aborted.
Proof.
  intros Hs Hq. split.
  - apply (interleave_never_aborts TreiberStack.handle TreiberStack.recs (length stack_pool));
      [|done|apply owners_inv_init].
    intros t X e s. by apply treiber_step_owners.
  - apply (interleave_never_aborts MSQueue.handle MSQueue.recs (length queue_pool));
      [|done|apply owners_inv_init].
    intros t X e s. by apply msq_step_owners.
Qed.

Lemma hp_enough_records_witness :
  (length [treiber_client_first; treiber_client_second] ≤ hp.MAX_HAZARD_POINTERS)%nat ∧
  (length msq_pair ≤ hp.MAX_HAZARD_POINTERS)%nat ∧
  interleave TreiberStack.handle treiber_clients_schedule
    [treiber_client_first; treiber_client_second] (TreiberStack.init [] [true]) ≠ Aborted ∧
  interleave MSQueue.handle treiber_clients_schedule msq_pair (MSQueue.init [] [true]) ≠
    Aborted.
Proof.
  assert (length [treiber_client_first; treiber_client_second] ≤ hp.MAX_HAZARD_POINTERS)%nat
    as H1 by (vm_compute; lia).
  assert (length msq_pair ≤ hp.MAX_HAZARD_POINTERS)%nat as H2 by (vm_compute; lia).
  split; [exact H1|]. split; [exact H2|].
  exact (hp_enough_records _ _ treiber_clients_schedule [] [true] H1 H2).
Defined.

